(** * WHOIS parser for ccTLDs: a shallow embedding of [parseWhoisData]

    The program is JavaScript.  Its strings are sequences of UTF-16 code
    units, its pattern matching is the backtracking matcher of ECMAScript
    regular expressions, and several of its expressions can raise a
    [TypeError] (a method call on [undefined]).  The embedding keeps all
    three: strings are lists of code units, every regular expression of the
    source is a term of [regex] run by the backtracking matcher [rmatch], and
    the functions of the source live in the [completion] monad. *)

From Stdlib Require Import String Ascii DecimalString.
From Stdlib Require Import NArith ZArith Bool Lia List.
Import ListNotations.

(** ** Strings *)

Definition char := N.
Definition jsstring := list char.

(** An ASCII literal as a JavaScript string. *)
Definition js (s : string) : jsstring :=
  map N_of_ascii (list_ascii_of_string s).

Definition ch (a : ascii) : char := N_of_ascii a.

Definition jsstring_eqb (a b : jsstring) : bool :=
  if list_eq_dec N.eq_dec a b then true else false.

Local Open Scope N_scope.

Definition isDigit (c : char) : bool := (48 <=? c) && (c <=? 57).
Definition isUpperAZ (c : char) : bool := (65 <=? c) && (c <=? 90).
Definition isLowerAZ (c : char) : bool := (97 <=? c) && (c <=? 122).

(** [\w] is [[A-Za-z0-9_]]. *)
Definition isWordChar (c : char) : bool :=
  isDigit c || isUpperAZ c || isLowerAZ c || (c =? 95).

(** LineTerminator: LF, CR, LS, PS.  [.] matches everything else. *)
Definition isLineTerminator (c : char) : bool :=
  (c =? 10) || (c =? 13) || (c =? 0x2028) || (c =? 0x2029).

(** WhiteSpace: TAB, VT, FF, SP, NBSP, ZWNBSP and the Unicode space
    separators. *)
Definition isWhiteSpace (c : char) : bool :=
  (c =? 9) || (c =? 11) || (c =? 12) || (c =? 32) || (c =? 160) ||
  (c =? 0x1680) || ((0x2000 <=? c) && (c <=? 0x200A)) ||
  (c =? 0x202F) || (c =? 0x205F) || (c =? 0x3000) || (c =? 0xFEFF).

(** [\s], and what [String.prototype.trim] strips: WhiteSpace and
    LineTerminator. *)
Definition isSpace (c : char) : bool := isWhiteSpace c || isLineTerminator c.

Definition toAsciiUpper (c : char) : char := if isLowerAZ c then c - 32 else c.
Definition toAsciiLower (c : char) : char := if isUpperAZ c then c + 32 else c.

(** [String.prototype.toLowerCase].  The program applies it to a capture of
    [\w+] only, a string of ASCII code units, where it is the map below. *)
Definition toLowerCase (s : jsstring) : jsstring := map toAsciiLower s.

Fixpoint trimStart (s : jsstring) : jsstring :=
  match s with
  | c :: t => if isSpace c then trimStart t else s
  | [] => []
  end.

Definition trimEnd (s : jsstring) : jsstring := rev (trimStart (rev s)).

(** [String.prototype.trim] *)
Definition trim (s : jsstring) : jsstring := trimEnd (trimStart s).

(** [s.split(sep)] for a one-character separator: never an empty array. *)
Fixpoint split_chr (sep : char) (s : jsstring) : list jsstring :=
  match s with
  | [] => [[]]
  | c :: t =>
      if c =? sep then [] :: split_chr sep t
      else match split_chr sep t with
           | h :: r => (c :: h) :: r
           | [] => [[c]]
           end
  end.

(** [s.split(/\s+/)]: the pieces between maximal runs of white space; a
    leading or trailing run leaves an empty first or last piece. *)
Fixpoint split_ws_from (in_sep : bool) (s : jsstring) : list jsstring :=
  match s with
  | [] => [[]]
  | c :: t =>
      if isSpace c then
        if in_sep then split_ws_from true t else [] :: split_ws_from true t
      else match split_ws_from false t with
           | h :: r => (c :: h) :: r
           | [] => [[c]]
           end
  end.

Definition split_ws (s : jsstring) : list jsstring := split_ws_from false s.

(** [s.startsWith(p)] *)
Fixpoint startsWith (p s : jsstring) : bool :=
  match p, s with
  | [], _ => true
  | a :: p', b :: s' => (a =? b) && startsWith p' s'
  | _ :: _, [] => false
  end.

(** [s.padStart(n, c)] for a one-character filler *)
Definition padStart (n : nat) (c : char) (s : jsstring) : jsstring :=
  repeat c (n - length s) ++ s.

(** Number-to-string conversion of an integer, as a template literal does
    it: decimal digits, with a leading [-] below zero. *)
Definition number_to_string (z : Z) : jsstring :=
  js (NilZero.string_of_int (Z.to_int z)).

(** ** Regular expressions *)

(** Members of a character class. *)
Inductive citem :=
| IChr (c : char)            (* a literal character, as [\.] *)
| IRange (lo hi : char)      (* [lo-hi] *)
| IDigit                     (* [\d] *)
| ISpace                     (* [\s] *)
| INotSpace                  (* [\S] *)
| IWord.                     (* [\w] *)

(** Atoms that consume exactly one character. *)
Inductive catom :=
| Chr (c : char)             (* a pattern character *)
| Dot                        (* [.] *)
| Cls (items : list citem).  (* [[...]], and [\d] [\s] [\w] standing alone *)

Inductive regex :=
| REmpty
| RAtom (a : catom)
| RQuant (a : catom) (min : nat) (max : option nat) (greedy : bool)
| RSeq (r1 r2 : regex)
| RAlt (r1 r2 : regex)
| RGroup (n : nat) (r : regex)        (* capturing group number [n] *)
| RLookahead (r : regex)              (* [(?=r)] *)
| RBol                                (* [^], no [m] flag *)
| REol.                               (* [$], no [m] flag *)

(** Canonicalize of the ECMAScript matcher under the [i] flag (no [u] flag).
    Every pattern of the program that carries [i] is made of ASCII
    characters, and Canonicalize never sends a code unit of 128 or more to
    one below 128, so only the ASCII part of the mapping can make two
    characters agree. *)
Definition canonicalize (ic : bool) (c : char) : char :=
  if ic then toAsciiUpper c else c.

Definition in_range (lo hi c : char) : bool := (lo <=? c) && (c <=? hi).

Definition citem_matches (ic : bool) (i : citem) (c : char) : bool :=
  match i with
  | IChr p => canonicalize ic p =? canonicalize ic c
  | IRange lo hi =>
      in_range lo hi c ||
      (ic && (in_range lo hi (toAsciiUpper c) || in_range lo hi (toAsciiLower c)))
  | IDigit => isDigit c
  | ISpace => isSpace c
  | INotSpace => negb (isSpace c)
  | IWord => isWordChar c
  end.

Definition atom_matches (ic : bool) (a : catom) (c : char) : bool :=
  match a with
  | Chr p => canonicalize ic p =? canonicalize ic c
  | Dot => negb (isLineTerminator c)
  | Cls items => existsb (fun i => citem_matches ic i c) items
  end.

(** Captures: the latest binding of a group number comes first. *)
Definition captures := list (nat * jsstring).

Fixpoint cap_get (n : nat) (caps : captures) : option jsstring :=
  match caps with
  | [] => None
  | (m, s) :: t => if Nat.eqb m n then Some s else cap_get n t
  end.

(** The matcher's state: the index reached, the input from there on, and
    the captures made so far. *)
Record mstate := MState { m_pos : nat; m_rest : jsstring; m_caps : captures }.

Definition continuation := mstate -> option mstate.

(** A quantified one-character atom, [a{min,max}] or [a{min,}], greedy. *)
Fixpoint greedy_loop (ic : bool) (a : catom) (min : nat) (max : option nat)
  (k : continuation) (pos : nat) (rest : jsstring) (caps : captures)
  : option mstate :=
  let stop := match min with
              | O => k (MState pos rest caps)
              | S _ => None
              end in
  match max with
  | Some O => stop
  | _ =>
      match rest with
      | c :: t =>
          if atom_matches ic a c then
            match greedy_loop ic a (pred min) (option_map pred max) k (S pos) t caps with
            | Some r => Some r
            | None => stop
            end
          else stop
      | [] => stop
      end
  end.

(** The same, lazy: the continuation is tried before another iteration. *)
Fixpoint lazy_loop (ic : bool) (a : catom) (min : nat) (max : option nat)
  (k : continuation) (pos : nat) (rest : jsstring) (caps : captures)
  : option mstate :=
  let more :=
    match max with
    | Some O => None
    | _ =>
        match rest with
        | c :: t =>
            if atom_matches ic a c
            then lazy_loop ic a (pred min) (option_map pred max) k (S pos) t caps
            else None
        | [] => None
        end
    end in
  match min with
  | O => match k (MState pos rest caps) with
         | Some r => Some r
         | None => more
         end
  | S _ => more
  end.

(** The backtracking matcher, in continuation-passing style as in the
    ECMAScript specification: alternatives are tried left to right, and a
    lookahead keeps the captures of its first match only. *)
Fixpoint rmatch (ic : bool) (r : regex) (k : continuation) (st : mstate)
  : option mstate :=
  match r with
  | REmpty => k st
  | RAtom a =>
      match m_rest st with
      | c :: t =>
          if atom_matches ic a c
          then k (MState (S (m_pos st)) t (m_caps st))
          else None
      | [] => None
      end
  | RQuant a min max true =>
      greedy_loop ic a min max k (m_pos st) (m_rest st) (m_caps st)
  | RQuant a min max false =>
      lazy_loop ic a min max k (m_pos st) (m_rest st) (m_caps st)
  | RSeq r1 r2 => rmatch ic r1 (rmatch ic r2 k) st
  | RAlt r1 r2 =>
      match rmatch ic r1 k st with
      | Some res => Some res
      | None => rmatch ic r2 k st
      end
  | RGroup n r1 =>
      rmatch ic r1
        (fun st' =>
           k (MState (m_pos st') (m_rest st')
                ((n, firstn (m_pos st' - m_pos st) (m_rest st)) :: m_caps st')))
        st
  | RLookahead r1 =>
      match rmatch ic r1 Some st with
      | Some st' => k (MState (m_pos st) (m_rest st) (m_caps st'))
      | None => None
      end
  | RBol => if Nat.eqb (m_pos st) 0 then k st else None
  | REol => match m_rest st with [] => k st | _ :: _ => None end
  end.

(** A regular expression object: pattern and flags. *)
Record RegExp := mkRegExp { source : regex; ignoreCase : bool }.

(** The result of a successful match: index, matched text, captures. *)
Record match_result :=
  MatchResult { index : nat; matched : jsstring; groups : captures }.

(** [m[n]] for [n >= 1]: [None] is [undefined]. *)
Definition group (m : match_result) (n : nat) : option jsstring :=
  cap_get n (groups m).

(** One attempt, at the position where [rest] begins. *)
Definition match_at (re : RegExp) (pos : nat) (rest : jsstring)
  : option match_result :=
  match rmatch (ignoreCase re) (source re) Some (MState pos rest []) with
  | Some st' => Some (MatchResult pos (firstn (m_pos st' - pos) rest) (m_caps st'))
  | None => None
  end.

Fixpoint search (re : RegExp) (pos : nat) (rest : jsstring)
  : option match_result :=
  match match_at re pos rest with
  | Some m => Some m
  | None =>
      match rest with
      | [] => None
      | _ :: t => search re (S pos) t
      end
  end.

(** [s.match(re)] for a regular expression without the [g] flag: the
    leftmost match, or [None] for [null]. *)
Definition String_match (s : jsstring) (re : RegExp) : option match_result :=
  search re 0 s.

(** The matches collected by [s.match(re)] under the [g] flag.  [skip]
    counts the characters still covered by the previous match; after an
    empty match the next attempt is one character further. *)
Fixpoint collect (re : RegExp) (pos : nat) (rest : jsstring) (skip : nat)
  : list jsstring :=
  match skip with
  | S skip' =>
      match rest with
      | [] => []
      | _ :: t => collect re (S pos) t skip'
      end
  | O =>
      match match_at re pos rest with
      | Some m =>
          matched m ::
          match rest with
          | [] => []
          | _ :: t => collect re (S pos) t (pred (length (matched m)))
          end
      | None =>
          match rest with
          | [] => []
          | _ :: t => collect re (S pos) t 0
          end
      end
  end.

(** [s.match(re)] for a regular expression with the [g] flag: the matched
    texts in order, or [None] for [null] when there is none. *)
Definition String_match_g (s : jsstring) (re : RegExp) : option (list jsstring) :=
  match collect re 0 s 0 with
  | [] => None
  | l => Some l
  end.

(** [s.replace(re, repl)] without the [g] flag, for a replacement text free
    of [$]: the leftmost match is replaced. *)
Definition String_replace (s : jsstring) (re : RegExp) (repl : jsstring) : jsstring :=
  match String_match s re with
  | Some m => firstn (index m) s ++ repl ++ skipn (index m + length (matched m)) s
  | None => s
  end.

(** Building blocks for writing the patterns of the source. *)
Definition seq (rs : list regex) : regex := fold_right RSeq REmpty rs.
Definition lit (s : jsstring) : regex := seq (map (fun c => RAtom (Chr c)) s).
Definition chr (a : ascii) : regex := RAtom (Chr (ch a)).
Definition star (a : catom) : regex := RQuant a 0 None true.
Definition plus (a : catom) : regex := RQuant a 1 None true.
Definition lazy_star (a : catom) : regex := RQuant a 0 None false.
Definition opt (a : catom) : regex := RQuant a 0 (Some 1%nat) true.
Definition times (n : nat) (a : catom) : regex := RQuant a n (Some n) true.
Definition digit : catom := Cls [IDigit].
Definition space : catom := Cls [ISpace].
Definition word : catom := Cls [IWord].
Definition dot_or_space : catom := Cls [IChr (ch "."); ISpace].   (* [[\.\s]] *)
Definition anything : catom := Cls [ISpace; INotSpace].           (* [[\s\S]] *)
Definition LF : char := 10.
Definition is_empty (s : jsstring) : bool :=
  match s with [] => true | _ :: _ => false end.

(** ** Completions: a JavaScript expression returns or throws *)

Inductive exn := TypeError.

Inductive completion (A : Type) :=
| Normal (a : A)
| Throw (e : exn).
Arguments Normal {A} a.
Arguments Throw {A} e.

Definition bind {A B} (c : completion A) (f : A -> completion B) : completion B :=
  match c with
  | Normal a => f a
  | Throw e => Throw e
  end.

Notation "x <- c ;; k" := (bind c (fun x => k))
  (at level 61, c at next level, right associativity).

(** [o.f()] where [o] may be [undefined]: calling a method of [undefined]
    throws a [TypeError]. *)
Definition method {B} (o : option jsstring) (f : jsstring -> B) : completion B :=
  match o with
  | Some s => Normal (f s)
  | None => Throw TypeError
  end.

Fixpoint mapM {A B} (f : A -> completion B) (l : list A) : completion (list B) :=
  match l with
  | [] => Normal []
  | a :: t => b <- f a ;; bs <- mapM f t ;; Normal (b :: bs)
  end.

(** A sequence of steps each of which may [return]: [Some a] is [return a],
    [None] falls through to the next step; [dflt] is the value returned after
    the last step. *)
Fixpoint first_return {A} (steps : list (completion (option A))) (dflt : A)
  : completion A :=
  match steps with
  | [] => Normal dflt
  | s :: t =>
      r <- s ;;
      match r with
      | Some a => Normal a
      | None => first_return t dflt
      end
  end.

(** ** The values a property lookup on an object literal can give *)

Inductive jsval :=
| VUndefined
| VString (s : jsstring)
| VFunction (name : jsstring)     (* a built-in function *)
| VObjectPrototype.               (* the object [Object.prototype] *)

Definition ToBoolean (v : jsval) : bool :=
  match v with
  | VUndefined => false
  | VString s => negb (is_empty s)
  | VFunction _ => true
  | VObjectPrototype => true
  end.

Definition ToString (v : jsval) : jsstring :=
  match v with
  | VUndefined => js "undefined"
  | VString s => s
  | VFunction name => js "function " ++ name ++ js "() { [native code] }"
  | VObjectPrototype => js "[object Object]"
  end.

(** A captured group inside a template literal. *)
Definition tpl (o : option jsstring) : jsstring :=
  match o with
  | Some s => s
  | None => js "undefined"
  end.

(** The properties an object literal inherits from [Object.prototype]. *)
Definition Object_prototype : list (jsstring * jsval) :=
  [ (js "constructor", VFunction (js "Object"));
    (js "__defineGetter__", VFunction (js "__defineGetter__"));
    (js "__defineSetter__", VFunction (js "__defineSetter__"));
    (js "hasOwnProperty", VFunction (js "hasOwnProperty"));
    (js "__lookupGetter__", VFunction (js "__lookupGetter__"));
    (js "__lookupSetter__", VFunction (js "__lookupSetter__"));
    (js "isPrototypeOf", VFunction (js "isPrototypeOf"));
    (js "propertyIsEnumerable", VFunction (js "propertyIsEnumerable"));
    (js "toString", VFunction (js "toString"));
    (js "valueOf", VFunction (js "valueOf"));
    (js "__proto__", VObjectPrototype);
    (js "toLocaleString", VFunction (js "toLocaleString")) ].

Fixpoint assoc {V} (key : jsstring) (l : list (jsstring * V)) : option V :=
  match l with
  | [] => None
  | (k, v) :: t => if jsstring_eqb k key then Some v else assoc key t
  end.

(** [obj[key]] for an object literal [obj] with string-valued own
    properties: own properties first, then the prototype. *)
Definition get_property (obj : list (jsstring * jsstring)) (key : jsstring) : jsval :=
  match assoc key obj with
  | Some s => VString s
  | None =>
      match assoc key Object_prototype with
      | Some v => v
      | None => VUndefined
      end
  end.

(** ** The date normalizer *)

Definition monthMap : list (jsstring * jsstring) :=
  [ (js "january", js "01"); (js "february", js "02"); (js "march", js "03");
    (js "april", js "04"); (js "may", js "05"); (js "june", js "06");
    (js "july", js "07"); (js "august", js "08"); (js "september", js "09");
    (js "october", js "10"); (js "november", js "11"); (js "december", js "12") ].

(** [(?:st|nd|rd|th)] *)
Definition ordinal : regex :=
  RAlt (lit (js "st")) (RAlt (lit (js "nd")) (RAlt (lit (js "rd")) (lit (js "th")))).

(** [/(\d+)(?:st|nd|rd|th)\s+(\w+)\s+(\d{4})/i] *)
Definition ggRegex : RegExp :=
  mkRegExp (seq [RGroup 1 (plus digit); ordinal; plus space;
                 RGroup 2 (plus word); plus space; RGroup 3 (times 4 digit)]) true.

(** [/(\d+)(?:st|nd|rd|th)\s+(\w+)\s+each year/i] *)
Definition recurringRegex : RegExp :=
  mkRegExp (seq [RGroup 1 (plus digit); ordinal; plus space;
                 RGroup 2 (plus word); plus space; lit (js "each year")]) true.

(** [/^(\d{4})\/(\d{2})\/(\d{2})$/] *)
Definition jpRegex : RegExp :=
  mkRegExp (seq [RBol; RGroup 1 (times 4 digit); chr "/";
                 RGroup 2 (times 2 digit); chr "/";
                 RGroup 3 (times 2 digit); REol]) false.

(** [/^(\d{4})\.\s*(\d{2})\.\s*(\d{2})\.?$/] *)
Definition krRegex : RegExp :=
  mkRegExp (seq [RBol; RGroup 1 (times 4 digit); chr "."; star space;
                 RGroup 2 (times 2 digit); chr "."; star space;
                 RGroup 3 (times 2 digit); opt (Chr (ch ".")); REol]) false.

Definition T00 : jsstring := js "T00:00:00Z".
Definition dash : jsstring := js "-".

(** The two branches on a month name: [year] is the text that opens the
    result, [m] the match whose groups 1 and 2 are the day and the month. *)
Definition month_rule (year : jsstring) (m : match_result)
  : completion (option (option jsstring)) :=
  let day := group m 1 in
  let month := group m 2 in
  key <- method month toLowerCase ;;
  let monthNum := get_property monthMap key in
  if ToBoolean monthNum then
    d <- method day (padStart 2 (ch "0")) ;;
    Normal (Some (Some (year ++ dash ++ ToString monthNum ++ dash ++ d ++ T00)))
  else Normal None.

(** [now] is the calendar year that [new Date().getFullYear()] reads while
    the call runs. *)
Definition normalizeDateString (now : Z) (dateStr : jsstring)
  : completion (option jsstring) :=
  if is_empty dateStr then Normal None else
  first_return
    [ (* "30th April 2003" *)
      match String_match dateStr ggRegex with
      | Some ggMatch => month_rule (tpl (group ggMatch 3)) ggMatch
      | None => Normal None
      end;
      (* "30th April each year" *)
      match String_match dateStr recurringRegex with
      | Some recurringMatch =>
          let nextYear := (now + 1)%Z in
          month_rule (number_to_string nextYear) recurringMatch
      | None => Normal None
      end;
      (* "2005/05/30" *)
      match String_match dateStr jpRegex with
      | Some jpMatch =>
          let year := group jpMatch 1 in
          let month := group jpMatch 2 in
          let day := group jpMatch 3 in
          Normal (Some (Some (tpl year ++ dash ++ tpl month ++ dash ++ tpl day ++ T00)))
      | None => Normal None
      end;
      (* "2007. 03. 02." *)
      match String_match dateStr krRegex with
      | Some krMatch =>
          let year := group krMatch 1 in
          let month := group krMatch 2 in
          let day := group krMatch 3 in
          Normal (Some (Some (tpl year ++ dash ++ tpl month ++ dash ++ tpl day ++ T00)))
      | None => Normal None
      end ]
    (Some dateStr).

(** ** Field extraction *)

(** The record [parseWhoisData] returns; [None] is [null]. *)
Record DomainRecord := mkDomainRecord {
  domainName : option jsstring;
  registrar : option jsstring;
  creationDate : option jsstring;
  expirationDate : option jsstring;
  nameservers : option (list jsstring);
  registrant : option jsstring;
  status : option (list jsstring);
  dnssec : option jsstring;
  lastModified : option jsstring
}.

Section Parser.

(** The raw response, the calendar year of the call, and the fallback
    domain ([None] is [null], the default). *)
Variable whoisText : jsstring.
Variable now : Z.
Variable domainName : option jsstring.

(** [new RegExp(`${f}[\\.\\s]*:\\s*(.+)`, 'i')].  The labels the program
    passes are letters and blanks only, so [f] stands for itself. *)
Definition colonFieldRegex (f : jsstring) : RegExp :=
  mkRegExp (RSeq (lit f)
              (seq [star dot_or_space; chr ":"; star space; RGroup 1 (plus Dot)]))
           true.

(** [new RegExp(`\\[${f}\\]\\s+(.+)`, 'i')], for a label of letters and
    blanks as above. *)
Definition bracketFieldRegex (f : jsstring) : RegExp :=
  mkRegExp (RSeq (chr "[") (RSeq (lit f)
              (seq [chr "]"; plus space; RGroup 1 (plus Dot)])))
           true.

Definition parseField (field : jsstring) (alternativeFields : list jsstring)
  : completion (option jsstring) :=
  let fields := field :: alternativeFields in
  first_return
    (flat_map
       (fun f =>
          [ match String_match whoisText (colonFieldRegex f) with
            | Some colonMatch =>
                v <- method (group colonMatch 1) trim ;; Normal (Some (Some v))
            | None => Normal None
            end;
            match String_match whoisText (bracketFieldRegex f) with
            | Some bracketMatch =>
                v <- method (group bracketMatch 1) trim ;; Normal (Some (Some v))
            | None => Normal None
            end ])
       fields)
    None.

(** [new RegExp(`${field}:\\s*(.+)`, 'ig')].  The labels passed are
    [Domain Status], [Status] and [state]: letters and blanks, which stand
    for themselves. *)
Definition multiFieldRegex (field : jsstring) : RegExp :=
  mkRegExp (RSeq (lit field) (seq [chr ":"; star space; RGroup 1 (plus Dot)])) true.

(** [match.split(':')[1]]: element 1 of the split, [undefined] if there is
    none. *)
Definition after_colon (m : jsstring) : option jsstring :=
  nth_error (split_chr (ch ":") m) 1.

Definition parseMultipleFields (field : jsstring) : completion (list jsstring) :=
  match String_match_g whoisText (multiFieldRegex field) with
  | Some matches => mapM (fun m => method (after_colon m) trim) matches
  | None => Normal []
  end.

(** [s.split(/\s+/)[0]]: the split is never empty, its element 0 is a
    string. *)
Definition first_word (s : jsstring) : jsstring := hd [] (split_ws s).

(** [/Name servers:\s*([\s\S]*?)(?=\n\n|WHOIS lookup)/i] and
    [/Nameservers\s*\n([\s\S]*?)(?=\n\n|\n[A-Z])/i] *)
Definition multilinePatterns : list RegExp :=
  [ mkRegExp (seq [lit (js "Name servers:"); star space;
                   RGroup 1 (lazy_star anything);
                   RLookahead (RAlt (lit [LF; LF]) (lit (js "WHOIS lookup")))]) true;
    mkRegExp (seq [lit (js "Nameservers"); star space; RAtom (Chr LF);
                   RGroup 1 (lazy_star anything);
                   RLookahead (RAlt (lit [LF; LF])
                                 (seq [RAtom (Chr LF);
                                       RAtom (Cls [IRange (ch "A") (ch "Z")])]))]) true ].

Definition colonPatterns : list jsstring :=
  [ js "nserver"; js "Nserver"; js "Name Server"; js "nameservers";
    js "nameserver"; js "Host Name" ].

(** [new RegExp(`${field}\\s*:\\s*(.+)`, 'ig')] *)
Definition nsColonRegex (field : jsstring) : RegExp :=
  mkRegExp (RSeq (lit field)
              (seq [star space; chr ":"; star space; RGroup 1 (plus Dot)])) true.

(** [/\.$/] *)
Definition trailingDot : RegExp := mkRegExp (seq [chr "."; REol]) false.

(** [/\[Name Server\]/i], and the same followed by [\s+(.+)] *)
Definition nsLabel : RegExp := mkRegExp (lit (js "[Name Server]")) true.
Definition nsBracketRegex : RegExp :=
  mkRegExp (seq [lit (js "[Name Server]"); plus space; RGroup 1 (plus Dot)]) true.

Definition parseNameservers : completion (option (list jsstring)) :=
  first_return
    ((* multi-line formats first *)
     map (fun pattern =>
            match String_match whoisText pattern with
            | Some m =>
                lines <- method (group m 1) (split_chr LF) ;;
                let servers :=
                  map first_word
                    (filter (fun line => negb (is_empty line) &&
                                         negb (startsWith (js "WHOIS") line))
                       (map trim lines)) in
                if (0 <? length servers)%nat then Normal (Some (Some servers))
                else Normal None
            | None => Normal None
            end)
         multilinePatterns
     ++
     (* single-line colon-separated formats *)
     map (fun field =>
            match String_match_g whoisText (nsColonRegex field) with
            | Some matches =>
                if (0 <? length matches)%nat then
                  servers <-
                    mapM (fun m =>
                            value <- method (after_colon m) trim ;;
                            Normal (String_replace (first_word value) trailingDot []))
                      matches ;;
                  Normal (Some (Some servers))
                else Normal None
            | None => Normal None
            end)
         colonPatterns
     ++
     (* square bracket format *)
     [ match String_match_g whoisText nsBracketRegex with
       | Some jpMatches =>
           if (0 <? length jpMatches)%nat then
             Normal (Some (Some
               (map (fun m =>
                       let value := trim (String_replace m nsLabel []) in
                       first_word value)
                  jpMatches)))
           else Normal None
       | None => Normal None
       end ])
    None.

(** [/Domain Status:\s*([\s\S]*?)(?=\n\n|Registrant:)/i] *)
Definition statusSectionRegex : RegExp :=
  mkRegExp (seq [lit (js "Domain Status:"); star space;
                 RGroup 1 (lazy_star anything);
                 RLookahead (RAlt (lit [LF; LF]) (lit (js "Registrant:")))]) true.

(** [a || b] on arrays: an array, the empty one too, is truthy, so that the
    right operand is evaluated only for a left operand that is not one. *)
Definition array_truthy {A} (l : list A) : bool := true.

Definition or_array {A} (a : completion (list A)) (b : completion (list A))
  : completion (list A) :=
  x <- a ;; if array_truthy x then Normal x else b.

Definition parseStatus : completion (option (list jsstring)) :=
  first_return
    [ (* multi-line status format *)
      match String_match whoisText statusSectionRegex with
      | Some statusSection =>
          lines <- method (group statusSection 1) (split_chr LF) ;;
          let statuses :=
            filter (fun line => negb (is_empty line)) (map trim lines) in
          if (0 <? length statuses)%nat then Normal (Some (Some statuses))
          else Normal None
      | None => Normal None
      end;
      (* single-line formats *)
      singleLineMatch <-
        or_array (parseMultipleFields (js "Domain Status"))
          (or_array (parseMultipleFields (js "Status"))
             (parseMultipleFields (js "state"))) ;;
      if array_truthy singleLineMatch && (0 <? length singleLineMatch)%nat
      then Normal (Some (Some singleLineMatch))
      else Normal None ]
    None.

(** [label\s*(.+)] after a prefix, the shape of most date patterns. *)
Definition rest_of_line (label : regex) (sep : regex) : regex :=
  RSeq label (RSeq sep (RGroup 1 (plus Dot))).

(** The labels in Japanese: registration date, expiry date. *)
Definition label_registered : jsstring := [0x767B; 0x9332; 0x5E74; 0x6708; 0x65E5].
Definition label_expires : jsstring := [0x6709; 0x52B9; 0x671F; 0x9650].

Definition creationPatterns : list RegExp :=
  [ (* /Registered on (\d+(?:st|nd|rd|th) \w+ \d{4})/i *)
    mkRegExp (RSeq (lit (js "Registered on "))
                (RGroup 1 (seq [plus digit; ordinal; chr " "; plus word;
                                chr " "; times 4 digit]))) true;
    (* /created:\s*(.+)/i *)
    mkRegExp (rest_of_line (lit (js "created:")) (star space)) true;
    (* /Created:\s*(.+)/i *)
    mkRegExp (rest_of_line (lit (js "Created:")) (star space)) true;
    (* /Creation Date:\s*(.+)/i *)
    mkRegExp (rest_of_line (lit (js "Creation Date:")) (star space)) true;
    (* /Created On:\s*(.+)/i *)
    mkRegExp (rest_of_line (lit (js "Created On:")) (star space)) true;
    (* /Registered Date\s*:\s*(.+)/i *)
    mkRegExp (rest_of_line (seq [lit (js "Registered Date"); star space; chr ":"])
                (star space)) true;
    (* /\[...\]\s+(.+)/ with the Japanese label *)
    mkRegExp (rest_of_line (seq [chr "["; lit label_registered; chr "]"])
                (plus space)) false ].

Definition expiryPatterns : list RegExp :=
  [ (* /Registry fee due on (\d+(?:st|nd|rd|th) \w+ each year)/i *)
    mkRegExp (RSeq (lit (js "Registry fee due on "))
                (RGroup 1 (seq [plus digit; ordinal; chr " "; plus word;
                                lit (js " each year")]))) true;
    (* /paid-till:\s*(.+)/i *)
    mkRegExp (rest_of_line (lit (js "paid-till:")) (star space)) true;
    (* /Expire Date:\s*(.+)/i *)
    mkRegExp (rest_of_line (lit (js "Expire Date:")) (star space)) true;
    (* /Registry Expiry Date:\s*(.+)/i *)
    mkRegExp (rest_of_line (lit (js "Registry Expiry Date:")) (star space)) true;
    (* /Expiration Date\s*:\s*(.+)/i *)
    mkRegExp (rest_of_line (seq [lit (js "Expiration Date"); star space; chr ":"])
                (star space)) true;
    (* /renewal date:\s*(.+)/i *)
    mkRegExp (rest_of_line (lit (js "renewal date:")) (star space)) true;
    (* /Expires On:\s*(.+)/i *)
    mkRegExp (rest_of_line (lit (js "Expires On:")) (star space)) true;
    (* /\[...\]\s+(.+)/ with the Japanese label *)
    mkRegExp (rest_of_line (seq [chr "["; lit label_expires; chr "]"])
                (plus space)) false ].

(** The loop shared by [parseCreationDate] and [parseExpiryDate]: the first
    pattern that matches decides, also when the normalizer gives [null]. *)
Definition parseDate (patterns : list RegExp) : completion (option jsstring) :=
  first_return
    (map (fun pattern =>
            match String_match whoisText pattern with
            | Some m =>
                rawDate <- method (group m 1) trim ;;
                d <- normalizeDateString now rawDate ;;
                Normal (Some d)
            | None => Normal None
            end)
       patterns)
    None.

Definition parseCreationDate : completion (option jsstring) :=
  parseDate creationPatterns.

Definition parseExpiryDate : completion (option jsstring) :=
  parseDate expiryPatterns.


(** [a || b] on a string or [null]: [null] and the empty string are
    falsy. *)
Definition or_string (a b : option jsstring) : option jsstring :=
  match a with
  | Some s => if is_empty s then b else a
  | None => b
  end.

Definition parseWhoisData : completion DomainRecord :=
  parsedDomain <- parseField (js "Domain")
                    [js "Domain Name"; js "domain name"; js "domain"] ;;
  registrar <- parseField (js "Registrar") [js "REGISTRAR"; js "registrar"] ;;
  creationDate <- parseCreationDate ;;
  expirationDate <- parseExpiryDate ;;
  nameservers <- parseNameservers ;;
  registrant <- parseField (js "Registrant")
                  [js "registrant name"; js "org"; js "Organization"] ;;
  status <- parseStatus ;;
  dnssec <- parseField (js "DNSSEC") [js "Signed"; js "dnssec"] ;;
  lastModified <- parseField (js "Last Modified")
                    [js "last modified"; js "Last Update"; js "Changed"; js "changed"] ;;
  Normal (mkDomainRecord (or_string parsedDomain domainName) registrar
            creationDate expirationDate nameservers registrant status dnssec
            lastModified).

End Parser.

(** ** What a successful run of the matcher means

    [Matches ic r st w st'] says that [r] can consume the text [w] from
    state [st] and leave state [st'].  It forgets the order in which the
    backtracking matcher tries the alternatives. *)

Inductive Matches (ic : bool) : regex -> mstate -> jsstring -> mstate -> Prop :=
| M_Empty st : Matches ic REmpty st [] st
| M_Atom a c t pos caps :
    atom_matches ic a c = true ->
    Matches ic (RAtom a) (MState pos (c :: t) caps) [c] (MState (S pos) t caps)
| M_Quant a min max g w t pos caps :
    Forall (fun c => atom_matches ic a c = true) w ->
    (min <= length w)%nat ->
    (forall mx, max = Some mx -> (length w <= mx)%nat) ->
    Matches ic (RQuant a min max g)
      (MState pos (w ++ t) caps) w (MState (pos + length w) t caps)
| M_Seq r1 r2 st w1 st1 w2 st2 :
    Matches ic r1 st w1 st1 ->
    Matches ic r2 st1 w2 st2 ->
    Matches ic (RSeq r1 r2) st (w1 ++ w2) st2
| M_AltL r1 r2 st w st' :
    Matches ic r1 st w st' -> Matches ic (RAlt r1 r2) st w st'
| M_AltR r1 r2 st w st' :
    Matches ic r2 st w st' -> Matches ic (RAlt r1 r2) st w st'
| M_Group n r st w st' :
    Matches ic r st w st' ->
    Matches ic (RGroup n r) st w
      (MState (m_pos st') (m_rest st') ((n, w) :: m_caps st'))
| M_Look r st w st' :
    Matches ic r st w st' ->
    Matches ic (RLookahead r) st []
      (MState (m_pos st) (m_rest st) (m_caps st'))
| M_Bol st : m_pos st = 0%nat -> Matches ic RBol st [] st
| M_Eol st : m_rest st = [] -> Matches ic REol st [] st.

(** Group [n] is bound on every path through [r]. *)
Fixpoint always_captures (n : nat) (r : regex) : bool :=
  match r with
  | RGroup m r1 => Nat.eqb m n || always_captures n r1
  | RSeq r1 r2 => always_captures n r1 || always_captures n r2
  | RAlt r1 r2 => always_captures n r1 && always_captures n r2
  | RLookahead r1 => always_captures n r1
  | _ => false
  end.

(** A string that [trim] leaves alone. *)
Definition trimmed (s : jsstring) : Prop := trim s = s.

(** Both ends of the string are free of white space. *)
Definition clean (s : jsstring) : Prop :=
  trimStart s = s /\ trimStart (rev s) = rev s.

(** ASCII letters. *)
Definition isLetter (c : char) : bool := isUpperAZ c || isLowerAZ c.

(** The atom cannot take the next character of [t], if there is one. *)
Definition head_fails (ic : bool) (a : catom) (t : jsstring) : Prop :=
  match t with
  | [] => True
  | c :: _ => atom_matches ic a c = false
  end.

(** No capturing group occurs in the pattern. *)
Fixpoint groupless (r : regex) : bool :=
  match r with
  | RGroup _ _ => false
  | RSeq r1 r2 | RAlt r1 r2 => groupless r1 && groupless r2
  | RLookahead r1 => groupless r1
  | _ => true
  end.

(** ** Vocabulary of the statements *)

Definition digits (s : jsstring) : Prop := Forall (fun c => isDigit c = true) s.
Definition spaces (s : jsstring) : Prop := Forall (fun c => isSpace c = true) s.

(** [st], [nd], [rd] or [th] *)
Definition ordinal_suffix (ord : jsstring) : Prop :=
  In ord [js "st"; js "nd"; js "rd"; js "th"].

(** [month], in whatever case, is an English month name, and [mm] its
    number in the table. *)
Definition month_number (month mm : jsstring) : Prop :=
  In (toLowerCase month, mm) monthMap.

(** [YYYY-MM-DDT00:00:00Z] *)
Definition canonical (year mm dd : jsstring) : jsstring :=
  year ++ dash ++ mm ++ dash ++ dd ++ T00.

(** The word captured as the month is no property of the month table,
    neither its own nor an inherited one. *)
Definition month_unknown (m : match_result) : Prop :=
  exists w, group m 2 = Some w /\
            get_property monthMap (toLowerCase w) = VUndefined.

(** No rule of the normalizer applies to [s]: the two digit patterns do not
    match, and where a month pattern matches its word is unknown. *)
Definition no_rule_applies (s : jsstring) : Prop :=
  (forall m, String_match s ggRegex = Some m -> month_unknown m) /\
  (forall m, String_match s recurringRegex = Some m -> month_unknown m) /\
  String_match s jpRegex = None /\
  String_match s krRegex = None.

(** [w] spells the pattern text [p], character by character, as the
    matcher compares them. *)
Definition spelled (ic : bool) (p w : jsstring) : Prop :=
  Forall2 (fun pc c => atom_matches ic (Chr pc) c = true) p w.

(** The text [p] occurs in [s], in whatever case. *)
Definition occurs (p s : jsstring) : Prop :=
  exists a w b, s = a ++ w ++ b /\ spelled true p w.

(** [s.match(new RegExp(p, 'i')) !== null] for a text [p] of letters,
    blanks and colons. *)
Definition mentions (p s : jsstring) : bool :=
  match String_match s (mkRegExp (lit p) true) with
  | Some _ => true
  | None => false
  end.

(** [v] is a piece of [s]. *)
Definition infix (v s : jsstring) : Prop := exists a b, s = a ++ v ++ b.

(** ** Vocabulary of the further properties *)

(** No white space at all, and no line terminator. *)
Definition no_space (s : jsstring) : Prop :=
  Forall (fun c => isSpace c = false) s.
Definition single_line (s : jsstring) : Prop :=
  Forall (fun c => isLineTerminator c = false) s.

(** Every capturing group numbered [n] in the pattern is a quantified
    [.], as [(.+)] is. *)
Fixpoint dot_group (n : nat) (r : regex) : bool :=
  match r with
  | RGroup m r1 =>
      if Nat.eqb m n
      then match r1 with RQuant Dot _ _ _ => true | _ => false end
      else dot_group n r1
  | RSeq r1 r2 | RAlt r1 r2 => dot_group n r1 && dot_group n r2
  | RLookahead r1 => dot_group n r1
  | _ => true
  end.

(** Two labels that differ in the case of their letters only. *)
Definition same_ci (f g : jsstring) : Prop :=
  map toAsciiUpper f = map toAsciiUpper g.


(** No character of the label stands for a line feed. *)
Definition on_one_line (label : jsstring) : Prop :=
  Forall (fun p => atom_matches true (Chr p) LF = false) label.
(** One line of name server data: the blanks before the host name, the
    name, whether a dot closes it, and what follows it on the line (an
    address, for one). *)
Record ns_line := NsLine {
  nl_gap : jsstring;
  nl_name : jsstring;
  nl_dot : bool;
  nl_tail : jsstring
}.

Definition nl_host (l : ns_line) : jsstring :=
  nl_name l ++ (if nl_dot l then [ch "."] else []).

(** The line without its line feed, behind [label:] or behind a bracketed
    label. *)
Definition colon_line (label : jsstring) (l : ns_line) : jsstring :=
  label ++ ch ":" :: nl_gap l ++ nl_host l ++ nl_tail l.
Definition bracket_line (label : jsstring) (l : ns_line) : jsstring :=
  label ++ nl_gap l ++ nl_host l ++ nl_tail l.

(** The name is one token without a colon; the tail, if any, starts with a
    blank, and stays on the line. *)
Definition ns_line_ok (l : ns_line) : Prop :=
  spaces (nl_gap l) /\
  nl_name l <> [] /\ no_space (nl_name l) /\ ~ In (ch ":") (nl_name l) /\
  (nl_dot l = false -> forall h, nl_name l <> h ++ [ch "."]) /\
  (nl_tail l = [] \/ exists c t, nl_tail l = c :: t /\ isSpace c = true) /\
  single_line (nl_tail l) /\ ~ In (ch ":") (nl_tail l).

(** Lines, each closed by a line feed. *)
Definition lines_text (bodies : list jsstring) : jsstring :=
  concat (map (fun b => b ++ [LF]) bodies).

(** Empty, or closed by a line feed. *)
Definition whole_lines (s : jsstring) : Prop :=
  s = [] \/ exists s', s = s' ++ [LF].


(** The pattern cannot match without spelling the text [p]: [p] stands
    literally in it, outside every alternative, quantifier and
    lookahead. *)
Inductive requires (p : jsstring) : regex -> Prop :=
| req_lit : requires p (lit p)
| req_chr c : p = [c] -> requires p (RAtom (Chr c))
| req_seq_l r1 r2 : requires p r1 -> requires p (RSeq r1 r2)
| req_seq_r r1 r2 : requires p r2 -> requires p (RSeq r1 r2)
| req_group n r : requires p r -> requires p (RGroup n r).

(** A label of ASCII letters and blanks, as every label that
    [parseWhoisData] passes: none of its characters has a meaning of its
    own in the source of a pattern, so in [new RegExp] the label stands for
    itself, which is how [colonFieldRegex], [bracketFieldRegex] and
    [multiFieldRegex] spell it. *)
Definition plain_label (f : jsstring) : Prop :=
  Forall (fun c => isLetter c = true \/ c = ch " ") f.

(** The label [g], in whatever case, then dots or white space if any,
    then a colon, stands somewhere in [s]:
    [s.match(new RegExp(g + '[\\.\\s]*:', 'i')) !== null] for a label of
    letters and blanks. *)
Definition before_colon (g s : jsstring) : bool :=
  match String_match s
          (mkRegExp (RSeq (lit g) (seq [star dot_or_space; chr ":"])) true)
  with
  | Some _ => true
  | None => false
  end.

(** Dots and white space, the filler between a label and its colon. *)
Definition dots_or_spaces (s : jsstring) : Prop :=
  Forall (fun c => c = ch "." \/ isSpace c = true) s.

(** The end of the text or a line terminator comes next. *)
Definition line_ends (rest : jsstring) : Prop :=
  rest = [] \/ exists c t, rest = c :: t /\ isLineTerminator c = true.

(** The first character is not white space. *)
Definition starts_with_ink (s : jsstring) : Prop :=
  exists c t, s = c :: t /\ isSpace c = false.

(** [lines.join('\n')] *)
Fixpoint join_lines (lines : list jsstring) : jsstring :=
  match lines with
  | [] => []
  | [l] => l
  | l :: rest => l ++ LF :: join_lines rest
  end.

(** A line [label: value], given as the blanks after the colon and the
    value. *)
Definition value_line (label : jsstring) (l : jsstring * jsstring) : jsstring :=
  label ++ ch ":" :: fst l ++ snd l.

(** ** The query over the network *)

(** What the socket can emit: [connect], [data] with the text of the
    chunk ([chunk.toString()]), [end], [error] with [err.message], and the
    idle [timeout]. *)
Inductive socket_event :=
| Connect
| Data (chunk : jsstring)
| End
| SocketError (message : jsstring)
| Timeout.

(** What the function does to the outside: the calls on [net], on the
    socket and on the console, in order. *)
Inductive action :=
| CreateConnection (port : N) (host : jsstring)
| SetTimeout
| Log (line : jsstring)
| LogError (line message : jsstring)
| Write (text : jsstring)
| Destroy.

(** A promise is pending, fulfilled with a value or rejected with an
    error of the given message. *)
Inductive promise_state :=
| Pending
| Resolved (value : jsstring)
| Rejected (message : jsstring).

(** [resolve] and [reject] settle a pending promise and do nothing to a
    settled one. *)
Definition settle (p outcome : promise_state) : promise_state :=
  match p with
  | Pending => outcome
  | _ => p
  end.

Definition CRLF : jsstring := [13; 10].

(** The argument [timeout], by what [socket.setTimeout(timeout, listener)]
    makes of it.  A value that is not a number, a negative number, [NaN]
    and an infinity are refused: the call throws an error, whose message
    is the socket library's.  The number 0 switches the idle timer off, and
    the listener is not registered.  Any other number arms the timer and
    registers the listener for one [timeout] event; [seconds] is then the
    text of [timeout / 1000] in the message of the timeout, [30] for the
    default. *)
Inductive timeout_arg :=
| TimeoutRefused (message : jsstring)
| TimeoutOff
| TimeoutAfter (seconds : jsstring).

(** [setTimeout] returns for this argument. *)
Definition accepted (timeout : timeout_arg) : bool :=
  match timeout with
  | TimeoutRefused _ => false
  | _ => true
  end.

(** The variable [data], the promise, the one-time listener that
    [setTimeout] registers, and the actions so far. *)
Record query := mkQuery {
  data : jsstring;
  promise : promise_state;
  timeout_listener : bool;
  actions : list action
}.

Section WhoisQuery.

Variable domain : jsstring.
Variable server : jsstring.
Variable timeout : timeout_arg.

(** The executor of the promise, run when the promise is made: it opens
    the connection, registers the four handlers and calls [setTimeout]
    last.  If that call throws, the executor ends there and the promise is
    rejected with the error thrown, before any event; the handlers stay
    registered. *)
Definition start : query :=
  let calls := [CreateConnection 43 server; SetTimeout] in
  match timeout with
  | TimeoutRefused message => mkQuery [] (Rejected message) false calls
  | TimeoutOff => mkQuery [] Pending false calls
  | TimeoutAfter _ => mkQuery [] Pending true calls
  end.

Definition on_connect (q : query) : query :=
  mkQuery (data q) (promise q) (timeout_listener q)
    (actions q ++
     [Log (js "Connected to WHOIS server " ++ server ++ js " for domain " ++ domain);
      Write (domain ++ CRLF)]).

Definition on_data (chunk : jsstring) (q : query) : query :=
  mkQuery (data q ++ chunk) (promise q) (timeout_listener q) (actions q).

Definition on_end (q : query) : query :=
  if is_empty (data q) || Nat.eqb (length (trim (data q))) 0
  then mkQuery (data q)
         (settle (promise q)
            (Rejected (js "WHOIS server " ++ server ++ js " returned no data")))
         (timeout_listener q) (actions q)
  else mkQuery (data q) (settle (promise q) (Resolved (data q)))
         (timeout_listener q) (actions q).

Definition on_error (message : jsstring) (q : query) : query :=
  mkQuery (data q)
    (settle (promise q)
       (Rejected (js "WHOIS server " ++ server ++ js " error: " ++ message)))
    (timeout_listener q)
    (actions q ++
     [LogError (js "WHOIS server error for " ++ server ++ js ":") message]).

(** The listener given to [setTimeout], if it is registered. *)
Definition on_timeout (q : query) : query :=
  match timeout, timeout_listener q with
  | TimeoutAfter seconds, true =>
      mkQuery (data q)
        (settle (promise q)
           (Rejected (js "WHOIS server " ++ server ++ js " timed out after " ++
                      seconds ++ js " seconds")))
        false
        (actions q ++ [Destroy])
  | _, _ => q
  end.

Definition handle (q : query) (e : socket_event) : query :=
  match e with
  | Connect => on_connect q
  | Data chunk => on_data chunk q
  | End => on_end q
  | SocketError message => on_error message q
  | Timeout => on_timeout q
  end.

(** The promise and the actions of [whoisQuery(domain, server, timeout)]
    after the socket has emitted [events]. *)
Definition whoisQuery (events : list socket_event) : query :=
  fold_left handle events start.

End WhoisQuery.

(** The text of the chunks among the events, in order. *)
Fixpoint received (events : list socket_event) : jsstring :=
  match events with
  | [] => []
  | Data chunk :: rest => chunk ++ received rest
  | _ :: rest => received rest
  end.

(** Only [connect] and [data]: nothing that closes the exchange. *)
Definition is_open (e : socket_event) : bool :=
  match e with
  | Connect | Data _ => true
  | _ => false
  end.

Definition connects (events : list socket_event) : nat :=
  length (filter (fun e => match e with Connect => true | _ => false end) events).

Definition writes (l : list action) : list jsstring :=
  flat_map (fun a => match a with Write text => [text] | _ => [] end) l.

(** ** Vocabulary of the date properties *)

(** A digit, two letters and white space in a row, as in every ordinal
    followed by a blank. *)
Fixpoint ordinal_like (s : jsstring) : bool :=
  match s with
  | a :: t =>
      match t with
      | b :: c :: d :: _ => isDigit a && isLetter b && isLetter c && isSpace d
      | _ => false
      end || ordinal_like t
  | [] => false
  end.

(** Neither a slash nor a full stop. *)
Definition no_slash_no_stop (s : jsstring) : bool :=
  forallb (fun c => negb (c =? ch "/") && negb (c =? ch ".")) s.

(** The texts that can stand for the month in a result: the numbers of the
    month table, and the texts of the values an object literal inherits. *)
Definition month_texts : list jsstring :=
  map snd monthMap ++ map (fun p => ToString (snd p)) Object_prototype.

(** What such a text must not do between the two dashes of a result. *)
Definition middle_ok (x : jsstring) : bool :=
  negb (ordinal_like (ch "-" :: x)) && no_slash_no_stop x.
(* ------------------------------------------------------------------ *)
(** * Properties *)

(** ** Characters *)

Ltac cmp_cases :=
  intros;
  repeat match goal with
         | H : context [N.eqb ?a ?b] |- _ =>
             destruct (N.eqb_spec a b); cbn [andb orb negb] in H;
             try discriminate H; try lia
         | H : context [N.leb ?a ?b] |- _ =>
             destruct (N.leb_spec a b); cbn [andb orb negb] in H;
             try discriminate H; try lia
         | |- context [N.eqb ?a ?b] =>
             destruct (N.eqb_spec a b); cbn [andb orb negb];
             try reflexivity; try lia
         | |- context [N.leb ?a ?b] =>
             destruct (N.leb_spec a b); cbn [andb orb negb];
             try reflexivity; try lia
         end;
  try reflexivity; try discriminate; try lia.

Lemma digit_not_space c : isDigit c = true -> isSpace c = false.
Proof.
  unfold isDigit, isSpace, isWhiteSpace, isLineTerminator. cmp_cases.
Qed.

Lemma digit_not_letter c : isDigit c = true -> isLetter c = false.
Proof.
  unfold isDigit, isLetter, isUpperAZ, isLowerAZ. cmp_cases.
Qed.


Lemma letter_not_space c : isLetter c = true -> isSpace c = false.
Proof.
  unfold isLetter, isUpperAZ, isLowerAZ, isSpace, isWhiteSpace, isLineTerminator.
  cmp_cases.
Qed.

Lemma letter_is_word c : isLetter c = true -> isWordChar c = true.
Proof.
  unfold isLetter, isWordChar. intros H.
  destruct (isUpperAZ c), (isLowerAZ c), (isDigit c); simpl in *; congruence.
Qed.

(** ** The matcher *)

Lemma firstn_consumed (p : nat) (w t : jsstring) :
  firstn (p + length w - p) (w ++ t) = w.
Proof.
  replace (p + length w - p)%nat with (length w + 0)%nat by lia.
  rewrite firstn_app_2. simpl. apply app_nil_r.
Qed.

(** A match consumes a prefix of the input and moves the index by its
    length. *)
Lemma Matches_consumes ic r st w st' :
  Matches ic r st w st' ->
  m_rest st = w ++ m_rest st' /\ m_pos st' = (m_pos st + length w)%nat.
Proof.
  induction 1; simpl in *; try (split; [reflexivity | lia]).
  - destruct IHMatches1 as [E1 P1], IHMatches2 as [E2 P2].
    rewrite E1, E2, P2, P1, length_app, app_assoc. split; [reflexivity | lia].
  - assumption.
  - assumption.
  - assumption.
Qed.

Lemma greedy_loop_sound ic a k res : forall rest min max pos caps,
  greedy_loop ic a min max k pos rest caps = Some res ->
  exists w t, rest = w ++ t /\
    Forall (fun c => atom_matches ic a c = true) w /\
    (min <= length w)%nat /\
    (forall mx, max = Some mx -> (length w <= mx)%nat) /\
    k (MState (pos + length w) t caps) = Some res.
Proof.
  assert (Stop : forall rest min max pos caps,
    match min with O => k (MState pos rest caps) | S _ => None end = Some res ->
    exists w t, rest = w ++ t /\
      Forall (fun c => atom_matches ic a c = true) w /\
      (min <= length w)%nat /\
      (forall mx, max = Some mx -> (length w <= mx)%nat) /\
      k (MState (pos + length w) t caps) = Some res).
  { intros rest min max pos caps H. destruct min; [|discriminate].
    exists [], rest. simpl. rewrite Nat.add_0_r.
    repeat split; auto; intros; lia. }
  induction rest as [|c t IH]; intros min max pos caps H.
  - simpl in H. apply Stop. destruct max as [[|mx]|]; exact H.
  - simpl in H.
    assert (Step : forall max',
      option_map pred max = max' ->
      (forall mx, max = Some mx -> (0 < mx)%nat) ->
      (if atom_matches ic a c
       then match greedy_loop ic a (pred min) max' k (S pos) t caps with
            | Some r => Some r
            | None => match min with
                      | O => k (MState pos (c :: t) caps)
                      | S _ => None
                      end
            end
       else match min with
            | O => k (MState pos (c :: t) caps)
            | S _ => None
            end) = Some res ->
      exists w t0, c :: t = w ++ t0 /\
        Forall (fun c => atom_matches ic a c = true) w /\
        (min <= length w)%nat /\
        (forall mx, max = Some mx -> (length w <= mx)%nat) /\
        k (MState (pos + length w) t0 caps) = Some res).
    { intros max' Emax Hpos H'.
      destruct (atom_matches ic a c) eqn:Ea; [|apply Stop; exact H'].
      destruct (greedy_loop ic a (pred min) max' k (S pos) t caps) eqn:Eg;
        [|apply Stop; exact H'].
      injection H' as ->.
      apply IH in Eg. destruct Eg as (w & t0 & -> & Hall & Hmin & Hmax & Hk).
      exists (c :: w), t0. simpl.
      replace (pos + S (length w))%nat with (S pos + length w)%nat by lia.
      repeat split; auto.
      - lia.
      - intros mx ->. specialize (Hpos _ eq_refl). simpl in Emax. subst max'.
        specialize (Hmax _ eq_refl). lia. }
    destruct max as [[|mx]|].
    + apply Stop. exact H.
    + apply (Step (Some mx)); auto. intros ? [= <-]. lia.
    + apply (Step None); auto. intros ? [=].
Qed.

Lemma lazy_loop_sound ic a k res : forall rest min max pos caps,
  lazy_loop ic a min max k pos rest caps = Some res ->
  exists w t, rest = w ++ t /\
    Forall (fun c => atom_matches ic a c = true) w /\
    (min <= length w)%nat /\
    (forall mx, max = Some mx -> (length w <= mx)%nat) /\
    k (MState (pos + length w) t caps) = Some res.
Proof.
  induction rest as [|c t IH]; intros min max pos caps H.
  - exists [], []. simpl. rewrite Nat.add_0_r.
    simpl in H.
    assert (min = 0%nat /\ k (MState pos [] caps) = Some res) as [-> Hk].
    { destruct min.
      - destruct (k (MState pos [] caps)); [auto|].
        destruct max as [[|?]|]; discriminate.
      - destruct max as [[|?]|]; discriminate. }
    repeat split; auto; intros; lia.
  - simpl in H.
    assert (More :
      match max with
      | Some O => None
      | _ => if atom_matches ic a c
             then lazy_loop ic a (pred min) (option_map pred max) k (S pos) t caps
             else None
      end = Some res ->
      exists w t0, c :: t = w ++ t0 /\
        Forall (fun c => atom_matches ic a c = true) w /\
        (min <= length w)%nat /\
        (forall mx, max = Some mx -> (length w <= mx)%nat) /\
        k (MState (pos + length w) t0 caps) = Some res).
    { intros H'.
      assert (exists max', option_map pred max = max' /\
                (forall mx, max = Some mx -> (0 < mx)%nat) /\
                lazy_loop ic a (pred min) max' k (S pos) t caps = Some res)
        as (max' & Emax & Hpos & Hl).
      { destruct max as [[|mx]|]; [discriminate| |];
          (destruct (atom_matches ic a c); [|discriminate]);
          eexists; (split; [reflexivity|]); (split; [|exact H']).
        - intros ? [= <-]. lia.
        - intros ? [=]. }
      apply IH in Hl. destruct Hl as (w & t0 & -> & Hall & Hmin & Hmax & Hk).
      assert (Ea : atom_matches ic a c = true).
      { destruct (atom_matches ic a c); [reflexivity|].
        destruct max as [[|?]|]; discriminate. }
      exists (c :: w), t0. simpl.
      replace (pos + S (length w))%nat with (S pos + length w)%nat by lia.
      repeat split; auto.
      - lia.
      - intros mx ->. specialize (Hpos _ eq_refl). simpl in Emax. subst max'.
        specialize (Hmax _ eq_refl). lia. }
    destruct min.
    + destruct (k (MState pos (c :: t) caps)) eqn:Ek.
      * injection H as ->. exists [], (c :: t). simpl. rewrite Nat.add_0_r.
        repeat split; auto; intros; lia.
      * apply More. exact H.
    + apply More. exact H.
Qed.

(** Soundness of the matcher: a result comes from a match of the pattern
    followed by a success of the continuation. *)
Theorem rmatch_sound ic r : forall k st res,
  rmatch ic r k st = Some res ->
  exists w st', Matches ic r st w st' /\ k st' = Some res.
Proof.
  induction r; intros k st res H; simpl in H.
  - exists [], st. split; [constructor | assumption].
  - destruct st as [pos rest caps]. simpl in H.
    destruct rest as [|c t]; [discriminate|].
    destruct (atom_matches ic a c) eqn:Ea; [|discriminate].
    eexists [c], _. split; [constructor; assumption | exact H].
  - destruct st as [pos rest caps]. simpl in H.
    assert (exists w t, rest = w ++ t /\
      Forall (fun c => atom_matches ic a c = true) w /\
      (min <= length w)%nat /\
      (forall mx, max = Some mx -> (length w <= mx)%nat) /\
      k (MState (pos + length w) t caps) = Some res)
      as (w & t & -> & Hall & Hmin & Hmax & Hk).
    { destruct greedy;
        [eapply greedy_loop_sound | eapply lazy_loop_sound]; exact H. }
    exists w, (MState (pos + length w) t caps).
    split; [constructor; assumption | assumption].
  - apply IHr1 in H. destruct H as (w1 & st1 & M1 & H).
    apply IHr2 in H. destruct H as (w2 & st2 & M2 & H).
    exists (w1 ++ w2), st2. split; [econstructor; eassumption | assumption].
  - destruct (rmatch ic r1 k st) eqn:E1.
    + injection H as ->. apply IHr1 in E1. destruct E1 as (w & st' & M & Hk).
      exists w, st'. split; [apply M_AltL; assumption | assumption].
    + apply IHr2 in H. destruct H as (w & st' & M & Hk).
      exists w, st'. split; [apply M_AltR; assumption | assumption].
  - apply IHr in H. destruct H as (w & st' & M & Hk).
    destruct (Matches_consumes _ _ _ _ _ M) as [Erest Epos].
    rewrite Erest in Hk.
    replace (m_pos st' - m_pos st)%nat
      with (m_pos st + length w - m_pos st)%nat in Hk by lia.
    rewrite firstn_consumed in Hk.
    eexists w, _. split; [apply M_Group; eassumption | exact Hk].
  - destruct (rmatch ic r Some st) eqn:E; [|discriminate].
    apply IHr in E. destruct E as (w & st' & M & [= ->]).
    eexists [], _. split; [eapply M_Look; eassumption | exact H].
  - destruct (Nat.eqb_spec (m_pos st) 0); [|discriminate].
    exists [], st. split; [constructor; assumption | assumption].
  - destruct (m_rest st) eqn:E; [|discriminate].
    exists [], st. split; [constructor; assumption | assumption].
Qed.

Lemma match_at_sound re pos rest m :
  match_at re pos rest = Some m ->
  exists st', Matches (ignoreCase re) (source re) (MState pos rest [])
                (matched m) st' /\
              index m = pos /\ groups m = m_caps st'.
Proof.
  unfold match_at. intros H.
  destruct (rmatch _ _ _ _) eqn:E; [|discriminate]. injection H as <-.
  apply rmatch_sound in E. destruct E as (w & st' & M & [= ->]).
  exists m0. simpl. destruct (Matches_consumes _ _ _ _ _ M) as [Erest Epos].
  simpl in *. rewrite Erest, Epos, firstn_consumed. rewrite <- Erest. auto.
Qed.

(** [search] finds its match at some suffix of the input. *)
Lemma search_sound re m : forall rest pos,
  search re pos rest = Some m ->
  exists skipped rest',
    rest = skipped ++ rest' /\
    match_at re (pos + length skipped) rest' = Some m.
Proof.
  induction rest as [|c t IH]; intros pos H; simpl in H.
  - destruct (match_at re pos []) eqn:E; [|discriminate]. injection H as ->.
    exists [], []. simpl. rewrite Nat.add_0_r. auto.
  - destruct (match_at re pos (c :: t)) eqn:E.
    + injection H as ->. exists [], (c :: t). simpl. rewrite Nat.add_0_r. auto.
    + apply IH in H. destruct H as (sk & rest' & -> & H).
      exists (c :: sk), rest'. simpl.
      replace (pos + S (length sk))%nat with (S pos + length sk)%nat by lia.
      auto.
Qed.

Lemma String_match_sound s re m :
  String_match s re = Some m ->
  exists skipped rest' st',
    s = skipped ++ rest' /\
    Matches (ignoreCase re) (source re)
      (MState (length skipped) rest' []) (matched m) st' /\
    index m = length skipped /\ groups m = m_caps st'.
Proof.
  unfold String_match. intros H. apply search_sound in H.
  destruct H as (sk & rest' & -> & H). apply match_at_sound in H.
  destruct H as (st' & M & Hi & Hg). simpl in *. eauto 8.
Qed.

(** Every text collected under the [g] flag is the text of a match at some
    place of the input. *)
Lemma collect_sound re x : forall rest pos skip,
  In x (collect re pos rest skip) ->
  exists skipped rest' m,
    rest = skipped ++ rest' /\
    match_at re (pos + length skipped) rest' = Some m /\ matched m = x.
Proof.
  assert (Later : forall c t pos,
    (exists skipped rest' m,
       t = skipped ++ rest' /\
       match_at re (S pos + length skipped) rest' = Some m /\ matched m = x) ->
    exists skipped rest' m,
      c :: t = skipped ++ rest' /\
      match_at re (pos + length skipped) rest' = Some m /\ matched m = x).
  { intros c t pos (sk & rest' & m & -> & Hm & Hx).
    exists (c :: sk), rest', m. simpl.
    replace (pos + S (length sk))%nat with (S pos + length sk)%nat by lia.
    auto. }
  assert (Here : forall rest pos m,
    match_at re pos rest = Some m -> matched m = x ->
    exists skipped rest' m,
      rest = skipped ++ rest' /\
      match_at re (pos + length skipped) rest' = Some m /\ matched m = x).
  { intros rest pos m Hm Hx. exists [], rest, m. simpl.
    rewrite Nat.add_0_r. auto. }
  induction rest as [|c t IH]; intros pos skip H; simpl in H.
  - destruct skip; [|contradiction].
    destruct (match_at re pos []) eqn:E; [|contradiction].
    destruct H as [<-|[]]. eapply Here; eauto.
  - destruct skip; [|apply Later; eauto].
    destruct (match_at re pos (c :: t)) eqn:E; [|apply Later; eauto].
    destruct H as [<-|H]; [eapply Here; eauto | apply Later; eauto].
Qed.

Lemma String_match_g_sound s re l x :
  String_match_g s re = Some l -> In x l ->
  exists skipped post st',
    s = skipped ++ x ++ post /\
    Matches (ignoreCase re) (source re)
      (MState (length skipped) (x ++ post) []) x st'.
Proof.
  unfold String_match_g. intros H Hin.
  assert (Hc : In x (collect re 0 s 0)).
  { destruct (collect re 0 s 0); [discriminate|]. injection H as <-. exact Hin. }
  apply collect_sound in Hc. destruct Hc as (sk & rest & m & -> & E & <-).
  apply match_at_sound in E. destruct E as (st' & M & _).
  destruct (Matches_consumes _ _ _ _ _ M) as [Erest _]. simpl in *.
  exists sk, (m_rest st'), st'. rewrite <- Erest. auto.
Qed.

Lemma String_match_g_nonempty s re l :
  String_match_g s re = Some l -> l <> [].
Proof.
  unfold String_match_g. destruct (collect re 0 s 0); [discriminate|].
  intros [= <-]. discriminate.
Qed.

(** Captures are never lost, and a group that lies on every path is bound
    after a match. *)
Lemma Matches_caps_kept ic r st w st' n :
  Matches ic r st w st' ->
  (exists s, cap_get n (m_caps st) = Some s) ->
  exists s, cap_get n (m_caps st') = Some s.
Proof.
  induction 1; simpl; auto.
  intros Hc. destruct (Nat.eqb n0 n); eauto.
Qed.

Lemma Matches_caps_bound ic r st w st' n :
  Matches ic r st w st' ->
  always_captures n r = true ->
  exists s, cap_get n (m_caps st') = Some s.
Proof.
  induction 1; simpl; try discriminate; auto.
  - intros Hc. apply orb_true_iff in Hc. destruct Hc as [Hc|Hc]; auto.
    eapply Matches_caps_kept; eauto.
  - intros Hc. apply andb_true_iff in Hc. tauto.
  - intros Hc. apply andb_true_iff in Hc. tauto.
  - intros Hc. destruct (Nat.eqb n0 n); simpl in Hc; eauto.
Qed.

Lemma String_match_group s re m n :
  String_match s re = Some m ->
  always_captures n (source re) = true ->
  exists v, group m n = Some v.
Proof.
  intros H Hc. apply String_match_sound in H.
  destruct H as (sk & rest' & st' & _ & M & _ & Hg).
  unfold group. rewrite Hg. eapply Matches_caps_bound; eauto.
Qed.

(** ** Strings *)

Lemma trimStart_suffix s : exists p, s = p ++ trimStart s.
Proof.
  induction s as [|c t [p IH]]; simpl.
  - exists []. reflexivity.
  - destruct (isSpace c).
    + exists (c :: p). simpl. f_equal. exact IH.
    + exists []. reflexivity.
Qed.

Lemma trimStart_idem s : trimStart (trimStart s) = trimStart s.
Proof.
  induction s as [|c t IH]; simpl; [reflexivity|].
  destruct (isSpace c) eqn:E; [exact IH|]. simpl. rewrite E. reflexivity.
Qed.

Lemma trimStart_fixed_head c l :
  trimStart (c :: l) = c :: l -> isSpace c = false.
Proof.
  simpl. destruct (isSpace c); [|reflexivity]. intros H.
  destruct (trimStart_suffix l) as [p Hp]. rewrite H in Hp.
  apply (f_equal (@length _)) in Hp. rewrite length_app in Hp. simpl in Hp. lia.
Qed.

Lemma clean_trimmed s : clean s -> trimmed s.
Proof.
  intros [H1 H2]. unfold trimmed, trim, trimEnd.
  rewrite H1, H2. apply rev_involutive.
Qed.

Lemma trim_clean s : clean (trim s).
Proof.
  unfold clean, trim, trimEnd.
  set (x := trimStart s). set (y := trimStart (rev x)).
  rewrite rev_involutive. split; [|apply trimStart_idem].
  destruct (trimStart_suffix (rev x)) as [p Hp]. fold y in Hp.
  apply (f_equal (@rev _)) in Hp. rewrite rev_involutive, rev_app_distr in Hp.
  destruct (rev y) as [|c r] eqn:Ey; [reflexivity|].
  assert (Hx : trimStart x = x) by apply trimStart_idem.
  rewrite Hp in Hx. simpl in Hx. apply trimStart_fixed_head in Hx.
  simpl. rewrite Hx. reflexivity.
Qed.

Lemma trim_trimmed s : trimmed (trim s).
Proof. apply clean_trimmed, trim_clean. Qed.

(** A string between two characters that are not white space is clean. *)
Lemma clean_ends a mid z :
  isSpace a = false -> isSpace z = false -> clean (a :: mid ++ [z]).
Proof.
  intros Ha Hz. split.
  - simpl. rewrite Ha. reflexivity.
  - simpl. rewrite rev_app_distr. simpl. rewrite Hz. reflexivity.
Qed.

Lemma split_chr_nonempty sep s : split_chr sep s <> [].
Proof.
  destruct s as [|c t]; simpl; [discriminate|].
  destruct (c =? sep); [discriminate|].
  destruct (split_chr sep t); discriminate.
Qed.

Lemma split_chr_two sep s :
  In sep s -> (2 <= length (split_chr sep s))%nat.
Proof.
  induction s as [|c t IH]; simpl; [contradiction|].
  intros [->|Hin].
  - rewrite N.eqb_refl. simpl.
    pose proof (split_chr_nonempty sep t).
    destruct (split_chr sep t); [congruence | simpl; lia].
  - destruct (c =? sep).
    + simpl. pose proof (split_chr_nonempty sep t).
      destruct (split_chr sep t); [congruence | simpl; lia].
    + specialize (IH Hin). destruct (split_chr sep t); simpl in *; lia.
Qed.

Lemma after_colon_defined m :
  In (ch ":") m -> exists v, after_colon m = Some v.
Proof.
  intros H. apply split_chr_two in H. unfold after_colon.
  destruct (split_chr (ch ":") m) as [|a [|b r]]; simpl in *; try lia. eauto.
Qed.

Lemma split_ws_nonempty s : split_ws s <> [].
Proof.
  unfold split_ws. generalize false.
  induction s as [|c t IH]; intros b; simpl; [discriminate|].
  destruct (isSpace c).
  - destruct b; [apply IH | discriminate].
  - destruct (split_ws_from false t); discriminate.
Qed.

(** ** Completions *)

Lemma mapM_normal {A B} (f : A -> completion B) l :
  (forall a, In a l -> exists b, f a = Normal b) ->
  exists bs, mapM f l = Normal bs /\ length bs = length l.
Proof.
  induction l as [|a t IH]; intros H; simpl.
  - exists []. auto.
  - destruct (H a) as [b Hb]; [left; reflexivity|].
    destruct IH as (bs & Hbs & Hlen); [intros; apply H; right; assumption|].
    rewrite Hb, Hbs. simpl. exists (b :: bs). simpl. auto.
Qed.

Lemma mapM_length {A B} (f : A -> completion B) l bs :
  mapM f l = Normal bs -> length bs = length l.
Proof.
  revert bs. induction l as [|a t IH]; intros bs; simpl.
  - intros [= <-]. reflexivity.
  - destruct (f a); [|discriminate]. simpl.
    destruct (mapM f t); [|discriminate]. simpl.
    intros [= <-]. simpl. f_equal. apply IH. reflexivity.
Qed.

Lemma first_return_normal {A} (steps : list (completion (option A))) dflt :
  (forall s, In s steps -> exists r, s = Normal r) ->
  exists a, first_return steps dflt = Normal a.
Proof.
  induction steps as [|s t IH]; intros H; simpl; [eauto|].
  destruct (H s) as [r ->]; [left; reflexivity|]. simpl.
  destruct r; [eauto|]. apply IH. intros; apply H; right; assumption.
Qed.

Lemma first_return_inv {A} (steps : list (completion (option A))) dflt a :
  first_return steps dflt = Normal a ->
  a = dflt \/ In (Normal (Some a)) steps.
Proof.
  induction steps as [|s t IH]; simpl.
  - intros [= <-]. auto.
  - destruct s as [[x|]|]; simpl; try discriminate.
    + intros [= <-]. auto.
    + intros H. destruct (IH H); auto.
Qed.

Lemma method_normal {B} o (f : jsstring -> B) :
  (exists v, o = Some v) -> exists b, method o f = Normal b.
Proof. intros [v ->]. simpl. eauto. Qed.

(** ** No function of the parser throws *)

Lemma always_captures_seq_r n a b :
  always_captures n b = true -> always_captures n (RSeq a b) = true.
Proof. intros H. simpl. rewrite H. apply orb_true_r. Qed.

(** A pattern character that is not a letter matches itself only. *)
Lemma chr_exact ic p c :
  isLetter p = false -> atom_matches ic (Chr p) c = true -> c = p.
Proof.
  unfold isLetter, atom_matches, canonicalize, toAsciiUpper, isUpperAZ, isLowerAZ.
  destruct ic; cmp_cases.
Qed.

Lemma month_rule_normal year m :
  (exists v, group m 1 = Some v) -> (exists v, group m 2 = Some v) ->
  exists r, month_rule year m = Normal r.
Proof.
  intros [d Hd] [mo Hm]. unfold month_rule. rewrite Hd, Hm. simpl.
  destruct (ToBoolean _); eauto.
Qed.

Lemma normalizeDateString_steps_normal now s :
  exists r, normalizeDateString now s = Normal r.
Proof.
  unfold normalizeDateString. destruct (is_empty s); [eauto|].
  apply first_return_normal. intros st Hin. simpl in Hin.
  destruct Hin as [<-|[<-|[<-|[<-|[]]]]].
  - destruct (String_match s ggRegex) eqn:E; [|eauto].
    apply month_rule_normal; eapply String_match_group; eauto.
  - destruct (String_match s recurringRegex) eqn:E; [|eauto].
    apply month_rule_normal; eapply String_match_group; eauto.
  - destruct (String_match s jpRegex); eauto.
  - destruct (String_match s krRegex); eauto.
Qed.

Lemma capture_step_normal {B} s re (f : jsstring -> B) :
  always_captures 1 (source re) = true ->
  exists r, match String_match s re with
            | Some m => v <- method (group m 1) f ;; Normal (Some (Some v))
            | None => Normal None
            end = Normal r.
Proof.
  intros Hc. destruct (String_match s re) eqn:E; [|eauto].
  destruct (String_match_group _ _ _ 1%nat E Hc) as [v ->]. simpl. eauto.
Qed.

Lemma parseField_normal text field alts :
  exists r, parseField text field alts = Normal r.
Proof.
  unfold parseField. apply first_return_normal. intros st Hin.
  apply in_flat_map in Hin. destruct Hin as (f & _ & [<-|[<-|[]]]).
  - apply capture_step_normal. apply always_captures_seq_r. reflexivity.
  - apply capture_step_normal. do 2 apply always_captures_seq_r. reflexivity.
Qed.

(** Under the [g] flag every text matched by a pattern of the shape
    [label\s*:...] holds a colon. *)
Lemma colon_in_match text label sp l x :
  String_match_g text
    (mkRegExp (RSeq (lit label)
                 (RSeq (RQuant space 0 sp true)
                    (RSeq (chr ":") (seq [star space; RGroup 1 (plus Dot)]))))
       true) = Some l ->
  In x l -> In (ch ":") x.
Proof.
  intros H Hin.
  destruct (String_match_g_sound _ _ _ _ H Hin) as (sk & post & st' & _ & M).
  simpl in M. inversion M as [| | |? ? ? w1 ? w2 ? M1 M2| | | | | |]; subst.
  inversion M2 as [| | |? ? ? w3 ? w4 ? M3 M4| | | | | |]; subst.
  inversion M4 as [| | |? ? ? w5 ? w6 ? M5 M6| | | | | |]; subst.
  inversion M5 as [|? c ? ? ? Hc| | | | | | | |]; subst.
  apply chr_exact in Hc; [|reflexivity]. subst c.
  apply in_or_app. right. apply in_or_app. right. left. reflexivity.
Qed.

Lemma multi_colon_in_match text field l x :
  String_match_g text (multiFieldRegex field) = Some l ->
  In x l -> In (ch ":") x.
Proof.
  intros H Hin.
  destruct (String_match_g_sound _ _ _ _ H Hin) as (sk & post & st' & _ & M).
  simpl in M. inversion M as [| | |? ? ? w1 ? w2 ? M1 M2| | | | | |]; subst.
  inversion M2 as [| | |? ? ? w3 ? w4 ? M3 M4| | | | | |]; subst.
  inversion M3 as [|? c ? ? ? Hc| | | | | | | |]; subst.
  apply chr_exact in Hc; [|reflexivity]. subst c.
  apply in_or_app. right. left. reflexivity.
Qed.

Lemma parseMultipleFields_normal text field :
  exists r, parseMultipleFields text field = Normal r.
Proof.
  unfold parseMultipleFields.
  destruct (String_match_g text (multiFieldRegex field)) as [l|] eqn:E; [|eauto].
  destruct (mapM_normal (fun m => method (after_colon m) trim) l) as (bs & -> & _);
    [|eauto].
  intros m Hin. apply method_normal, after_colon_defined.
  eapply multi_colon_in_match; eauto.
Qed.

Lemma parseDate_normal text now patterns :
  forallb (fun p => always_captures 1 (source p)) patterns = true ->
  exists r, parseDate text now patterns = Normal r.
Proof.
  intros Hall. unfold parseDate. apply first_return_normal. intros st Hin.
  apply in_map_iff in Hin. destruct Hin as (p & <- & Hp).
  rewrite forallb_forall in Hall. specialize (Hall _ Hp).
  destruct (String_match text p) eqn:E; [|eauto].
  destruct (String_match_group _ _ _ 1%nat E Hall) as [v ->]. simpl.
  destruct (normalizeDateString_steps_normal now (trim v)) as [d ->]. simpl. eauto.
Qed.

Lemma parseNameservers_normal text :
  exists r, parseNameservers text = Normal r.
Proof.
  unfold parseNameservers. apply first_return_normal. intros st Hin.
  apply in_app_or in Hin. destruct Hin as [Hin|Hin].
  - apply in_map_iff in Hin. destruct Hin as (p & <- & Hp).
    assert (Hc : always_captures 1 (source p) = true).
    { destruct Hp as [<-|[<-|[]]]; reflexivity. }
    destruct (String_match text p) eqn:E; [|eauto].
    destruct (String_match_group _ _ _ 1%nat E Hc) as [v ->]. simpl.
    destruct (0 <? _)%nat; eauto.
  - apply in_app_or in Hin. destruct Hin as [Hin|[<-|[]]].
    + apply in_map_iff in Hin. destruct Hin as (f & <- & Hf).
      destruct (String_match_g text (nsColonRegex f)) as [l|] eqn:E; [|eauto].
      destruct (0 <? length l)%nat; [|eauto].
      match goal with
      | |- context [mapM ?g l] =>
          destruct (mapM_normal g l) as (bs & -> & _); [|simpl; eauto]
      end.
      intros m Hm.
      destruct (after_colon_defined m) as [v ->]; [|simpl; eauto].
      eapply colon_in_match; [exact E | exact Hm].
    + destruct (String_match_g text nsBracketRegex) as [l|]; [|eauto].
      destruct (0 <? length l)%nat; eauto.
Qed.

Lemma parseStatus_normal text :
  exists r, parseStatus text = Normal r.
Proof.
  unfold parseStatus. apply first_return_normal. intros st [<-|[<-|[]]].
  - destruct (String_match text statusSectionRegex) eqn:E; [|eauto].
    destruct (String_match_group _ _ _ 1%nat E eq_refl) as [v ->]. simpl.
    destruct (0 <? _)%nat; eauto.
  - unfold or_array at 1.
    destruct (parseMultipleFields_normal text (js "Domain Status")) as [l ->].
    simpl. destruct (0 <? length l)%nat; eauto.
Qed.

Lemma parseWhoisData_normal text now fallback :
  exists r, parseWhoisData text now fallback = Normal r.
Proof.
  unfold parseWhoisData, parseCreationDate, parseExpiryDate.
  destruct (parseField_normal text (js "Domain")
              [js "Domain Name"; js "domain name"; js "domain"]) as [? ->].
  destruct (parseField_normal text (js "Registrar")
              [js "REGISTRAR"; js "registrar"]) as [? ->].
  destruct (parseDate_normal text now creationPatterns eq_refl) as [? ->].
  destruct (parseDate_normal text now expiryPatterns eq_refl) as [? ->].
  destruct (parseNameservers_normal text) as [? ->].
  destruct (parseField_normal text (js "Registrant")
              [js "registrant name"; js "org"; js "Organization"]) as [? ->].
  destruct (parseStatus_normal text) as [? ->].
  destruct (parseField_normal text (js "DNSSEC") [js "Signed"; js "dnssec"]) as [? ->].
  destruct (parseField_normal text (js "Last Modified")
              [js "last modified"; js "Last Update"; js "Changed"; js "changed"])
    as [? ->].
  simpl. eauto.
Qed.

(** ** The record and the functions that fill it *)

Lemma parseWhoisData_inv text now fallback r :
  parseWhoisData text now fallback = Normal r ->
  exists parsedDomain,
    parseField text (js "Domain")
      [js "Domain Name"; js "domain name"; js "domain"] = Normal parsedDomain /\
    domainName r = or_string parsedDomain fallback /\
    parseField text (js "Registrar") [js "REGISTRAR"; js "registrar"]
      = Normal (registrar r) /\
    parseCreationDate text now = Normal (creationDate r) /\
    parseExpiryDate text now = Normal (expirationDate r) /\
    parseNameservers text = Normal (nameservers r) /\
    parseField text (js "Registrant")
      [js "registrant name"; js "org"; js "Organization"] = Normal (registrant r) /\
    parseStatus text = Normal (status r) /\
    parseField text (js "DNSSEC") [js "Signed"; js "dnssec"] = Normal (dnssec r) /\
    parseField text (js "Last Modified")
      [js "last modified"; js "Last Update"; js "Changed"; js "changed"]
      = Normal (lastModified r).
Proof.
  unfold parseWhoisData.
  destruct (parseField text (js "Domain") _) as [pd|]; [|discriminate].
  destruct (parseField text (js "Registrar") _) as [rg|]; [|discriminate].
  destruct (parseCreationDate text now) as [cd|]; [|discriminate].
  destruct (parseExpiryDate text now) as [ed|]; [|discriminate].
  destruct (parseNameservers text) as [ns|]; [|discriminate].
  destruct (parseField text (js "Registrant") _) as [rt|]; [|discriminate].
  destruct (parseStatus text) as [stt|]; [|discriminate].
  destruct (parseField text (js "DNSSEC") _) as [ds|]; [|discriminate].
  destruct (parseField text (js "Last Modified") _) as [lm|]; [|discriminate].
  simpl. intros [= <-]. simpl. exists pd. repeat split; reflexivity.
Qed.

Lemma ltb_length_nonempty {A} (l : list A) :
  (0 <? length l)%nat = true -> l <> [].
Proof. destruct l; [discriminate | discriminate]. Qed.

Lemma parseNameservers_nonempty text l :
  parseNameservers text = Normal (Some l) -> l <> [].
Proof.
  unfold parseNameservers. intros H.
  apply first_return_inv in H. destruct H as [H|Hin]; [discriminate|].
  apply in_app_or in Hin. destruct Hin as [Hin|Hin].
  - apply in_map_iff in Hin. destruct Hin as (p & Hstep & _).
    destruct (String_match text p); [|discriminate].
    destruct (group m 1); [|discriminate]. simpl in Hstep.
    match type of Hstep with
    | (if (0 <? length ?s)%nat then _ else _) = _ =>
        destruct (0 <? length s)%nat eqn:Hlen; [|discriminate];
        injection Hstep as <-; apply ltb_length_nonempty; exact Hlen
    end.
  - apply in_app_or in Hin. destruct Hin as [Hin|[Hstep|[]]].
    + apply in_map_iff in Hin. destruct Hin as (f & Hstep & _).
      destruct (String_match_g text (nsColonRegex f)) as [ms|]; [|discriminate].
      destruct (0 <? length ms)%nat eqn:Hlen; [|discriminate].
      match type of Hstep with
      | context [mapM ?g ms] => destruct (mapM g ms) as [bs|] eqn:Em;
                                [|discriminate]
      end.
      simpl in Hstep. injection Hstep as <-.
      apply mapM_length in Em. apply ltb_length_nonempty. rewrite Em. exact Hlen.
    + destruct (String_match_g text nsBracketRegex) as [ms|]; [|discriminate].
      destruct (0 <? length ms)%nat eqn:Hlen; [|discriminate].
      injection Hstep as <-. apply ltb_length_nonempty.
      rewrite length_map. exact Hlen.
Qed.

(** ** Running the matcher on inputs of a known shape

    Each lemma says: if the pattern matches a known prefix in the way the
    backtracking matcher tries first, and the continuation succeeds there,
    that success is the result. *)

Lemma greedy_loop_max ic a k res : forall w min max pos t caps,
  Forall (fun c => atom_matches ic a c = true) w ->
  (min <= length w)%nat ->
  (forall mx, max = Some mx -> (length w <= mx)%nat) ->
  max = Some (length w) \/ head_fails ic a t ->
  k (MState (pos + length w) t caps) = Some res ->
  greedy_loop ic a min max k pos (w ++ t) caps = Some res.
Proof.
  induction w as [|c w IH]; intros min max pos t caps Hall Hmin Hmax Hend Hk.
  - simpl in *. rewrite Nat.add_0_r in Hk.
    assert (min = 0%nat) as -> by lia.
    destruct Hend as [->|Hf].
    + destruct t; simpl; exact Hk.
    + destruct t as [|c t]; simpl in *.
      * destruct max as [[|?]|]; exact Hk.
      * rewrite Hf. destruct max as [[|?]|]; exact Hk.
  - inversion Hall as [|? ? Hc Hall']; subst. simpl in *.
    assert (Hrec : greedy_loop ic a (pred min) (option_map pred max) k
                     (S pos) (w ++ t) caps = Some res).
    { apply IH; auto.
      - lia.
      - intros mx E. destruct max as [m|]; [|discriminate].
        injection E as <-. specialize (Hmax _ eq_refl). lia.
      - destruct Hend as [->|Hf]; [left; reflexivity | right; exact Hf].
      - replace (S pos + length w)%nat with (pos + S (length w))%nat by lia.
        exact Hk. }
    destruct max as [[|mx]|].
    + specialize (Hmax _ eq_refl). lia.
    + rewrite Hc, Hrec. reflexivity.
    + rewrite Hc, Hrec. reflexivity.
Qed.

Lemma run_seq ic r1 r2 k st res :
  rmatch ic r1 (rmatch ic r2 k) st = Some res ->
  rmatch ic (RSeq r1 r2) k st = Some res.
Proof. intros H. exact H. Qed.

Lemma run_empty ic k st res :
  k st = Some res -> rmatch ic REmpty k st = Some res.
Proof. intros H. exact H. Qed.

Lemma run_atom ic a k pos c t caps res :
  atom_matches ic a c = true ->
  k (MState (S pos) t caps) = Some res ->
  rmatch ic (RAtom a) k (MState pos (c :: t) caps) = Some res.
Proof. intros Ha Hk. simpl. rewrite Ha. exact Hk. Qed.

Lemma run_quant ic a min max k pos w t caps res :
  Forall (fun c => atom_matches ic a c = true) w ->
  (min <= length w)%nat ->
  (forall mx, max = Some mx -> (length w <= mx)%nat) ->
  max = Some (length w) \/ head_fails ic a t ->
  k (MState (pos + length w) t caps) = Some res ->
  rmatch ic (RQuant a min max true) k (MState pos (w ++ t) caps) = Some res.
Proof. intros. simpl. apply greedy_loop_max; assumption. Qed.

Lemma run_group_quant ic n a min max k pos w t caps res :
  Forall (fun c => atom_matches ic a c = true) w ->
  (min <= length w)%nat ->
  (forall mx, max = Some mx -> (length w <= mx)%nat) ->
  max = Some (length w) \/ head_fails ic a t ->
  k (MState (pos + length w) t ((n, w) :: caps)) = Some res ->
  rmatch ic (RGroup n (RQuant a min max true)) k (MState pos (w ++ t) caps)
    = Some res.
Proof.
  intros Hall Hmin Hmax Hend Hk. simpl.
  apply greedy_loop_max; try assumption.
  simpl. rewrite firstn_consumed. exact Hk.
Qed.

Lemma run_lit ic k res : forall p w pos t caps,
  Forall2 (fun pc c => atom_matches ic (Chr pc) c = true) p w ->
  k (MState (pos + length w) t caps) = Some res ->
  rmatch ic (lit p) k (MState pos (w ++ t) caps) = Some res.
Proof.
  intros p w pos t caps H. revert pos.
  induction H as [|pc c p w Hc H IH]; intros pos Hk.
  - simpl in *. rewrite Nat.add_0_r in Hk. exact Hk.
  - simpl in *. rewrite Hc. apply IH.
    replace (S pos + length w)%nat with (pos + S (length w))%nat by lia.
    exact Hk.
Qed.

Lemma run_ordinal k pos ord t caps res :
  In ord [js "st"; js "nd"; js "rd"; js "th"] ->
  k (MState (S (S pos)) t caps) = Some res ->
  rmatch true ordinal k (MState pos (ord ++ t) caps) = Some res.
Proof.
  intros Hin Hk. simpl in Hin.
  destruct Hin as [<-|[<-|[<-|[<-|[]]]]]; simpl; rewrite Hk; reflexivity.
Qed.

Lemma search_here re pos rest m :
  match_at re pos rest = Some m -> search re pos rest = Some m.
Proof. intros H. destruct rest; simpl; rewrite H; reflexivity. Qed.

Lemma String_match_here s re st' :
  rmatch (ignoreCase re) (source re) Some (MState 0 s []) = Some st' ->
  String_match s re = Some (MatchResult 0 (firstn (m_pos st' - 0) s) (m_caps st')).
Proof.
  intros H. unfold String_match. apply search_here. unfold match_at.
  rewrite H. reflexivity.
Qed.

Lemma atom_digit ic c : atom_matches ic digit c = isDigit c.
Proof. simpl. apply orb_false_r. Qed.
Lemma atom_space ic c : atom_matches ic space c = isSpace c.
Proof. simpl. apply orb_false_r. Qed.
Lemma atom_word ic c : atom_matches ic word c = isWordChar c.
Proof. simpl. apply orb_false_r. Qed.

Lemma Forall_atom ic a (P : char -> bool) w :
  (forall c, P c = true -> atom_matches ic a c = true) ->
  Forall (fun c => P c = true) w ->
  Forall (fun c => atom_matches ic a c = true) w.
Proof. intros H. apply Forall_impl. exact H. Qed.

Lemma digits_atom ic w :
  Forall (fun c => isDigit c = true) w ->
  Forall (fun c => atom_matches ic digit c = true) w.
Proof. apply Forall_atom. intros c H. rewrite atom_digit. exact H. Qed.

Lemma letters_atom ic w :
  Forall (fun c => isLetter c = true) w ->
  Forall (fun c => atom_matches ic word c = true) w.
Proof.
  apply Forall_atom. intros c H. rewrite atom_word. apply letter_is_word, H.
Qed.

Lemma spaces_atom ic w :
  Forall (fun c => isSpace c = true) w ->
  Forall (fun c => atom_matches ic space c = true) w.
Proof. apply Forall_atom. intros c H. rewrite atom_space. exact H. Qed.

Lemma gg_run day ord month year :
  Forall (fun c => isDigit c = true) day -> day <> [] ->
  In ord [js "st"; js "nd"; js "rd"; js "th"] ->
  Forall (fun c => isLetter c = true) month -> month <> [] ->
  Forall (fun c => isDigit c = true) year -> length year = 4%nat ->
  exists m,
    String_match (day ++ ord ++ ch " " :: month ++ ch " " :: year) ggRegex = Some m /\
    groups m = [(3%nat, year); (2%nat, month); (1%nat, day)].
Proof.
  intros Hday Hday0 Hord Hmonth Hmonth0 Hyear Hlen.
  eexists. split.
  - apply String_match_here. unfold ggRegex, source, ignoreCase, seq, fold_right.
    apply run_seq, run_group_quant; [apply digits_atom, Hday | | | | ].
    + destruct day; [congruence | simpl; lia].
    + intros ? [=].
    + right. simpl in Hord.
      destruct Hord as [<-|[<-|[<-|[<-|[]]]]]; reflexivity.
    + apply run_seq, run_ordinal; [exact Hord|].
      apply run_seq.
      apply (run_quant true space 1%nat None _ _ [ch " "]);
        [repeat constructor | simpl; lia | intros ? [=] | | ].
      * right. destruct month as [|c month]; [congruence|].
        inversion Hmonth; subst. simpl. rewrite orb_false_r.
        apply letter_not_space. assumption.
      * apply run_seq, run_group_quant; [apply letters_atom, Hmonth | | | | ].
        -- destruct month; [congruence | simpl; lia].
        -- intros ? [=].
        -- right. reflexivity.
        -- apply run_seq.
           apply (run_quant true space 1%nat None _ _ [ch " "]);
             [repeat constructor | simpl; lia | intros ? [=] | | ].
           ++ right. destruct year as [|c year]; [discriminate|].
              inversion Hyear; subst. simpl. rewrite orb_false_r.
              apply digit_not_space. assumption.
           ++ apply run_seq.
              rewrite <- (app_nil_r year) at 1.
              apply run_group_quant; [apply digits_atom, Hyear | | | | ].
              ** unfold times. lia.
              ** intros ? [= <-]. lia.
              ** left. rewrite Hlen. reflexivity.
              ** apply run_empty. reflexivity.
  - reflexivity.
Qed.

Lemma monthMap_facts name mm :
  In (name, mm) monthMap ->
  get_property monthMap name = VString mm /\
  ToBoolean (VString mm) = true /\
  name <> [] /\
  Forall (fun c => isLowerAZ c = true) name.
Proof.
  intros H. simpl in H.
  repeat (destruct H as [[= <- <-]|H];
          [split; [reflexivity|]; split; [reflexivity|]; split;
           [discriminate | repeat constructor]|]).
  contradiction.
Qed.

Lemma lower_is_letter c : isLowerAZ (toAsciiLower c) = true -> isLetter c = true.
Proof.
  unfold toAsciiLower, isLetter. destruct (isUpperAZ c) eqn:E; [reflexivity|].
  intros ->. reflexivity.
Qed.

Lemma month_letters month name :
  toLowerCase month = name ->
  name <> [] ->
  Forall (fun c => isLowerAZ c = true) name ->
  Forall (fun c => isLetter c = true) month /\ month <> [].
Proof.
  intros <- Hne Hall. split.
  - unfold toLowerCase in Hall. rewrite Forall_map in Hall.
    revert Hall. apply Forall_impl. intros c. apply lower_is_letter.
  - intros ->. apply Hne. reflexivity.
Qed.

Lemma is_empty_app a b : a <> [] -> is_empty (a ++ b) = false.
Proof. destruct a; [congruence | reflexivity]. Qed.

Lemma normalize_gg_shape now day ord month mm year :
  Forall (fun c => isDigit c = true) day -> day <> [] ->
  In ord [js "st"; js "nd"; js "rd"; js "th"] ->
  In (toLowerCase month, mm) monthMap ->
  Forall (fun c => isDigit c = true) year -> length year = 4%nat ->
  normalizeDateString now (day ++ ord ++ ch " " :: month ++ ch " " :: year)
  = Normal (Some (year ++ dash ++ mm ++ dash ++ padStart 2 (ch "0") day ++ T00)).
Proof.
  intros Hday Hday0 Hord Hmm Hyear Hlen.
  destruct (monthMap_facts _ _ Hmm) as (Hget & Htrue & Hne & Hlow).
  destruct (month_letters month _ eq_refl Hne Hlow) as [Hmonth Hmonth0].
  destruct (gg_run day ord month year Hday Hday0 Hord Hmonth Hmonth0 Hyear Hlen)
    as (m & Hm & Hg).
  unfold normalizeDateString. rewrite is_empty_app by assumption.
  cbn [first_return]. rewrite Hm. unfold month_rule, group. rewrite Hg.
  cbn [cap_get Nat.eqb method bind tpl]. rewrite Hget, Htrue.
  reflexivity.
Qed.

(** ** What a match of each date pattern looks like *)

Ltac invM :=
  repeat match goal with
         | H : Matches _ (lit (js ?x)) _ _ _ |- _ =>
             let r := eval vm_compute in (lit (js x)) in
             change (lit (js x)) with r in H
         | H : Matches _ (seq _) _ _ _ |- _ => unfold seq, fold_right in H
         | H : Matches _ (chr _) _ _ _ |- _ => unfold chr in H
         | H : Matches _ (plus _) _ _ _ |- _ => unfold plus in H
         | H : Matches _ (star _) _ _ _ |- _ => unfold star in H
         | H : Matches _ (opt _) _ _ _ |- _ => unfold opt in H
         | H : Matches _ (times _ _) _ _ _ |- _ => unfold times in H
         | H : Matches _ (RSeq _ _) _ _ _ |- _ => inversion H; subst; clear H
         | H : Matches _ (RAlt _ _) _ _ _ |- _ => inversion H; subst; clear H
         | H : Matches _ (RAtom _) _ _ _ |- _ => inversion H; subst; clear H
         | H : Matches _ (RGroup _ _) _ _ _ |- _ => inversion H; subst; clear H
         | H : Matches _ (RQuant _ _ _ _) _ _ _ |- _ => inversion H; subst; clear H
         | H : Matches _ REmpty _ _ _ |- _ => inversion H; subst; clear H
         | H : Matches _ RBol _ _ _ |- _ => inversion H; subst; clear H
         | H : Matches _ REol _ _ _ |- _ => inversion H; subst; clear H
         | H : Matches _ _ _ _ _ |- _ => progress cbn [m_pos m_rest m_caps] in H
         end.

Ltac quant_bounds :=
  repeat match goal with
         | H : forall mx, Some ?n = Some mx -> _ |- _ =>
             specialize (H _ eq_refl)
         | H : forall mx, None = Some mx -> _ |- _ => clear H
         end.

Lemma chr_letter p c :
  isLetter p = true -> atom_matches true (Chr p) c = true -> isLetter c = true.
Proof.
  unfold isLetter, atom_matches, canonicalize, toAsciiUpper, isUpperAZ, isLowerAZ.
  cmp_cases.
Qed.

Lemma ordinal_letter st w st' :
  Matches true ordinal st w st' ->
  exists c w', w = c :: w' /\ isLetter c = true.
Proof.
  unfold ordinal. intros H. invM; simpl;
    match goal with
    | H : atom_matches true (Chr ?p) ?c = true |- exists c0 w', ?c :: _ = _ /\ _ =>
        exists c; eexists; split; [reflexivity|];
        apply (chr_letter p); [reflexivity | exact H]
    end.
Qed.

Lemma atom_digits w ic :
  Forall (fun c => atom_matches ic digit c = true) w ->
  Forall (fun c => isDigit c = true) w.
Proof. apply Forall_impl. intros c. rewrite atom_digit. auto. Qed.

Lemma atom_words w ic :
  Forall (fun c => atom_matches ic word c = true) w ->
  Forall (fun c => isWordChar c = true) w.
Proof. apply Forall_impl. intros c. rewrite atom_word. auto. Qed.

Lemma atom_spaces w ic :
  Forall (fun c => atom_matches ic space c = true) w ->
  Forall (fun c => isSpace c = true) w.
Proof. apply Forall_impl. intros c. rewrite atom_space. auto. Qed.


(** A pattern without groups leaves the captures as they are. *)
Lemma Matches_groupless ic r st w st' :
  Matches ic r st w st' -> groupless r = true -> m_caps st' = m_caps st.
Proof.
  induction 1; simpl; intros Hg; try reflexivity; try discriminate;
    try (apply andb_true_iff in Hg; destruct Hg as [Hg1 Hg2]); auto.
  rewrite IHMatches2, IHMatches1; auto.
Qed.

Lemma String_match_parts s re m :
  String_match s re = Some m ->
  exists pre post st',
    s = pre ++ matched m ++ post /\
    Matches (ignoreCase re) (source re)
      (MState (length pre) (matched m ++ post) []) (matched m) st' /\
    groups m = m_caps st' /\ m_rest st' = post.
Proof.
  intros H. apply String_match_sound in H.
  destruct H as (sk & rest' & st' & -> & M & _ & Hg).
  destruct (Matches_consumes _ _ _ _ _ M) as [Erest _]. simpl in Erest.
  exists sk, (m_rest st'), st'. rewrite <- Erest. auto.
Qed.

(** The part common to the two patterns that start with a day, an ordinal
    and a word. *)
Lemma day_month_shape X st w st' :
  Matches true
    (RSeq (RGroup 1 (plus digit))
       (RSeq ordinal (RSeq (plus space) (RSeq (RGroup 2 (plus word))
          (RSeq (plus space) X))))) st w st' ->
  exists d c o ws mo ws' wx st1,
    w = d ++ (c :: o) ++ ws ++ mo ++ ws' ++ wx /\
    d <> [] /\ Forall (fun c => isDigit c = true) d /\
    isLetter c = true /\
    mo <> [] /\ Forall (fun c => isWordChar c = true) mo /\
    m_caps st1 = (2%nat, mo) :: (1%nat, d) :: m_caps st /\
    Matches true X st1 wx st'.
Proof.
  intros M. invM.
  match goal with
  | H : Matches true ordinal _ ?o _ |- _ =>
      pose proof (Matches_groupless _ _ _ _ _ H eq_refl) as Hcaps;
      destruct (ordinal_letter _ _ _ H) as (c & o' & -> & Hc)
  end.
  simpl in Hcaps. subst.
  match goal with
  | H : Matches true X ?s ?wx _ |- _ =>
      exists w1, c, o', w2, w3, w4, wx, s
  end.
  repeat split; auto.
  - intros ->. simpl in *. lia.
  - eapply atom_digits; eassumption.
  - intros ->. simpl in *. lia.
  - eapply atom_words; eassumption.
Qed.

Lemma gg_match_shape s m :
  String_match s ggRegex = Some m ->
  exists pre d c o ws mo ws' y post,
    s = pre ++ d ++ (c :: o) ++ ws ++ mo ++ ws' ++ y ++ post /\
    d <> [] /\ Forall (fun c => isDigit c = true) d /\
    isLetter c = true /\
    mo <> [] /\ Forall (fun c => isWordChar c = true) mo /\
    length y = 4%nat /\ Forall (fun c => isDigit c = true) y /\
    group m 1 = Some d /\ group m 2 = Some mo /\ group m 3 = Some y.
Proof.
  intros H. apply String_match_parts in H.
  destruct H as (pre & post & st' & -> & M & Hg & Hpost).
  unfold group. rewrite Hg. clear Hg. revert M. generalize (matched m).
  intros w M. unfold ggRegex, source, ignoreCase, seq, fold_right in M.
  apply day_month_shape in M.
  destruct M as (d & c & o & ws & mo & ws' & wx & st1 & -> & Hd0 & Hd & Hc &
                 Hmo0 & Hmo & Hcaps & M).
  invM. simpl in Hcaps. subst. cbn [m_pos m_rest m_caps cap_get Nat.eqb].
  quant_bounds.
  match goal with
  | H : (4 <= length ?y)%nat |- _ =>
      exists pre, d, c, o, ws, mo, ws', y; eexists;
      rewrite app_nil_r; repeat rewrite <- app_assoc;
      repeat split; auto; [lia | eapply atom_digits; eassumption]
  end.
Qed.

Ltac norm_app :=
  repeat (rewrite <- app_assoc || rewrite <- app_comm_cons); cbn [app].

Lemma recurring_match_shape s m :
  String_match s recurringRegex = Some m ->
  exists pre d c o ws mo rest,
    s = pre ++ d ++ (c :: o) ++ ws ++ mo ++ rest /\
    d <> [] /\ Forall (fun c => isDigit c = true) d /\
    isLetter c = true /\
    mo <> [] /\ Forall (fun c => isWordChar c = true) mo /\
    group m 1 = Some d /\ group m 2 = Some mo.
Proof.
  intros H. apply String_match_parts in H.
  destruct H as (pre & post & st' & -> & M & Hg & Hpost).
  unfold group. rewrite Hg. clear Hg. revert M. generalize (matched m).
  intros w M. unfold recurringRegex, source, ignoreCase, seq, fold_right in M.
  apply day_month_shape in M.
  destruct M as (d & c & o & ws & mo & ws' & wx & st1 & -> & Hd0 & Hd & Hc &
                 Hmo0 & Hmo & Hcaps & M).
  assert (Hk : m_caps st' = m_caps st1).
  { eapply Matches_groupless; [exact M | reflexivity]. }
  rewrite Hk, Hcaps. simpl.
  exists pre, d, c, o, ws, mo, (ws' ++ wx ++ post).
  norm_app. repeat split; auto.
Qed.

Lemma length_zero_nil {A} (l : list A) : length l = 0%nat -> l = [].
Proof. destruct l; [reflexivity | discriminate]. Qed.

Lemma jp_match_shape s m :
  String_match s jpRegex = Some m ->
  exists y mo d,
    s = y ++ ch "/" :: mo ++ ch "/" :: d /\
    length y = 4%nat /\ Forall (fun c => isDigit c = true) y /\
    length mo = 2%nat /\ Forall (fun c => isDigit c = true) mo /\
    length d = 2%nat /\ Forall (fun c => isDigit c = true) d /\
    group m 1 = Some y /\ group m 2 = Some mo /\ group m 3 = Some d.
Proof.
  intros H. apply String_match_parts in H.
  destruct H as (pre & post & st' & -> & M & Hg & Hpost).
  unfold group. rewrite Hg. clear Hg. revert M. generalize (matched m).
  intros w M. unfold jpRegex, source, ignoreCase in M.
  invM. cbn [m_pos m_rest m_caps cap_get Nat.eqb] in *. quant_bounds.
  repeat match goal with
         | H : atom_matches false (Chr _) _ = true |- _ =>
             apply chr_exact in H; [subst | reflexivity]
         | H : length pre = 0%nat |- _ => apply length_zero_nil in H; subst pre
         end.
  subst. simpl.
  match goal with
  | H : (?y ++ _ :: ?mo ++ _ :: ?d ++ _) ++ _ = _ |- _ => exists y, mo, d
  end.
  norm_app. rewrite ?app_nil_r.
  repeat split; auto; try lia; try (eapply atom_digits; eassumption).
Qed.

Lemma kr_match_shape s m :
  String_match s krRegex = Some m ->
  exists y ws1 mo ws2 d dot,
    s = y ++ ch "." :: ws1 ++ mo ++ ch "." :: ws2 ++ d ++ dot /\
    length y = 4%nat /\ Forall (fun c => isDigit c = true) y /\
    Forall (fun c => isSpace c = true) ws1 /\
    length mo = 2%nat /\ Forall (fun c => isDigit c = true) mo /\
    Forall (fun c => isSpace c = true) ws2 /\
    length d = 2%nat /\ Forall (fun c => isDigit c = true) d /\
    (dot = [] \/ dot = [ch "."]) /\
    group m 1 = Some y /\ group m 2 = Some mo /\ group m 3 = Some d.
Proof.
  intros H. apply String_match_parts in H.
  destruct H as (pre & post & st' & -> & M & Hg & Hpost).
  unfold group. rewrite Hg. clear Hg. revert M. generalize (matched m).
  intros w M. unfold krRegex, source, ignoreCase in M.
  invM. cbn [m_pos m_rest m_caps cap_get Nat.eqb] in *. quant_bounds.
  repeat match goal with
         | H : atom_matches false (Chr _) _ = true |- _ =>
             apply chr_exact in H; [subst | reflexivity]
         | H : length pre = 0%nat |- _ => apply length_zero_nil in H; subst pre
         end.
  subst. simpl.
  match goal with
  | H : (?y ++ _ :: ?ws1 ++ ?mo ++ _ :: ?ws2 ++ ?d ++ ?dot ++ _) ++ _ = _ |- _ =>
      exists y, ws1, mo, ws2, d, dot
  end.
  norm_app. rewrite ?app_nil_r.
  repeat split; auto; try lia;
    try (eapply atom_digits; eassumption);
    try (eapply atom_spaces; eassumption).
  match goal with
  | H : Forall (fun c => atom_matches false (Chr _) c = true) ?dot,
    L : (length ?dot <= 1)%nat |- _ =>
      destruct dot as [|c [|? ?]]; simpl in L; try lia;
      [left; reflexivity |
       right; inversion H as [|? ? Hc ?]; subst;
       apply chr_exact in Hc; [subst; reflexivity | reflexivity]]
  end.
Qed.

(** What cannot match. *)

Lemma gg_needs_letter s :
  Forall (fun c => isLetter c = false) s -> String_match s ggRegex = None.
Proof.
  intros Hs. destruct (String_match s ggRegex) eqn:E; [|reflexivity].
  apply gg_match_shape in E.
  destruct E as (pre & d & c & o & ws & mo & ws' & y & post & -> & _ & _ & Hc & _).
  apply Forall_app in Hs. destruct Hs as [_ Hs].
  apply Forall_app in Hs. destruct Hs as [_ Hs].
  inversion Hs; subst. congruence.
Qed.

Lemma recurring_needs_letter s :
  Forall (fun c => isLetter c = false) s -> String_match s recurringRegex = None.
Proof.
  intros Hs. destruct (String_match s recurringRegex) eqn:E; [|reflexivity].
  apply recurring_match_shape in E.
  destruct E as (pre & d & c & o & ws & mo & rest & -> & _ & _ & Hc & _).
  apply Forall_app in Hs. destruct Hs as [_ Hs].
  apply Forall_app in Hs. destruct Hs as [_ Hs].
  inversion Hs; subst. congruence.
Qed.

Lemma jp_needs_slash s :
  ~ In (ch "/") s -> String_match s jpRegex = None.
Proof.
  intros Hs. destruct (String_match s jpRegex) eqn:E; [|reflexivity].
  apply jp_match_shape in E. destruct E as (y & mo & d & -> & _).
  exfalso. apply Hs. apply in_or_app. right. left. reflexivity.
Qed.

Lemma gg_needs_digit s :
  Forall (fun c => isDigit c = false) s -> String_match s ggRegex = None.
Proof.
  intros Hs. destruct (String_match s ggRegex) eqn:E; [|reflexivity].
  apply gg_match_shape in E.
  destruct E as (pre & d & c & o & ws & mo & ws' & y & post & -> & Hd0 & Hd & _).
  apply Forall_app in Hs. destruct Hs as [_ Hs].
  apply Forall_app in Hs. destruct Hs as [Hs _].
  destruct d; [congruence|]. inversion Hs; inversion Hd; subst. congruence.
Qed.

Lemma recurring_needs_digit s :
  Forall (fun c => isDigit c = false) s -> String_match s recurringRegex = None.
Proof.
  intros Hs. destruct (String_match s recurringRegex) eqn:E; [|reflexivity].
  apply recurring_match_shape in E.
  destruct E as (pre & d & c & o & ws & mo & rest & -> & Hd0 & Hd & _).
  apply Forall_app in Hs. destruct Hs as [_ Hs].
  apply Forall_app in Hs. destruct Hs as [Hs _].
  destruct d; [congruence|]. inversion Hs; inversion Hd; subst. congruence.
Qed.

Lemma jp_needs_digit s :
  Forall (fun c => isDigit c = false) s -> String_match s jpRegex = None.
Proof.
  intros Hs. destruct (String_match s jpRegex) eqn:E; [|reflexivity].
  apply jp_match_shape in E. destruct E as (y & mo & d & -> & Hl & Hy & _).
  apply Forall_app in Hs. destruct Hs as [Hs _].
  destruct y; [discriminate|]. inversion Hs; inversion Hy; subst. congruence.
Qed.

Lemma kr_needs_digit s :
  Forall (fun c => isDigit c = false) s -> String_match s krRegex = None.
Proof.
  intros Hs. destruct (String_match s krRegex) eqn:E; [|reflexivity].
  apply kr_match_shape in E.
  destruct E as (y & ws1 & mo & ws2 & d & dot & -> & Hl & Hy & _).
  apply Forall_app in Hs. destruct Hs as [Hs _].
  destruct y; [discriminate|]. inversion Hs; inversion Hy; subst. congruence.
Qed.



(** ** The normalizer on each supported shape *)

Lemma run_bol ic k rest caps res :
  k (MState 0 rest caps) = Some res ->
  rmatch ic RBol k (MState 0 rest caps) = Some res.
Proof. intros H. exact H. Qed.

Lemma run_eol ic k pos caps res :
  k (MState pos [] caps) = Some res ->
  rmatch ic REol k (MState pos [] caps) = Some res.
Proof. intros H. exact H. Qed.


Lemma jp_run y mo d :
  Forall (fun c => isDigit c = true) y -> length y = 4%nat ->
  Forall (fun c => isDigit c = true) mo -> length mo = 2%nat ->
  Forall (fun c => isDigit c = true) d -> length d = 2%nat ->
  exists m,
    String_match (y ++ ch "/" :: mo ++ ch "/" :: d) jpRegex = Some m /\
    groups m = [(3%nat, d); (2%nat, mo); (1%nat, y)].
Proof.
  intros Hy Ly Hmo Lmo Hd Ld.
  replace (y ++ ch "/" :: mo ++ ch "/" :: d)
    with (y ++ ch "/" :: mo ++ ch "/" :: d ++ [])
    by (rewrite app_nil_r; reflexivity).
  eexists. split.
  - apply String_match_here. unfold jpRegex, source, ignoreCase, seq, fold_right.
    apply run_seq, run_bol.
    apply run_seq, run_group_quant;
      [apply digits_atom, Hy | lia | intros ? [= <-]; lia
      | left; rewrite Ly; reflexivity | ].
    apply run_seq, run_atom; [reflexivity|].
    apply run_seq, run_group_quant;
      [apply digits_atom, Hmo | lia | intros ? [= <-]; lia
      | left; rewrite Lmo; reflexivity | ].
    apply run_seq, run_atom; [reflexivity|].
    apply run_seq, run_group_quant;
      [apply digits_atom, Hd | lia | intros ? [= <-]; lia
      | left; rewrite Ld; reflexivity | ].
    apply run_seq, run_eol, run_empty. reflexivity.
  - reflexivity.
Qed.

Lemma head_digit_not_space mo t :
  Forall (fun c => isDigit c = true) mo -> mo <> [] ->
  head_fails false space (mo ++ t).
Proof.
  intros H H0. destruct mo as [|c mo]; [congruence|].
  inversion H; subst. simpl. rewrite orb_false_r.
  apply digit_not_space. assumption.
Qed.

Lemma kr_run y ws1 mo ws2 d dot :
  Forall (fun c => isDigit c = true) y -> length y = 4%nat ->
  Forall (fun c => isSpace c = true) ws1 ->
  Forall (fun c => isDigit c = true) mo -> length mo = 2%nat ->
  Forall (fun c => isSpace c = true) ws2 ->
  Forall (fun c => isDigit c = true) d -> length d = 2%nat ->
  dot = [] \/ dot = [ch "."] ->
  exists m,
    String_match (y ++ ch "." :: ws1 ++ mo ++ ch "." :: ws2 ++ d ++ dot)
      krRegex = Some m /\
    groups m = [(3%nat, d); (2%nat, mo); (1%nat, y)].
Proof.
  intros Hy Ly Hw1 Hmo Lmo Hw2 Hd Ld Hdot.
  replace (y ++ ch "." :: ws1 ++ mo ++ ch "." :: ws2 ++ d ++ dot)
    with (y ++ ch "." :: ws1 ++ mo ++ ch "." :: ws2 ++ d ++ dot ++ [])
    by (rewrite app_nil_r; reflexivity).
  eexists. split.
  - apply String_match_here. unfold krRegex, source, ignoreCase, seq, fold_right.
    apply run_seq, run_bol.
    apply run_seq, run_group_quant;
      [apply digits_atom, Hy | lia | intros ? [= <-]; lia
      | left; rewrite Ly; reflexivity | ].
    apply run_seq, run_atom; [reflexivity|].
    apply run_seq, run_quant;
      [apply spaces_atom, Hw1 | lia | intros ? [=]
      | right; apply head_digit_not_space; [exact Hmo | intros ->; discriminate] | ].
    apply run_seq, run_group_quant;
      [apply digits_atom, Hmo | lia | intros ? [= <-]; lia
      | left; rewrite Lmo; reflexivity | ].
    apply run_seq, run_atom; [reflexivity|].
    apply run_seq, run_quant;
      [apply spaces_atom, Hw2 | lia | intros ? [=]
      | right; apply head_digit_not_space; [exact Hd | intros ->; discriminate] | ].
    apply run_seq, run_group_quant;
      [apply digits_atom, Hd | lia | intros ? [= <-]; lia
      | left; rewrite Ld; reflexivity | ].
    apply run_seq, run_quant.
    + destruct Hdot as [->| ->]; repeat constructor.
    + lia.
    + intros ? [= <-]. destruct Hdot as [->| ->]; simpl; lia.
    + right. exact I.
    + apply run_seq, run_eol, run_empty. reflexivity.
  - reflexivity.
Qed.

Lemma digit_not_slash c : isDigit c = true -> c <> ch "/".
Proof. unfold isDigit, ch. simpl. cmp_cases. Qed.

Lemma space_not_slash c : isSpace c = true -> c <> ch "/".
Proof.
  unfold isSpace, isWhiteSpace, isLineTerminator, ch. simpl. intros H E.
  subst c. discriminate H.
Qed.

Lemma space_not_letter c : isSpace c = true -> isLetter c = false.
Proof.
  intros H. destruct (isLetter c) eqn:E; [|reflexivity].
  apply letter_not_space in E. congruence.
Qed.

Lemma jp_needs_slash_all s :
  Forall (fun c => c <> ch "/") s -> String_match s jpRegex = None.
Proof.
  intros H. apply jp_needs_slash. intros Hin.
  rewrite Forall_forall in H. exact (H _ Hin eq_refl).
Qed.

Lemma Forall_weaken (P Q : char -> Prop) s :
  (forall c, P c -> Q c) -> Forall P s -> Forall Q s.
Proof. intros H. apply Forall_impl. exact H. Qed.

Lemma normalize_jp_shape now y mo d :
  digits y -> length y = 4%nat ->
  digits mo -> length mo = 2%nat ->
  digits d -> length d = 2%nat ->
  normalizeDateString now (y ++ ch "/" :: mo ++ ch "/" :: d)
  = Normal (Some (canonical y mo d)).
Proof.
  intros Hy Ly Hmo Lmo Hd Ld.
  assert (Hnl : Forall (fun c => isLetter c = false)
                  (y ++ ch "/" :: mo ++ ch "/" :: d)).
  { apply Forall_app. split; [|constructor; [reflexivity|]].
    - revert Hy. apply Forall_weaken, digit_not_letter.
    - apply Forall_app. split; [|constructor; [reflexivity|]].
      + revert Hmo. apply Forall_weaken, digit_not_letter.
      + revert Hd. apply Forall_weaken, digit_not_letter. }
  destruct (jp_run y mo d Hy Ly Hmo Lmo Hd Ld) as (m & Hm & Hg).
  unfold normalizeDateString. rewrite is_empty_app by (intros ->; discriminate Ly).
  cbn [first_return].
  rewrite (gg_needs_letter _ Hnl), (recurring_needs_letter _ Hnl), Hm.
  unfold group. rewrite Hg. reflexivity.
Qed.

Lemma normalize_kr_shape now y ws1 mo ws2 d dot :
  digits y -> length y = 4%nat -> spaces ws1 ->
  digits mo -> length mo = 2%nat -> spaces ws2 ->
  digits d -> length d = 2%nat ->
  dot = [] \/ dot = [ch "."] ->
  normalizeDateString now
    (y ++ ch "." :: ws1 ++ mo ++ ch "." :: ws2 ++ d ++ dot)
  = Normal (Some (canonical y mo d)).
Proof.
  intros Hy Ly Hw1 Hmo Lmo Hw2 Hd Ld Hdot.
  set (s := y ++ ch "." :: ws1 ++ mo ++ ch "." :: ws2 ++ d ++ dot).
  assert (Hboth : Forall (fun c => isLetter c = false /\ c <> ch "/") s).
  { assert (Dg : forall l, digits l ->
                   Forall (fun c => isLetter c = false /\ c <> ch "/") l).
    { intros l. apply Forall_weaken. intros c Hc.
      split; [apply digit_not_letter | apply digit_not_slash]; exact Hc. }
    assert (Sp : forall l, spaces l ->
                   Forall (fun c => isLetter c = false /\ c <> ch "/") l).
    { intros l. apply Forall_weaken. intros c Hc.
      split; [apply space_not_letter | apply space_not_slash]; exact Hc. }
    assert (Dot : (fun c => isLetter c = false /\ c <> ch "/") (ch ".")).
    { split; [reflexivity | discriminate]. }
    unfold s. destruct Hdot as [->| ->];
      repeat first [apply Forall_nil | apply Forall_cons
                   | (apply Forall_app; split)]; auto. }
  assert (Hnl : Forall (fun c => isLetter c = false) s).
  { revert Hboth. apply Forall_weaken. tauto. }
  assert (Hns : Forall (fun c => c <> ch "/") s).
  { revert Hboth. apply Forall_weaken. tauto. }
  destruct (kr_run y ws1 mo ws2 d dot Hy Ly Hw1 Hmo Lmo Hw2 Hd Ld Hdot)
    as (m & Hm & Hg). fold s in Hm.
  unfold normalizeDateString.
  replace (is_empty s) with false
    by (unfold s; symmetry; apply is_empty_app; intros ->; discriminate Ly).
  cbn [first_return].
  rewrite (gg_needs_letter _ Hnl), (recurring_needs_letter _ Hnl),
    (jp_needs_slash_all _ Hns), Hm.
  unfold group. rewrite Hg. reflexivity.
Qed.


Lemma normalize_identity now s :
  s <> [] -> no_rule_applies s -> normalizeDateString now s = Normal (Some s).
Proof.
  intros Hs (Hgg & Hrec & Hjp & Hkr).
  assert (Unknown : forall year m, month_unknown m ->
                      month_rule year m = Normal None).
  { intros year m (w & Hw & Hu). unfold month_rule. rewrite Hw. simpl.
    rewrite Hu. reflexivity. }
  unfold normalizeDateString.
  destruct s; [congruence|]. cbn [is_empty first_return].
  rewrite Hjp, Hkr.
  destruct (String_match _ ggRegex) as [m|] eqn:E1;
    [rewrite (Unknown _ _ (Hgg _ eq_refl))|];
    (destruct (String_match _ recurringRegex) as [m'|] eqn:E2;
     [rewrite (Unknown _ _ (Hrec _ eq_refl))|]); reflexivity.
Qed.

(** A text without any digit is returned as it is. *)
Lemma normalize_no_digit now s :
  s <> [] -> Forall (fun c => isDigit c = false) s ->
  normalizeDateString now s = Normal (Some s).
Proof.
  intros Hs Hd. apply normalize_identity; [exact Hs|].
  unfold no_rule_applies.
  rewrite (gg_needs_digit _ Hd), (recurring_needs_digit _ Hd),
    (jp_needs_digit _ Hd), (kr_needs_digit _ Hd).
  repeat split; intros; discriminate.
Qed.

(** The first rule decides whenever it applies, whatever the later rules
    would do. *)
Lemma normalize_first_rule now s m day month mm :
  String_match s ggRegex = Some m ->
  group m 1 = Some day -> group m 2 = Some month ->
  month_number month mm ->
  normalizeDateString now s
  = Normal (Some (canonical (tpl (group m 3)) mm (padStart 2 (ch "0") day))).
Proof.
  intros Hm Hday Hmonth Hmm.
  destruct (monthMap_facts _ _ Hmm) as (Hget & Htrue & _).
  unfold normalizeDateString.
  assert (s <> []).
  { intros ->. vm_compute in Hm. discriminate. }
  destruct s; [congruence|]. cbn [is_empty first_return].
  rewrite Hm. unfold month_rule. rewrite Hday, Hmonth.
  cbn [method bind]. rewrite Hget, Htrue. reflexivity.
Qed.

Lemma normalize_returns_string now s :
  s <> [] -> exists r, normalizeDateString now s = Normal (Some r).
Proof.
  intros Hs. destruct (normalizeDateString_steps_normal now s) as [r Hr].
  destruct r as [r|]; [eauto|]. exfalso.
  unfold normalizeDateString in Hr. destruct s; [congruence|].
  cbn [is_empty] in Hr. apply first_return_inv in Hr.
  destruct Hr as [Hr|Hin]; [discriminate|].
  simpl in Hin. destruct Hin as [H|[H|[H|[H|[]]]]].
  - destruct (String_match _ ggRegex); [|discriminate].
    unfold month_rule in H. destruct (group m 2); [|discriminate].
    simpl in H. destruct (ToBoolean _); [|discriminate].
    destruct (group m 1); discriminate.
  - destruct (String_match _ recurringRegex); [|discriminate].
    unfold month_rule in H. destruct (group m 2); [|discriminate].
    simpl in H. destruct (ToBoolean _); [|discriminate].
    destruct (group m 1); discriminate.
  - destruct (String_match _ jpRegex); discriminate.
  - destruct (String_match _ krRegex); discriminate.
Qed.

(** ** Strings of the record are trimmed *)

Lemma number_to_string_head z :
  exists a t, number_to_string z = a :: t /\ isSpace a = false.
Proof.
  unfold number_to_string.
  destruct (Z.to_int z) as [d|d]; destruct d; simpl;
    eexists _, _; split; reflexivity.
Qed.

(** A text that opens with a character that is no white space and closes
    with [T00:00:00Z] is clean and not empty. *)
Lemma canonical_clean a y mm dd :
  isSpace a = false ->
  clean (canonical (a :: y) mm dd) /\ canonical (a :: y) mm dd <> [].
Proof.
  intros Ha. split; [|discriminate].
  unfold canonical.
  replace ((a :: y) ++ dash ++ mm ++ dash ++ dd ++ T00)
    with (a :: (y ++ dash ++ mm ++ dash ++ dd ++ js "T00:00:00") ++ [ch "Z"]).
  - apply clean_ends; [exact Ha | reflexivity].
  - norm_app. reflexivity.
Qed.

Lemma digits_head_clean y mm dd :
  digits y -> length y = 4%nat ->
  clean (canonical y mm dd) /\ canonical y mm dd <> [].
Proof.
  intros Hy Ly. destruct y as [|a y]; [discriminate|].
  apply canonical_clean. inversion Hy; subst. apply digit_not_space. assumption.
Qed.

Lemma month_rule_clean a y m d :
  isSpace a = false ->
  month_rule (a :: y) m = Normal (Some (Some d)) ->
  clean d /\ d <> [].
Proof.
  intros Ha. unfold month_rule.
  destruct (group m 2) as [mo|]; [|discriminate]. simpl.
  destruct (ToBoolean _); [|discriminate].
  destruct (group m 1) as [day|]; [|discriminate]. simpl.
  intros [= <-]. apply (canonical_clean a y _ _ Ha).
Qed.

Lemma normalize_clean now raw d :
  clean raw ->
  normalizeDateString now raw = Normal (Some d) ->
  clean d /\ d <> [].
Proof.
  intros Hraw. unfold normalizeDateString.
  destruct raw as [|r0 raw]; [discriminate|]. cbn [is_empty]. intros H.
  apply first_return_inv in H. destruct H as [[= ->]|Hin].
  { split; [exact Hraw | discriminate]. }
  simpl in Hin. destruct Hin as [H|[H|[H|[H|[]]]]].
  - destruct (String_match _ ggRegex) as [m|] eqn:E; [|discriminate].
    apply gg_match_shape in E.
    destruct E as (pre & dd & c & o & ws & mo & ws' & y & post & _ & _ & _ & _ &
                   _ & _ & Ly & Hy & _ & _ & H3).
    rewrite H3 in H. simpl in H.
    destruct y as [|a y]; [discriminate|]. inversion Hy; subst.
    eapply month_rule_clean; [|exact H]. apply digit_not_space. assumption.
  - destruct (String_match _ recurringRegex) as [m|]; [|discriminate].
    destruct (number_to_string_head (now + 1)) as (a & t & E & Ha).
    rewrite E in H. eapply month_rule_clean; eassumption.
  - destruct (String_match _ jpRegex) as [m|] eqn:E; [|discriminate].
    apply jp_match_shape in E.
    destruct E as (y & mo & dd & _ & Ly & Hy & _ & _ & _ & _ & H1 & H2 & H3).
    rewrite H1, H2, H3 in H. simpl in H. injection H as <-.
    apply (digits_head_clean y mo dd Hy Ly).
  - destruct (String_match _ krRegex) as [m|] eqn:E; [|discriminate].
    apply kr_match_shape in E.
    destruct E as (y & ws1 & mo & ws2 & dd & dot & _ & Ly & Hy & _ & _ & _ & _ &
                   _ & _ & _ & H1 & H2 & H3).
    rewrite H1, H2, H3 in H. simpl in H. injection H as <-.
    apply (digits_head_clean y mo dd Hy Ly).
Qed.

Lemma parseDate_clean text now patterns d :
  parseDate text now patterns = Normal (Some d) -> trimmed d /\ d <> [].
Proof.
  unfold parseDate. intros H. apply first_return_inv in H.
  destruct H as [H|Hin]; [discriminate|].
  apply in_map_iff in Hin. destruct Hin as (p & Hstep & _).
  destruct (String_match text p) as [m|]; [|discriminate].
  destruct (group m 1) as [v|]; [|discriminate]. simpl in Hstep.
  destruct (normalizeDateString now (trim v)) as [r|] eqn:E; [|discriminate].
  simpl in Hstep. injection Hstep as ->.
  destruct (normalize_clean now (trim v) d (trim_clean v) E) as [Hc Hn].
  split; [apply clean_trimmed, Hc | exact Hn].
Qed.

Lemma parseField_trimmed text field alts v :
  parseField text field alts = Normal (Some v) -> trimmed v.
Proof.
  unfold parseField. intros H. apply first_return_inv in H.
  destruct H as [H|Hin]; [discriminate|].
  apply in_flat_map in Hin. destruct Hin as (f & _ & [Hstep|[Hstep|[]]]).
  - destruct (String_match text (colonFieldRegex f)) as [m|]; [|discriminate].
    destruct (group m 1) as [x|]; [|discriminate]. simpl in Hstep.
    injection Hstep as <-. apply trim_trimmed.
  - destruct (String_match text (bracketFieldRegex f)) as [m|]; [|discriminate].
    destruct (group m 1) as [x|]; [|discriminate]. simpl in Hstep.
    injection Hstep as <-. apply trim_trimmed.
Qed.

(** ** Texts that hold a label *)

Lemma lit_cons c p : lit (c :: p) = RSeq (RAtom (Chr c)) (lit p).
Proof. reflexivity. Qed.

Lemma Matches_lit ic : forall p st w st',
  Matches ic (lit p) st w st' -> spelled ic p w.
Proof.
  induction p as [|c p IH]; intros st w st' M.
  - inversion M; subst. constructor.
  - rewrite lit_cons in M.
    inversion M as [| | |? ? ? w1 ? w2 ? M1 M2| | | | | |]; subst.
    inversion M1; subst. simpl. constructor; [assumption|].
    eapply IH; eassumption.
Qed.

Lemma search_finds re : forall a pos rest m,
  match_at re (pos + length a) rest = Some m ->
  exists m', search re pos (a ++ rest) = Some m'.
Proof.
  induction a as [|c a IH]; intros pos rest m H; simpl in *.
  - rewrite Nat.add_0_r in H. exists m. apply search_here. exact H.
  - destruct (match_at re pos (c :: a ++ rest)); [eauto|].
    apply (IH (S pos) rest m).
    replace (S pos + length a)%nat with (pos + S (length a))%nat by lia.
    exact H.
Qed.

(** A text in which the label occurs is a text the label's pattern
    matches. *)
Lemma occurs_mentions p s : occurs p s -> mentions p s = true.
Proof.
  intros (a & w & b & -> & Hw). unfold mentions, String_match.
  destruct (search_finds (mkRegExp (lit p) true) a 0 (w ++ b)
              (MatchResult (length a) (firstn (length a + length w - length a) (w ++ b)) []))
    as [m' ->]; [|reflexivity].
  unfold match_at. simpl.
  rewrite (run_lit true Some (MState (length a + length w) b []) p w (length a) b []
             Hw eq_refl).
  reflexivity.
Qed.

Lemma not_mentioned p s : mentions p s = false -> ~ occurs p s.
Proof. intros H Ho. apply occurs_mentions in Ho. congruence. Qed.

Lemma spelled_app ic p1 p2 w1 w2 :
  spelled ic p1 w1 -> spelled ic p2 w2 -> spelled ic (p1 ++ p2) (w1 ++ w2).
Proof. apply Forall2_app. Qed.

Lemma occurs_inside p a s b : occurs p s -> occurs p (a ++ s ++ b).
Proof.
  intros (a' & w & b' & -> & Hw). exists (a ++ a'), w, (b' ++ b).
  split; [|exact Hw]. repeat rewrite <- app_assoc. reflexivity.
Qed.

Lemma infix_app_r v a s : infix v s -> infix v (a ++ s).
Proof.
  intros (x & y & ->). exists (a ++ x), y. rewrite <- app_assoc. reflexivity.
Qed.

Lemma infix_trans u v s : infix u v -> infix v s -> infix u s.
Proof.
  intros (a & b & ->) (c & d & ->). exists (c ++ a), (b ++ d).
  repeat rewrite <- app_assoc. reflexivity.
Qed.

Lemma occurs_infix p v s : occurs p v -> infix v s -> occurs p s.
Proof. intros Ho (a & b & ->). apply occurs_inside. exact Ho. Qed.

(** A capture is a piece of the input. *)
Lemma Matches_caps_infix ic r st w st' :
  Matches ic r st w st' ->
  forall n v, cap_get n (m_caps st') = Some v ->
    cap_get n (m_caps st) = Some v \/ infix v (m_rest st).
Proof.
  induction 1; intros k v Hv; simpl in *; auto.
  - destruct (IHMatches2 _ _ Hv) as [Hin|Hin]; [auto|].
    right. destruct (Matches_consumes _ _ _ _ _ H) as [E _]. rewrite E.
    apply infix_app_r. exact Hin.
  - destruct (Nat.eqb n k); [|auto].
    injection Hv as <-. right.
    destruct (Matches_consumes _ _ _ _ _ H) as [E _]. rewrite E.
    exists [], (m_rest st'). reflexivity.
Qed.

Lemma String_match_capture_infix s re m n v :
  String_match s re = Some m -> group m n = Some v -> infix v s.
Proof.
  intros H Hv. apply String_match_sound in H.
  destruct H as (sk & rest' & st' & -> & M & _ & Hg).
  unfold group in Hv. rewrite Hg in Hv.
  destruct (Matches_caps_infix _ _ _ _ _ M _ _ Hv) as [Hin|Hin];
    [discriminate|].
  apply infix_app_r. exact Hin.
Qed.

Lemma trim_infix v : infix (trim v) v.
Proof.
  unfold trim, trimEnd.
  destruct (trimStart_suffix v) as [p Hp].
  destruct (trimStart_suffix (rev (trimStart v))) as [q Hq].
  apply (f_equal (@rev _)) in Hq. rewrite rev_involutive, rev_app_distr in Hq.
  exists p, (rev q). rewrite <- Hq. exact Hp.
Qed.

(** The recurring pattern matches only a text that holds [each year]. *)
Lemma recurring_mentions s m :
  String_match s recurringRegex = Some m -> occurs (js "each year") s.
Proof.
  intros H. apply String_match_parts in H.
  destruct H as (pre & post & st' & -> & M & _ & _).
  apply occurs_inside. revert M. generalize (matched m).
  intros w M. unfold recurringRegex, source, ignoreCase, seq, fold_right in M.
  apply day_month_shape in M.
  destruct M as (d & c & o & ws & mo & ws' & wx & st1 & -> & _ & _ & _ & _ & _ &
                 _ & M).
  inversion M as [| | |? ? ? w1 ? w2 ? M1 M2| | | | | |]; subst.
  apply Matches_lit in M1. inversion M2; subst.
  exists (d ++ (c :: o) ++ ws ++ mo ++ ws'), w1, [].
  split; [|exact M1]. repeat rewrite <- app_assoc. reflexivity.
Qed.

Lemma normalize_without_each_year y1 y2 s :
  mentions (js "each year") s = false ->
  normalizeDateString y1 s = normalizeDateString y2 s.
Proof.
  intros H. unfold normalizeDateString.
  destruct (String_match s recurringRegex) as [m|] eqn:E; [|reflexivity].
  apply recurring_mentions, occurs_mentions in E. congruence.
Qed.

Lemma parseDate_without_each_year text y1 y2 patterns :
  mentions (js "each year") text = false ->
  parseDate text y1 patterns = parseDate text y2 patterns.
Proof.
  intros H. unfold parseDate. f_equal. apply map_ext. intros p.
  destruct (String_match text p) as [m|] eqn:E; [|reflexivity].
  destruct (group m 1) as [v|] eqn:Ev; [|reflexivity]. simpl.
  rewrite (normalize_without_each_year y1 y2 (trim v)); [reflexivity|].
  destruct (mentions (js "each year") (trim v)) eqn:Em; [|reflexivity].
  exfalso. apply (not_mentioned _ _ H).
  assert (Ho : occurs (js "each year") (trim v)).
  { unfold mentions in Em.
    destruct (String_match (trim v) (mkRegExp (lit (js "each year")) true))
      as [m'|] eqn:E'; [|discriminate].
    apply String_match_parts in E'.
    destruct E' as (pre & post & st' & -> & M & _). simpl in M.
    apply Matches_lit in M. exists pre, (matched m'), post. auto. }
  eapply occurs_infix; [exact Ho|].
  eapply infix_trans; [apply trim_infix|].
  eapply String_match_capture_infix; eassumption.
Qed.

Lemma parseWhoisData_without_each_year text fallback y1 y2 :
  mentions (js "each year") text = false ->
  parseWhoisData text y1 fallback = parseWhoisData text y2 fallback.
Proof.
  intros H. unfold parseWhoisData, parseCreationDate, parseExpiryDate.
  rewrite (parseDate_without_each_year text y1 y2 creationPatterns H).
  rewrite (parseDate_without_each_year text y1 y2 expiryPatterns H).
  reflexivity.
Qed.

(** Without the label [Domain Status:] no status is found, whatever other
    status lines the text has. *)
Lemma parseStatus_without_label text :
  mentions (js "Domain Status:") text = false ->
  parseStatus text = Normal None.
Proof.
  intros H.
  assert (Block : String_match text statusSectionRegex = None).
  { destruct (String_match text statusSectionRegex) as [m|] eqn:E;
      [|reflexivity].
    exfalso. apply (not_mentioned _ _ H).
    apply String_match_parts in E.
    destruct E as (pre & post & st' & -> & M & _).
    apply occurs_inside. revert M. generalize (matched m). intros w M.
    unfold statusSectionRegex, source, ignoreCase, seq, fold_right in M.
    inversion M as [| | |? ? ? w1 ? w2 ? M1 M2| | | | | |]; subst.
    apply Matches_lit in M1. exists [], w1, w2. auto. }
  assert (Lines : String_match_g text (multiFieldRegex (js "Domain Status"))
                  = None).
  { destruct (String_match_g text (multiFieldRegex (js "Domain Status")))
      as [l|] eqn:E; [|reflexivity].
    exfalso. apply (not_mentioned _ _ H).
    destruct l as [|x l];
      [destruct (String_match_g_nonempty _ _ _ E eq_refl)|].
    destruct (String_match_g_sound _ _ _ x E (or_introl eq_refl))
      as (sk & post & st' & -> & M).
    apply occurs_inside. revert M. generalize x. intros w M.
    unfold multiFieldRegex, source, ignoreCase, seq, fold_right in M.
    inversion M as [| | |? ? ? w1 ? w2 ? M1 M2| | | | | |]; subst.
    apply Matches_lit in M1.
    inversion M2 as [| | |? ? ? w3 ? w4 ? M3 M4| | | | | |]; subst.
    inversion M3; subst.
    exists [], (w1 ++ [c]), w4. split.
    - simpl. rewrite <- app_assoc. reflexivity.
    - change (js "Domain Status:") with (js "Domain Status" ++ [ch ":"]).
      apply spelled_app; [exact M1 | constructor; [assumption | constructor]]. }
  unfold parseStatus, parseMultipleFields. rewrite Block, Lines. reflexivity.
Qed.
(* ------------------------------------------------------------------ *)
(** * The claims *)

Ltac in_list :=
  unfold ordinal_suffix, month_number; simpl;
  repeat ((left; reflexivity) || right).

(** C1, as stated, fails on the empty string: the normalizer opens with
    [if (!dateStr) return null], so the empty string is answered by [null],
    neither by a string nor by the input itself. *)
Lemma normalizeDateString_empty_is_null :
  normalizeDateString 2025 [] = Normal None /\
  ~ (exists r, normalizeDateString 2025 [] = Normal (Some r)).
Proof.
  split; [reflexivity|]. intros [r H]. discriminate H.
Qed.

(** C1 (amended).  For every input string that is not empty the date
    normalizer returns a string and does not throw, and the empty string
    gives null.  The rules are tried in order and the first that applies
    decides.  Each supported shape -- day, ordinal suffix, English month name
    in any case and four-digit year; [YYYY/MM/DD]; [YYYY. MM. DD.] with any
    white space after the dots and an optional last dot -- gives
    [YYYY-MM-DDT00:00:00Z] with the day padded to two digits, in particular
    on the three examples of the specification.  An input that is not empty
    and to which no rule applies is returned unchanged; such is every text
    without a digit. *)
Theorem normalizeDateString_shapes (now : Z) :
  (forall s, s <> [] -> exists r, normalizeDateString now s = Normal (Some r)) /\
  normalizeDateString now [] = Normal None /\
  (forall s m day month mm,
     String_match s ggRegex = Some m ->
     group m 1 = Some day -> group m 2 = Some month -> month_number month mm ->
     normalizeDateString now s
     = Normal (Some (canonical (tpl (group m 3)) mm (padStart 2 (ch "0") day)))) /\
  (forall day ord month mm year,
     digits day -> day <> [] -> ordinal_suffix ord -> month_number month mm ->
     digits year -> length year = 4%nat ->
     normalizeDateString now (day ++ ord ++ ch " " :: month ++ ch " " :: year)
     = Normal (Some (canonical year mm (padStart 2 (ch "0") day)))) /\
  (forall y mo d,
     digits y -> length y = 4%nat -> digits mo -> length mo = 2%nat ->
     digits d -> length d = 2%nat ->
     normalizeDateString now (y ++ ch "/" :: mo ++ ch "/" :: d)
     = Normal (Some (canonical y mo d))) /\
  (forall y ws1 mo ws2 d dot,
     digits y -> length y = 4%nat -> spaces ws1 ->
     digits mo -> length mo = 2%nat -> spaces ws2 ->
     digits d -> length d = 2%nat -> dot = [] \/ dot = [ch "."] ->
     normalizeDateString now
       (y ++ ch "." :: ws1 ++ mo ++ ch "." :: ws2 ++ d ++ dot)
     = Normal (Some (canonical y mo d))) /\
  (forall s, s <> [] -> no_rule_applies s ->
     normalizeDateString now s = Normal (Some s)) /\
  (forall s, s <> [] -> Forall (fun c => isDigit c = false) s ->
     normalizeDateString now s = Normal (Some s)) /\
  normalizeDateString now (js "30th April 2003")
    = Normal (Some (js "2003-04-30T00:00:00Z")) /\
  normalizeDateString now (js "2005/05/30")
    = Normal (Some (js "2005-05-30T00:00:00Z")) /\
  normalizeDateString now (js "2007. 03. 02.")
    = Normal (Some (js "2007-03-02T00:00:00Z")).
Proof.
  split; [apply normalize_returns_string|].
  split; [reflexivity|].
  split; [intros; eapply normalize_first_rule; eassumption|].
  split; [intros; apply normalize_gg_shape; assumption|].
  split; [intros; apply normalize_jp_shape; assumption|].
  split; [intros; apply normalize_kr_shape; assumption|].
  split; [apply normalize_identity|].
  split; [apply normalize_no_digit|].
  split; [|split].
  - apply (normalize_gg_shape now (js "30") (js "th") (js "April") (js "04")
             (js "2003"));
      [repeat constructor | discriminate | in_list | in_list
      | repeat constructor | reflexivity].
  - apply (normalize_jp_shape now (js "2005") (js "05") (js "30"));
      repeat constructor.
  - apply (normalize_kr_shape now (js "2007") (js " ") (js "03") (js " ")
             (js "02") (js "."));
      try (right; reflexivity); repeat constructor.
Qed.

Lemma normalizeDateString_shapes_witness :
  normalizeDateString 2025 (js "5th MAY 2003")
  = Normal (Some (js "2003-05-05T00:00:00Z")).
Proof.
  apply (proj1 (proj2 (proj2 (proj2 (normalizeDateString_shapes 2025))))
           (js "5") (js "th") (js "MAY") (js "05") (js "2003")).
  - repeat constructor.
  - discriminate.
  - in_list.
  - in_list.
  - repeat constructor.
  - reflexivity.
Defined.





(** C10.  The normalizer validates no calendar: four, two and two digits
    in the shape [YYYY/MM/DD] or [YYYY. MM. DD.] are copied as they are, and
    the ordinal rule takes any run of digits for the day; so
    [2005/99/99], [2007. 99. 99.] and [99th April 2003] all give a
    canonical-looking text that is no date. *)
Theorem no_calendar_validation (now : Z) :
  (forall y mo d,
     digits y -> length y = 4%nat -> digits mo -> length mo = 2%nat ->
     digits d -> length d = 2%nat ->
     normalizeDateString now (y ++ ch "/" :: mo ++ ch "/" :: d)
     = Normal (Some (y ++ dash ++ mo ++ dash ++ d ++ js "T00:00:00Z"))) /\
  (forall y ws1 mo ws2 d dot,
     digits y -> length y = 4%nat -> spaces ws1 ->
     digits mo -> length mo = 2%nat -> spaces ws2 ->
     digits d -> length d = 2%nat -> dot = [] \/ dot = [ch "."] ->
     normalizeDateString now
       (y ++ ch "." :: ws1 ++ mo ++ ch "." :: ws2 ++ d ++ dot)
     = Normal (Some (y ++ dash ++ mo ++ dash ++ d ++ js "T00:00:00Z"))) /\
  (forall day ord month mm year,
     digits day -> day <> [] -> ordinal_suffix ord -> month_number month mm ->
     digits year -> length year = 4%nat ->
     normalizeDateString now (day ++ ord ++ ch " " :: month ++ ch " " :: year)
     = Normal (Some (year ++ dash ++ mm ++ dash ++ padStart 2 (ch "0") day
                       ++ js "T00:00:00Z"))) /\
  normalizeDateString now (js "2005/99/99")
    = Normal (Some (js "2005-99-99T00:00:00Z")) /\
  normalizeDateString now (js "2007. 99. 99.")
    = Normal (Some (js "2007-99-99T00:00:00Z")) /\
  normalizeDateString now (js "99th April 2003")
    = Normal (Some (js "2003-04-99T00:00:00Z")).
Proof.
  split; [intros; apply normalize_jp_shape; assumption|].
  split; [intros; apply normalize_kr_shape; assumption|].
  split; [intros; apply normalize_gg_shape; assumption|].
  split; [|split].
  - apply (normalize_jp_shape now (js "2005") (js "99") (js "99"));
      repeat constructor.
  - apply (normalize_kr_shape now (js "2007") (js " ") (js "99") (js " ")
             (js "99") (js "."));
      try (right; reflexivity); repeat constructor.
  - apply (normalize_gg_shape now (js "99") (js "th") (js "April") (js "04")
             (js "2003"));
      [repeat constructor | discriminate | in_list | in_list
      | repeat constructor | reflexivity].
Qed.

Lemma no_calendar_validation_witness :
  normalizeDateString 2025 (js "1999/13/42")
    = Normal (Some (js "1999-13-42T00:00:00Z")) /\
  normalizeDateString 2025 (js "1999.13.00")
    = Normal (Some (js "1999-13-00T00:00:00Z")) /\
  normalizeDateString 2025 (js "731st February 2003")
    = Normal (Some (js "2003-02-731T00:00:00Z")).
Proof.
  split; [|split].
  - apply (proj1 (no_calendar_validation 2025) (js "1999") (js "13") (js "42"));
      repeat constructor.
  - apply (proj1 (proj2 (no_calendar_validation 2025))
             (js "1999") [] (js "13") [] (js "00") []);
      try (left; reflexivity); repeat constructor.
  - apply (proj1 (proj2 (proj2 (no_calendar_validation 2025)))
             (js "731") (js "st") (js "February") (js "02") (js "2003"));
      [repeat constructor | discriminate | in_list | in_list
      | repeat constructor | reflexivity].
Defined.

(** C6, as stated, fails.  A label followed by white space only makes
    [parseField] return the empty string, so that the registrar is the empty
    string and not null; and a fallback domain is handed on as it is,
    trimmed or not. *)
Lemma empty_and_untrimmed_fields :
  (exists r, parseWhoisData (js "Registrar: ") 2025 None = Normal r /\
             registrar r = Some []) /\
  (exists r, parseWhoisData [] 2025 (Some (js " example.ac ")) = Normal r /\
             domainName r = Some (js " example.ac ") /\
             ~ trimmed (js " example.ac ")).
Proof.
  split.
  - eexists. split; [vm_compute; reflexivity | reflexivity].
  - eexists. split; [vm_compute; reflexivity|].
    split; [reflexivity|]. intros H. vm_compute in H. discriminate H.
Qed.

(** C6 (amended).  For every raw text and fallback domain the record is
    returned, and in it: a registrar, registrant, dnssec or lastModified that
    is not null is a trimmed string; a creationDate or expirationDate that is
    not null is a trimmed string and not the empty one; the domainName is
    either the fallback domain as it was given or a parsed string that is
    trimmed and not empty. *)
Theorem record_strings_trimmed (whoisText : jsstring) (now : Z)
  (fallback : option jsstring) :
  exists r,
    parseWhoisData whoisText now fallback = Normal r /\
    (forall s, registrar r = Some s -> trimmed s) /\
    (forall s, registrant r = Some s -> trimmed s) /\
    (forall s, dnssec r = Some s -> trimmed s) /\
    (forall s, lastModified r = Some s -> trimmed s) /\
    (forall s, creationDate r = Some s -> trimmed s /\ s <> []) /\
    (forall s, expirationDate r = Some s -> trimmed s /\ s <> []) /\
    (domainName r = fallback \/
     exists s, domainName r = Some s /\ trimmed s /\ s <> []).
Proof.
  destruct (parseWhoisData_normal whoisText now fallback) as [r Hr].
  exists r. split; [exact Hr|].
  apply parseWhoisData_inv in Hr.
  destruct Hr as (pd & Hpd & Hdom & Hreg & Hcd & Hed & _ & Hrt & _ & Hds & Hlm).
  split; [|split; [|split; [|split; [|split; [|split]]]]].
  - intros s E. rewrite E in Hreg. eapply parseField_trimmed; exact Hreg.
  - intros s E. rewrite E in Hrt. eapply parseField_trimmed; exact Hrt.
  - intros s E. rewrite E in Hds. eapply parseField_trimmed; exact Hds.
  - intros s E. rewrite E in Hlm. eapply parseField_trimmed; exact Hlm.
  - intros s E. rewrite E in Hcd. eapply parseDate_clean; exact Hcd.
  - intros s E. rewrite E in Hed. eapply parseDate_clean; exact Hed.
  - rewrite Hdom. destruct pd as [[|c s]|]; simpl; auto.
    right. exists (c :: s). split; [reflexivity|].
    split; [eapply parseField_trimmed; exact Hpd | discriminate].
Qed.

Lemma record_strings_trimmed_witness :
  trimmed (js "Example Registrar, Inc.") /\
  trimmed (js "2003-04-30T00:00:00Z") /\ js "2003-04-30T00:00:00Z" <> [].
Proof.
  destruct (record_strings_trimmed
              (js "Registrar:   Example Registrar, Inc.  ") 2025 None)
    as (r & Hr & Hreg & _).
  destruct (record_strings_trimmed
              (js "Registered on 30th April 2003 ") 2025 None)
    as (r' & Hr' & _ & _ & _ & _ & Hcd & _).
  vm_compute in Hr. injection Hr as <-.
  vm_compute in Hr'. injection Hr' as <-.
  split; [apply Hreg; reflexivity | apply Hcd; reflexivity].
Defined.

(** C7, as stated, fails.  The same text parsed in two different calendar
    years gives two different records: the recurring due date is resolved
    against the clock. *)
Lemma record_depends_on_the_year :
  exists r1 r2,
    parseWhoisData (js "Registry fee due on 30th April each year") 2025 None
      = Normal r1 /\
    parseWhoisData (js "Registry fee due on 30th April each year") 2026 None
      = Normal r2 /\
    expirationDate r1 = Some (js "2026-04-30T00:00:00Z") /\
    expirationDate r2 = Some (js "2027-04-30T00:00:00Z") /\
    r1 <> r2.
Proof.
  do 2 eexists.
  split; [vm_compute; reflexivity|].
  split; [vm_compute; reflexivity|].
  split; [reflexivity|]. split; [reflexivity|]. discriminate.
Qed.

Lemma normalize_year_independent y1 y2 s :
  String_match s recurringRegex = None ->
  normalizeDateString y1 s = normalizeDateString y2 s.
Proof.
  intros H. unfold normalizeDateString. rewrite H. reflexivity.
Qed.

(** C7 (amended).  [parseWhoisData] is a function of the raw text, the
    fallback domain and the calendar year in which it is called.  Two calls
    with the same text and fallback return records that agree in
    domainName, registrar, nameservers, registrant, status, dnssec and
    lastModified whatever the years of the calls; they are the same record
    when the calls fall in the same year, and also when the text nowhere
    holds the words [each year]; and the normalizer does not look at the
    year on any date text that the recurring pattern does not match. *)
Theorem record_determined_up_to_year (whoisText : jsstring)
  (fallback : option jsstring) (year1 year2 : Z) :
  exists r1 r2,
    parseWhoisData whoisText year1 fallback = Normal r1 /\
    parseWhoisData whoisText year2 fallback = Normal r2 /\
    domainName r1 = domainName r2 /\
    registrar r1 = registrar r2 /\
    nameservers r1 = nameservers r2 /\
    registrant r1 = registrant r2 /\
    status r1 = status r2 /\
    dnssec r1 = dnssec r2 /\
    lastModified r1 = lastModified r2 /\
    (year1 = year2 -> r1 = r2) /\
    (mentions (js "each year") whoisText = false -> r1 = r2) /\
    (forall s, String_match s recurringRegex = None ->
               normalizeDateString year1 s = normalizeDateString year2 s).
Proof.
  destruct (parseWhoisData_normal whoisText year1 fallback) as [r1 H1].
  destruct (parseWhoisData_normal whoisText year2 fallback) as [r2 H2].
  exists r1, r2. split; [exact H1|]. split; [exact H2|].
  assert (Same : year1 = year2 -> r1 = r2).
  { intros E. subst year2. congruence. }
  assert (Plain : mentions (js "each year") whoisText = false -> r1 = r2).
  { intros E.
    rewrite (parseWhoisData_without_each_year whoisText fallback year1 year2 E)
      in H1.
    congruence. }
  apply parseWhoisData_inv in H1, H2.
  destruct H1 as (pd1 & Hpd1 & Hdom1 & Hreg1 & _ & _ & Hns1 & Hrt1 & Hst1 &
                  Hds1 & Hlm1).
  destruct H2 as (pd2 & Hpd2 & Hdom2 & Hreg2 & _ & _ & Hns2 & Hrt2 & Hst2 &
                  Hds2 & Hlm2).
  split; [rewrite Hdom1, Hdom2; congruence|].
  split; [congruence|]. split; [congruence|]. split; [congruence|].
  split; [congruence|]. split; [congruence|]. split; [congruence|].
  split; [exact Same|]. split; [exact Plain|].
  intros s Hs. apply normalize_year_independent. exact Hs.
Qed.

Lemma record_determined_up_to_year_witness :
  parseWhoisData (js "Domain Name: example.kr Registered Date : 2007. 03. 02.")
    1999 None
  = parseWhoisData (js "Domain Name: example.kr Registered Date : 2007. 03. 02.")
      2025 None.
Proof.
  destruct (record_determined_up_to_year
              (js "Domain Name: example.kr Registered Date : 2007. 03. 02.")
              None 1999 2025)
    as (r1 & r2 & H1 & H2 & _ & _ & _ & _ & _ & _ & _ & _ & H & _).
  rewrite H1, H2. f_equal. apply H. reflexivity.
Defined.

(** C2 fails on the code: [parseMultipleFields] answers a label without
    match by the empty array, which is truthy, so that the chain of [||]
    stops at its first operand and the labels [Status] and [state] are never
    consulted.  Every text without the label [Domain Status:] gets a null
    status, whatever lines [Status:] or [state:] it has; so does the text
    whose only status line is [Status: active], although the extractor
    called with [Status] finds the value. *)
Theorem status_synonyms_never_consulted :
  (forall text now fallback,
     mentions (js "Domain Status:") text = false ->
     exists r, parseWhoisData text now fallback = Normal r /\ status r = None) /\
  parseMultipleFields (js "Status: active") (js "Domain Status") = Normal [] /\
  parseMultipleFields (js "Status: active") (js "Status")
    = Normal [js "active"] /\
  parseStatus (js "Status: active") = Normal None /\
  parseStatus (js "state: ok") = Normal None.
Proof.
  split; [|repeat split; vm_compute; reflexivity].
  intros text now fallback H.
  destruct (parseWhoisData_normal text now fallback) as [r Hr].
  exists r. split; [exact Hr|].
  apply parseWhoisData_inv in Hr.
  destruct Hr as (pd & _ & _ & _ & _ & _ & _ & _ & Hst & _).
  rewrite (parseStatus_without_label text H) in Hst. congruence.
Qed.

Lemma status_synonyms_never_consulted_witness :
  exists r,
    parseWhoisData (js "Status: active") 2025 None = Normal r /\
    status r = None.
Proof.
  apply (proj1 status_synonyms_never_consulted (js "Status: active") 2025%Z None).
  reflexivity.
Defined.

(** C3 fails on the code: only the colon form removes a final dot.  The
    two blocks and the bracketed form keep the first word of the line as it
    is, final dot included. *)
Theorem trailing_dot_kept_outside_colon_form :
  parseNameservers (js "Nserver: ns1.yandex.ru. 213.180.193.1")
    = Normal (Some [js "ns1.yandex.ru"]) /\
  parseNameservers (js "Name servers:" ++ [LF] ++ js "    ns1.example.com."
                      ++ [LF; LF])
    = Normal (Some [js "ns1.example.com."]) /\
  parseNameservers (js "Nameservers" ++ [LF] ++ js "  ns1.example.com."
                      ++ [LF; LF])
    = Normal (Some [js "ns1.example.com."]) /\
  parseNameservers (js "[Name Server]      ns1.example.com.")
    = Normal (Some [js "ns1.example.com."]).
Proof. repeat split; vm_compute; reflexivity. Qed.

(** C4 fails on the code: the entry is taken from [match.split(':')[1]],
    the text between the first colon and the second, so that a value with a
    colon of its own is cut there. *)
Theorem colon_value_cut_at_second_colon :
  parseNameservers (js "nserver: 2001:db8::1") = Normal (Some [js "2001"]) /\
  first_word (trim (js " 2001:db8::1")) = js "2001:db8::1" /\
  parseNameservers (js "nserver: ns1.example.com. 192.0.2.1")
    = Normal (Some [js "ns1.example.com"]).
Proof. repeat split; vm_compute; reflexivity. Qed.

(** C8.  For every raw text, every calendar year of the call and every
    fallback domain, null included, [parseWhoisData] returns a record: no
    expression of the parser throws, whatever the text holds. *)
Theorem parseWhoisData_never_throws (whoisText : jsstring) (now : Z)
  (domainName : option jsstring) :
  exists record, parseWhoisData whoisText now domainName = Normal record.
Proof. apply parseWhoisData_normal. Qed.

(** C9.  For every input the nameservers field of the returned record is
    either null or a list with at least one entry: when no strategy yields an
    entry the field is null, never the empty list. *)
Theorem nameservers_null_or_nonempty (whoisText : jsstring) (now : Z)
  (fallback : option jsstring) :
  exists record,
    parseWhoisData whoisText now fallback = Normal record /\
    (nameservers record = None \/
     exists first others, nameservers record = Some (first :: others)).
Proof.
  destruct (parseWhoisData_normal whoisText now fallback) as [r Hr].
  exists r. split; [exact Hr|].
  apply parseWhoisData_inv in Hr.
  destruct Hr as (pd & _ & _ & _ & _ & _ & Hns & _).
  destruct (nameservers r) as [l|]; [right | left; reflexivity].
  apply parseNameservers_nonempty in Hns.
  destruct l as [|x l]; [congruence | eauto].
Qed.

(* ------------------------------------------------------------------ *)
(** * Further properties *)

(** ** What a captured value looks like *)

Lemma infix_Forall (P : char -> Prop) v s :
  infix v s -> Forall P s -> Forall P v.
Proof.
  intros (a & b & ->) H. apply Forall_app in H. destruct H as [_ H].
  apply Forall_app in H. tauto.
Qed.

Lemma infix_refl s : infix s s.
Proof. exists [], []. rewrite app_nil_r. reflexivity. Qed.

Lemma dot_group_lit n p : dot_group n (lit p) = true.
Proof. induction p as [|c p IH]; [reflexivity | exact IH]. Qed.

(** A group written [(.+)] captures no line terminator. *)
Lemma Matches_dot_group ic r st w st' n :
  Matches ic r st w st' -> dot_group n r = true ->
  forall v, cap_get n (m_caps st') = Some v ->
    cap_get n (m_caps st) = Some v \/ single_line v.
Proof.
  induction 1; simpl; intros Hd v Hv; auto.
  - apply andb_true_iff in Hd. destruct Hd as [Hd1 Hd2].
    destruct (IHMatches2 Hd2 _ Hv) as [Hin|Hin]; auto.
  - apply andb_true_iff in Hd. destruct Hd as [Hd1 Hd2]. auto.
  - apply andb_true_iff in Hd. destruct Hd as [Hd1 Hd2]. auto.
  - destruct (Nat.eqb n0 n).
    + injection Hv as <-. right.
      destruct r; try discriminate. destruct a; try discriminate.
      inversion H; subst.
      match goal with
      | F : Forall _ w |- _ => revert F; apply Forall_impl
      end.
      intros c Hc. simpl in Hc. destruct (isLineTerminator c);
        [discriminate | reflexivity].
    + auto.
Qed.

Lemma String_match_dot_group s re m n v :
  String_match s re = Some m -> dot_group n (source re) = true ->
  group m n = Some v -> single_line v /\ infix v s.
Proof.
  intros H Hd Hv. split; [|eapply String_match_capture_infix; eassumption].
  apply String_match_sound in H.
  destruct H as (sk & rest' & st' & -> & M & _ & Hg).
  unfold group in Hv. rewrite Hg in Hv.
  destruct (Matches_dot_group _ _ _ _ _ n M Hd _ Hv) as [Hin|Hin];
    [discriminate | exact Hin].
Qed.

Lemma parseField_value text field alts v :
  parseField text field alts = Normal (Some v) ->
  trimmed v /\ single_line v /\ infix v text.
Proof.
  intros H. split; [eapply parseField_trimmed; exact H|].
  unfold parseField in H. apply first_return_inv in H.
  destruct H as [H|Hin]; [discriminate|].
  apply in_flat_map in Hin. destruct Hin as (f & _ & [Hstep|[Hstep|[]]]).
  - destruct (String_match text (colonFieldRegex f)) as [m|] eqn:E;
      [|discriminate].
    destruct (group m 1) as [x|] eqn:Ex; [|discriminate]. simpl in Hstep.
    injection Hstep as <-.
    assert (Hd : dot_group 1 (source (colonFieldRegex f)) = true).
    { simpl. rewrite dot_group_lit. reflexivity. }
    destruct (String_match_dot_group _ _ _ _ _ E Hd Ex) as [Hl Hi].
    split.
    + eapply infix_Forall; [apply trim_infix | exact Hl].
    + eapply infix_trans; [apply trim_infix | exact Hi].
  - destruct (String_match text (bracketFieldRegex f)) as [m|] eqn:E;
      [|discriminate].
    destruct (group m 1) as [x|] eqn:Ex; [|discriminate]. simpl in Hstep.
    injection Hstep as <-.
    assert (Hd : dot_group 1 (source (bracketFieldRegex f)) = true).
    { simpl. rewrite dot_group_lit. reflexivity. }
    destruct (String_match_dot_group _ _ _ _ _ E Hd Ex) as [Hl Hi].
    split.
    + eapply infix_Forall; [apply trim_infix | exact Hl].
    + eapply infix_trans; [apply trim_infix | exact Hi].
Qed.

(** X1.  Whatever the text and the
    fallback, a registrar, registrant, dnssec, lastModified or parsed
    domainName that is not null is one piece of the raw text, taken from a
    single line (it holds no line terminator) and trimmed. *)
Theorem field_values_come_from_one_line (whoisText : jsstring) (now : Z)
  (fallback : option jsstring) :
  exists r,
    parseWhoisData whoisText now fallback = Normal r /\
    (forall v, registrar r = Some v ->
               trimmed v /\ single_line v /\ infix v whoisText) /\
    (forall v, registrant r = Some v ->
               trimmed v /\ single_line v /\ infix v whoisText) /\
    (forall v, dnssec r = Some v ->
               trimmed v /\ single_line v /\ infix v whoisText) /\
    (forall v, lastModified r = Some v ->
               trimmed v /\ single_line v /\ infix v whoisText) /\
    (domainName r = fallback \/
     exists v, domainName r = Some v /\
               trimmed v /\ single_line v /\ infix v whoisText).
Proof.
  destruct (parseWhoisData_normal whoisText now fallback) as [r Hr].
  exists r. split; [exact Hr|].
  apply parseWhoisData_inv in Hr.
  destruct Hr as (pd & Hpd & Hdom & Hreg & _ & _ & _ & Hrt & _ & Hds & Hlm).
  split; [|split; [|split; [|split]]].
  - intros v E. rewrite E in Hreg. eapply parseField_value; exact Hreg.
  - intros v E. rewrite E in Hrt. eapply parseField_value; exact Hrt.
  - intros v E. rewrite E in Hds. eapply parseField_value; exact Hds.
  - intros v E. rewrite E in Hlm. eapply parseField_value; exact Hlm.
  - rewrite Hdom. destruct pd as [[|c s]|]; simpl; auto.
    right. exists (c :: s). split; [reflexivity|].
    eapply parseField_value; exact Hpd.
Qed.

Lemma field_values_come_from_one_line_witness :
  trimmed (js "Example Registrar") /\ single_line (js "Example Registrar") /\
  infix (js "Example Registrar")
    (js "Domain: example.ax" ++ [LF] ++ js "Registrar:  Example Registrar ").
Proof.
  destruct (field_values_come_from_one_line
              (js "Domain: example.ax" ++ [LF] ++ js "Registrar:  Example Registrar ")
              2025 None) as (r & Hr & Hreg & _).
  vm_compute in Hr. injection Hr as <-. apply Hreg. reflexivity.
Defined.

(** ** Lists of values *)

Lemma split_chr_no_sep sep : forall s x,
  In x (split_chr sep s) -> ~ In sep x.
Proof.
  induction s as [|c t IH]; simpl; intros x Hx.
  - destruct Hx as [<-|[]]. intros [].
  - destruct (N.eqb_spec c sep) as [->|Hne].
    + destruct Hx as [<-|Hx]; [intros [] | auto].
    + destruct (split_chr sep t) as [|h r] eqn:E.
      * destruct Hx as [<-|[]]. intros [E'|[]]. congruence.
      * destruct Hx as [<-|Hx].
        -- intros [E'|Hin]; [congruence|].
           apply (IH h); [left; reflexivity | exact Hin].
        -- apply IH. right. exact Hx.
Qed.

Lemma infix_cons c v s : infix v s -> infix v (c :: s).
Proof. apply (infix_app_r v [c] s). Qed.

Lemma split_chr_infix sep : forall s x, In x (split_chr sep s) -> infix x s.
Proof.
  induction s as [|c t IH]; simpl; intros x Hx.
  - destruct Hx as [<-|[]]. apply infix_refl.
  - destruct (c =? sep).
    + destruct Hx as [<-|Hx].
      * exists [], (c :: t). reflexivity.
      * apply infix_cons, IH, Hx.
    + destruct (split_chr sep t) as [|h r] eqn:E.
      * destruct Hx as [<-|[]]. exists [], t. reflexivity.
      * destruct Hx as [<-|Hx].
        -- destruct (IH h (or_introl eq_refl)) as (a & b & Hab).
           (* [h] is the first piece, so it is a prefix of [t] *)
           assert (Hpre : exists b', t = h ++ b').
           { clear IH Hab a b. revert h r E.
             induction t as [|d t IHt]; simpl; intros h r E.
             - injection E as <- <-. exists []. reflexivity.
             - destruct (d =? sep).
               + injection E as <- <-. exists (d :: t). reflexivity.
               + destruct (split_chr sep t) as [|h' r'] eqn:E'.
                 * injection E as <- <-. exists t. reflexivity.
                 * injection E as <- <-.
                   destruct (IHt h' r' eq_refl) as [b' ->].
                   exists b'. reflexivity. }
           destruct Hpre as [b' ->]. exists [], b'. reflexivity.
        -- apply infix_cons, IH. right. exact Hx.
Qed.

Lemma after_colon_piece m v :
  after_colon m = Some v -> ~ In (ch ":") v /\ infix v m.
Proof.
  unfold after_colon. intros H. apply nth_error_In in H.
  split; [eapply split_chr_no_sep | eapply split_chr_infix]; exact H.
Qed.

Lemma mapM_Forall {A B} (f : A -> completion B) (P : A -> Prop)
  (Q : B -> Prop) l bs :
  (forall a b, P a -> f a = Normal b -> Q b) ->
  Forall P l -> mapM f l = Normal bs -> Forall Q bs.
Proof.
  intros Hf. revert bs. induction l as [|a t IH]; simpl; intros bs Hl H.
  - injection H as <-. constructor.
  - inversion Hl; subst.
    destruct (f a) as [b|] eqn:Ea; [|discriminate]. simpl in H.
    destruct (mapM f t) as [bs'|]; [|discriminate]. simpl in H.
    injection H as <-. constructor; eauto.
Qed.

Lemma String_match_g_pieces s re l :
  String_match_g s re = Some l -> Forall (fun m => infix m s) l.
Proof.
  intros H. apply Forall_forall. intros x Hx.
  destruct (String_match_g_sound _ _ _ _ H Hx) as (sk & post & st' & -> & _).
  exists sk, post. reflexivity.
Qed.

Lemma trimmed_piece_after_colon text m v :
  infix m text ->
  method (after_colon m) trim = Normal v ->
  trimmed v /\ ~ In (ch ":") v /\ infix v text.
Proof.
  intros Hm H. destruct (after_colon m) as [x|] eqn:E; [|discriminate].
  simpl in H. injection H as <-.
  destruct (after_colon_piece _ _ E) as [Hc Hi].
  split; [apply trim_trimmed|]. split.
  - intros Hin. apply Hc. destruct (trim_infix x) as (a & b & Hx).
    rewrite Hx. apply in_or_app. right. apply in_or_app. left. exact Hin.
  - eapply infix_trans; [apply trim_infix|].
    eapply infix_trans; eassumption.
Qed.

Lemma parseMultipleFields_values text field l :
  parseMultipleFields text field = Normal l ->
  Forall (fun v => trimmed v /\ ~ In (ch ":") v /\ infix v text) l.
Proof.
  unfold parseMultipleFields.
  destruct (String_match_g text (multiFieldRegex field)) as [ms|] eqn:E.
  - apply (mapM_Forall _ (fun m => infix m text)).
    + intros m v Hm H. eapply trimmed_piece_after_colon; eassumption.
    + eapply String_match_g_pieces; exact E.
  - intros [= <-]. constructor.
Qed.

Lemma split_lines_pieces text x :
  infix x text ->
  Forall (fun line => line <> [] /\ trimmed line /\ infix line text)
    (filter (fun line => negb (is_empty line)) (map trim (split_chr LF x))).
Proof.
  intros Hx. apply Forall_forall. intros line Hin.
  apply filter_In in Hin. destruct Hin as [Hin Hne].
  apply in_map_iff in Hin. destruct Hin as (raw & <- & Hraw).
  split; [destruct (trim raw); [discriminate | discriminate]|].
  split; [apply trim_trimmed|].
  eapply infix_trans; [apply trim_infix|].
  eapply infix_trans; [eapply split_chr_infix; exact Hraw | exact Hx].
Qed.

Lemma parseStatus_entries text l :
  parseStatus text = Normal (Some l) ->
  l <> [] /\ Forall (fun v => trimmed v /\ infix v text) l.
Proof.
  unfold parseStatus. intros H. apply first_return_inv in H.
  destruct H as [H|[Hstep|[Hstep|[]]]]; [discriminate| |].
  - destruct (String_match text statusSectionRegex) as [m|] eqn:E;
      [|discriminate].
    destruct (group m 1) as [x|] eqn:Ex; [|discriminate]. simpl in Hstep.
    match type of Hstep with
    | (if (0 <? length ?s)%nat then _ else _) = _ =>
        destruct (0 <? length s)%nat eqn:Hlen; [|discriminate]
    end.
    injection Hstep as <-. split; [apply ltb_length_nonempty; exact Hlen|].
    assert (Hx : infix x text)
      by (eapply String_match_capture_infix; eassumption).
    generalize (split_lines_pieces text x Hx). apply Forall_impl. tauto.
  - unfold or_array at 1 in Hstep.
    destruct (parseMultipleFields text (js "Domain Status")) as [vs|] eqn:E;
      [|discriminate].
    simpl in Hstep.
    destruct (0 <? length vs)%nat eqn:Hlen; [|discriminate].
    injection Hstep as <-. split; [apply ltb_length_nonempty; exact Hlen|].
    generalize (parseMultipleFields_values _ _ _ E). apply Forall_impl. tauto.
Qed.

(** X2.  The status of the record is null or a list with at least one
    entry, never the empty list; and every entry is a trimmed piece of the
    raw text. *)
Theorem status_null_or_trimmed_entries (whoisText : jsstring) (now : Z)
  (fallback : option jsstring) :
  exists r,
    parseWhoisData whoisText now fallback = Normal r /\
    (status r = None \/
     exists first others,
       status r = Some (first :: others) /\
       Forall (fun v => trimmed v /\ infix v whoisText) (first :: others)).
Proof.
  destruct (parseWhoisData_normal whoisText now fallback) as [r Hr].
  exists r. split; [exact Hr|].
  apply parseWhoisData_inv in Hr.
  destruct Hr as (pd & _ & _ & _ & _ & _ & _ & _ & Hst & _).
  destruct (status r) as [l|]; [right | left; reflexivity].
  apply parseStatus_entries in Hst. destruct Hst as [Hne Hall].
  destruct l as [|x l]; [congruence|]. eauto.
Qed.

(** X3.  For a label of letters and blanks the generic multi-value
    extractor never throws, and each value it returns is trimmed, is a
    piece of the raw text and holds no colon: the value of a line ends
    before the second colon of the line. *)
Theorem multiple_fields_values (whoisText field : jsstring) :
  plain_label field ->
  exists values,
    parseMultipleFields whoisText field = Normal values /\
    Forall (fun v => trimmed v /\ ~ In (ch ":") v /\ infix v whoisText) values.
Proof.
  intros _.
  destruct (parseMultipleFields_normal whoisText field) as [l Hl].
  exists l. split; [exact Hl|]. apply parseMultipleFields_values with field.
  exact Hl.
Qed.

Lemma multiple_fields_values_witness :
  exists values,
    parseMultipleFields
      (js "Status: ok: locked" ++ LF :: js "status:   hold  ") (js "Status")
    = Normal values /\
    Forall (fun v => trimmed v /\ ~ In (ch ":") v /\
                     infix v (js "Status: ok: locked" ++ LF ::
                              js "status:   hold  ")) values.
Proof.
  apply (multiple_fields_values _ (js "Status")).
  repeat constructor.
Defined.

(** ** Name server entries *)







(** ** Words, trimming and the final dot *)

Lemma trimStart_spaces gap x : spaces gap -> trimStart (gap ++ x) = trimStart x.
Proof.
  induction 1 as [|c gap Hc _ IH]; simpl; [reflexivity|].
  rewrite Hc. exact IH.
Qed.

Lemma trimStart_head_kept c x : isSpace c = false -> trimStart (c :: x) = c :: x.
Proof. intros H. simpl. rewrite H. reflexivity. Qed.

(** Trimming the end of [a ++ b], where [a] closes with a character that is
    no white space, keeps [a] and a prefix of [b]. *)
Lemma trimEnd_keeps a z b :
  isSpace z = false ->
  exists b' b'', trimEnd ((a ++ [z]) ++ b) = (a ++ [z]) ++ b' /\ b = b' ++ b''.
Proof.
  intros Hz. unfold trimEnd. rewrite rev_app_distr.
  destruct (trimStart_suffix (rev b)) as [p Hp].
  destruct (trimStart (rev b)) as [|q0 q] eqn:Eq.
  - (* [b] is white space only *)
    exists [], b. rewrite app_nil_r. split; [|reflexivity].
    assert (Hsp : spaces (rev b)).
    { clear Hp. revert Eq. induction (rev b) as [|c l IH]; simpl; intros E.
      - constructor.
      - destruct (isSpace c) eqn:Ec; [|discriminate].
        constructor; [exact Ec | apply IH, E]. }
    rewrite (trimStart_spaces _ _ Hsp), rev_app_distr. simpl. rewrite Hz.
    simpl. rewrite rev_involutive. reflexivity.
  - exists (rev (q0 :: q)), (rev p). split.
    + assert (E : trimStart (rev b ++ rev (a ++ [z]))
                  = (q0 :: q) ++ rev (a ++ [z])).
      { rewrite Hp at 1. rewrite <- app_assoc.
        assert (Hsp : spaces p).
        { clear - Hp Eq. revert p Hp Eq.
          induction (rev b) as [|c l IH]; intros p Hp Eq.
          - discriminate.
          - simpl in Eq. destruct (isSpace c) eqn:Ec.
            + destruct p as [|p0 p]; simpl in Hp.
              * (* the suffix is the whole list: impossible *)
                destruct (trimStart_suffix l) as [p' Hp'].
                rewrite Eq in Hp'. rewrite Hp' in Hp.
                apply (f_equal (@length _)) in Hp.
                simpl in Hp. rewrite length_app in Hp. simpl in Hp. lia.
              * injection Hp as <- Hp. constructor; [exact Ec|].
                eapply IH; eassumption.
            + destruct p as [|p0 p]; [constructor|]. simpl in Hp.
              injection Hp as <- Hp. rewrite <- Eq in Hp.
              apply (f_equal (@length _)) in Hp.
              rewrite length_app in Hp. simpl in Hp. lia. }
        rewrite (trimStart_spaces _ _ Hsp).
        assert (Hq : isSpace q0 = false).
        { pose proof (trimStart_idem (rev b)) as Hi. rewrite Eq in Hi.
          apply trimStart_fixed_head in Hi. exact Hi. }
        simpl. rewrite Hq. reflexivity. }
      rewrite E, rev_app_distr, rev_involutive. reflexivity.
    + rewrite <- rev_app_distr, <- Hp. symmetry. apply rev_involutive.
Qed.

Lemma first_word_app : forall host t,
  no_space host ->
  (t = [] \/ exists c t', t = c :: t' /\ isSpace c = true) ->
  first_word (host ++ t) = host.
Proof.
  unfold first_word, split_ws.
  induction host as [|h host IH]; intros t Hh Ht; simpl.
  - destruct Ht as [->|(c & t' & -> & Hc)]; simpl; [reflexivity|].
    rewrite Hc. reflexivity.
  - inversion Hh as [|? ? Hc Hh']; subst. rewrite Hc.
    specialize (IH t Hh' Ht).
    destruct (split_ws_from false (host ++ t)) as [|x r] eqn:E.
    + exfalso. apply (split_ws_nonempty (host ++ t)). exact E.
    + simpl in *. rewrite IH. reflexivity.
Qed.

(** The first word of a trimmed value that opens with a host name. *)
Lemma first_word_trim gap host tail :
  spaces gap -> host <> [] -> no_space host ->
  (tail = [] \/ exists c t', tail = c :: t' /\ isSpace c = true) ->
  first_word (trim (gap ++ host ++ tail)) = host.
Proof.
  intros Hg Hne Hh Ht. unfold trim.
  rewrite (trimStart_spaces _ _ Hg).
  destruct host as [|h0 host]; [congruence|].
  inversion Hh as [|? ? Hh0 Hh']; subst.
  change ((h0 :: host) ++ tail) with (h0 :: host ++ tail).
  rewrite (trimStart_head_kept _ _ Hh0).
  destruct (exists_last (l := h0 :: host)) as (a & z & Ea); [discriminate|].
  assert (Hz : isSpace z = false).
  { rewrite Ea in Hh. apply Forall_app in Hh. destruct Hh as [_ Hh].
    inversion Hh; assumption. }
  change (h0 :: host ++ tail) with ((h0 :: host) ++ tail). rewrite Ea.
  destruct (trimEnd_keeps a z tail Hz) as (b' & b'' & -> & Eb).
  apply first_word_app.
  - rewrite <- Ea. exact Hh.
  - destruct b' as [|c b']; [left; reflexivity|]. right.
    destruct Ht as [->|(c0 & t' & -> & Hc0)]; [discriminate|].
    injection Eb as <- _. eauto.
Qed.

(** [/\.$/] finds the final dot and nothing else. *)
Lemma search_trailingDot : forall h pos,
  search trailingDot pos (h ++ [ch "."])
  = Some (MatchResult (pos + length h) [ch "."] []).
Proof.
  induction h as [|c h IH]; intros pos.
  - cbn -[Nat.sub]. replace (S pos - pos)%nat with 1%nat by lia.
    rewrite Nat.add_0_r. reflexivity.
  - assert (E : match_at trailingDot pos ((c :: h) ++ [ch "."]) = None).
    { unfold match_at, trailingDot.
      cbn [source ignoreCase seq fold_right chr rmatch m_rest m_pos m_caps app].
      destruct (atom_matches false (Chr (ch ".")) c); [|reflexivity].
      destruct h; reflexivity. }
    cbn [search app]. cbn [app] in E. rewrite E, IH.
    replace (S pos + length h)%nat with (pos + S (length h))%nat by lia.
    reflexivity.
Qed.

Lemma strip_final_dot h : String_replace (h ++ [ch "."]) trailingDot [] = h.
Proof.
  unfold String_replace, String_match. rewrite search_trailingDot. simpl.
  rewrite firstn_app, firstn_all, Nat.sub_diag. simpl.
  rewrite skipn_all2; [|rewrite length_app; simpl; lia].
  repeat rewrite app_nil_r. reflexivity.
Qed.

Lemma strip_no_dot s :
  (forall h, s <> h ++ [ch "."]) -> String_replace s trailingDot [] = s.
Proof.
  intros H. unfold String_replace.
  destruct (String_match s trailingDot) as [m|] eqn:E; [|reflexivity].
  exfalso. apply String_match_parts in E.
  destruct E as (pre & post & st' & -> & M & _ & Hpost).
  remember (matched m) as w eqn:Ew. clear Ew.
  unfold trailingDot, source, ignoreCase in M. invM.
  cbn [m_rest] in *. subst.
  match goal with
  | Hc : atom_matches false (Chr _) ?c = true |- _ =>
      apply chr_exact in Hc; [subst c | reflexivity]
  end.
  apply (H pre). rewrite !app_nil_r. reflexivity.
Qed.

(** ** Collecting the matches of a text made of lines *)

Lemma collect_skip re : forall a pos b,
  collect re pos (a ++ b) (length a) = collect re (pos + length a) b 0.
Proof.
  induction a as [|c a IH]; intros pos b; simpl.
  - rewrite Nat.add_0_r. reflexivity.
  - rewrite IH. f_equal. lia.
Qed.

Lemma collect_nothing re rest pos :
  (forall sk rest', rest = sk ++ rest' ->
                    match_at re (pos + length sk) rest' = None) ->
  collect re pos rest 0 = [].
Proof.
  intros H. destruct (collect re pos rest 0) as [|x l] eqn:E; [reflexivity|].
  destruct (collect_sound re x rest pos 0) as (sk & rest' & m & Hr & Hm & _).
  { rewrite E. left. reflexivity. }
  rewrite (H _ _ Hr) in Hm. discriminate.
Qed.

Lemma collect_past re rest : forall pre pos,
  (forall sk c t, pre = sk ++ c :: t ->
                  match_at re (pos + length sk) ((c :: t) ++ rest) = None) ->
  collect re pos (pre ++ rest) 0 = collect re (pos + length pre) rest 0.
Proof.
  induction pre as [|c pre IH]; intros pos H.
  - simpl. rewrite Nat.add_0_r. reflexivity.
  - pose proof (H [] c pre eq_refl) as H0. simpl in H0.
    rewrite Nat.add_0_r in H0. simpl. rewrite H0.
    rewrite IH.
    + f_equal. lia.
    + intros sk c' t E. specialize (H (c :: sk) c' t).
      simpl in H. rewrite E in H. specialize (H eq_refl).
      replace (S pos + length sk)%nat with (pos + S (length sk))%nat by lia.
      exact H.
Qed.

Lemma collect_line re pos body rest m :
  match_at re pos (body ++ LF :: rest) = Some m ->
  matched m = body -> body <> [] ->
  match_at re (pos + length body) (LF :: rest) = None ->
  collect re pos (body ++ LF :: rest) 0
  = body :: collect re (S (pos + length body)) rest 0.
Proof.
  intros Hm Hb Hne Hlf. destruct body as [|c body]; [congruence|].
  cbn [app collect] in *. rewrite Hm, Hb. f_equal.
  cbn [length pred] in *. rewrite collect_skip.
  replace (S pos + length body)%nat with (pos + S (length body))%nat by lia.
  cbn [collect]. rewrite Hlf. reflexivity.
Qed.

Lemma collect_lines re (bodies : list jsstring) :
  (forall body, In body bodies ->
     body <> [] /\
     forall pos rest,
       (exists m, match_at re pos (body ++ LF :: rest) = Some m /\
                  matched m = body) /\
       match_at re pos (LF :: rest) = None) ->
  forall pos post,
    collect re pos (lines_text bodies ++ post) 0
    = bodies ++ collect re (pos + length (lines_text bodies)) post 0.
Proof.
  unfold lines_text.
  induction bodies as [|b bodies IH]; intros H pos post.
  - simpl. rewrite Nat.add_0_r. reflexivity.
  - destruct (H b (or_introl eq_refl)) as [Hne Hb].
    simpl. repeat rewrite <- app_assoc. simpl.
    destruct (Hb pos (concat (map (fun b0 => b0 ++ [LF]) bodies) ++ post))
      as [(m & Hm & Hmb) _].
    destruct (Hb (pos + length b)%nat
                (concat (map (fun b0 => b0 ++ [LF]) bodies) ++ post))
      as [_ Hlf].
    rewrite (collect_line re pos b _ m Hm Hmb Hne Hlf).
    rewrite IH; [|intros; apply H; right; assumption].
    replace (pos + length (b ++ LF :: concat (map (fun b0 => b0 ++ [LF]) bodies)))%nat
      with (S (pos + length b)
            + length (concat (map (fun b0 => b0 ++ [LF]) bodies)))%nat;
      [reflexivity|].
    rewrite length_app. simpl. lia.
Qed.

(** ** Where a label cannot be *)

Lemma spelled_case_sensitive p w : spelled false p w -> spelled true p w.
Proof.
  apply Forall2_impl. intros a b H. unfold atom_matches, canonicalize in *.
  apply N.eqb_eq in H. subst. apply N.eqb_refl.
Qed.

Lemma spelled_any_case ic p w : spelled ic p w -> spelled true p w.
Proof. destruct ic; [auto | apply spelled_case_sensitive]. Qed.

(** A pattern that opens with a label matches only where that label is
    spelled. *)
Lemma match_at_label label r pos rest m ic :
  match_at (mkRegExp (RSeq (lit label) r) ic) pos rest = Some m ->
  exists w t, rest = w ++ t /\ spelled true label w.
Proof.
  intros H. apply match_at_sound in H. destruct H as (st' & M & _).
  destruct (Matches_consumes _ _ _ _ _ M) as [E _]. simpl in M, E.
  remember (matched m) as w eqn:Ew. clear Ew.
  inversion M as [| | |? ? ? w1 ? w2 ? M1 M2 E1 E2 E3| | | | | |].
  apply Matches_lit in M1. apply spelled_any_case in M1.
  exists w1, (w2 ++ m_rest st').
  split; [|exact M1]. rewrite E, <- E3, <- app_assoc. reflexivity.
Qed.

Lemma match_at_label_head label0 label r pos c rest ic :
  atom_matches true (Chr label0) c = false ->
  match_at (mkRegExp (RSeq (lit (label0 :: label)) r) ic) pos (c :: rest)
  = None.
Proof.
  intros Hc.
  destruct (match_at _ pos (c :: rest)) as [m|] eqn:E; [|reflexivity].
  apply match_at_label in E. destruct E as (w & t & E & Hw).
  inversion Hw as [|? x ? w' Hx _]; subst. simpl in E. injection E as <- _.
  congruence.
Qed.

(** A label of letters and blanks has no character that stands for a
    line feed. *)
Lemma plain_label_on_one_line f : plain_label f -> on_one_line f.
Proof.
  unfold plain_label, on_one_line. apply Forall_impl. intros c [H| ->].
  - unfold isLetter, isUpperAZ, isLowerAZ in H.
    unfold atom_matches, canonicalize, toAsciiUpper, isLowerAZ, LF.
    change ((97 <=? 10) && (10 <=? 122)) with false. cbv iota.
    apply N.eqb_neq.
    destruct (N.leb_spec 97 c), (N.leb_spec c 122), (N.leb_spec 65 c),
      (N.leb_spec c 90); cbn [andb orb] in *; try discriminate; lia.
  - reflexivity.
Qed.

Ltac plain :=
  repeat (apply Forall_cons;
          [first [left; reflexivity | right; reflexivity]|]);
  apply Forall_nil.

Lemma spelled_no_line_feed p w :
  on_one_line p -> spelled true p w -> ~ In LF w.
Proof.
  intros Hp H. induction H as [|pc c p w Hc H IH]; [intros []|].
  inversion Hp as [|? ? Hpc Hp']; subst. intros [E|Hin].
  - rewrite E in Hc. congruence.
  - exact (IH Hp' Hin).
Qed.

(** Before the lines: a text of whole lines that does not hold the label
    has no match that starts in it. *)
Lemma no_match_in_lines_before label r pre rest ic :
  on_one_line label -> label <> [] ->
  whole_lines pre -> mentions label pre = false ->
  forall sk c t pos, pre = sk ++ c :: t ->
    match_at (mkRegExp (RSeq (lit label) r) ic) pos ((c :: t) ++ rest) = None.
Proof.
  intros Hlab Hne Hpre Hmen sk c t pos E.
  destruct (match_at _ pos ((c :: t) ++ rest)) as [m|] eqn:Em; [|reflexivity].
  exfalso. apply match_at_label in Em. destruct Em as (w & u & Ew & Hw).
  pose proof (spelled_no_line_feed _ _ Hlab Hw) as Hnolf.
  destruct Hpre as [->|[s' Es]]; [destruct sk; discriminate|].
  (* either the label lies in [pre], or it runs over the final line feed *)
  apply app_eq_app in Ew. destruct Ew as [l [[E1 E2]|[E1 E2]]].
  - apply (not_mentioned _ _ Hmen). exists sk, w, l.
    split; [|exact Hw]. rewrite E, E1. reflexivity.
  - assert (Hlast : In LF (c :: t)).
    { assert (Ex : exists t', c :: t = t' ++ [LF]).
      { rewrite Es in E. clear - E.
        revert s' E. induction sk as [|k sk IH]; intros s' E.
        - simpl in E. exists s'. symmetry. exact E.
        - destruct s' as [|s0 s']; simpl in E.
          + destruct sk; discriminate.
          + injection E as _ E. eapply IH. exact E. }
      destruct Ex as [t' ->]. apply in_or_app. right. left. reflexivity. }
    apply Hnolf. rewrite E1. apply in_or_app. left. exact Hlast.
Qed.

(** After the lines: where the label is not spelled there is no match. *)
Lemma no_match_without_label label r post pos ic :
  mentions label post = false ->
  forall sk rest', post = sk ++ rest' ->
    match_at (mkRegExp (RSeq (lit label) r) ic) (pos + length sk) rest' = None.
Proof.
  intros Hmen sk rest' E.
  destruct (match_at _ _ rest') as [m|] eqn:Em; [|reflexivity].
  exfalso. apply (not_mentioned _ _ Hmen).
  apply match_at_label in Em. destruct Em as (w & t & -> & Hw).
  exists sk, w, t. auto.
Qed.

(** ** Name server lines in the colon form *)

Lemma String_match_needs_label label r text :
  mentions label text = false ->
  String_match text (mkRegExp (RSeq (lit label) r) true) = None.
Proof.
  intros H. destruct (String_match text _) as [m|] eqn:E; [|reflexivity].
  exfalso. apply (not_mentioned _ _ H).
  apply search_sound in E. destruct E as (sk & rest' & -> & E).
  apply match_at_label in E. destruct E as (w & t & -> & Hw).
  exists sk, w, t. auto.
Qed.

Lemma split_chr_none sep s : ~ In sep s -> split_chr sep s = [s].
Proof.
  induction s as [|c t IH]; simpl; intros H; [reflexivity|].
  destruct (N.eqb_spec c sep) as [->|Hne]; [exfalso; apply H; left; reflexivity|].
  rewrite IH; [reflexivity|]. intros Hin. apply H. right. exact Hin.
Qed.

Lemma split_chr_first sep a b :
  ~ In sep a -> split_chr sep (a ++ sep :: b) = a :: split_chr sep b.
Proof.
  induction a as [|c a IH]; simpl; intros H.
  - rewrite N.eqb_refl. reflexivity.
  - destruct (N.eqb_spec c sep) as [->|Hne];
      [exfalso; apply H; left; reflexivity|].
    rewrite IH; [reflexivity|]. intros Hin. apply H. right. exact Hin.
Qed.

Lemma after_colon_once label v :
  ~ In (ch ":") label -> ~ In (ch ":") v ->
  after_colon (label ++ ch ":" :: v) = Some v.
Proof.
  intros Hl Hv. unfold after_colon.
  rewrite (split_chr_first _ _ _ Hl), (split_chr_none _ _ Hv). reflexivity.
Qed.

Lemma no_space_single_line s : no_space s -> single_line s.
Proof.
  apply Forall_impl. intros c H. unfold isSpace in H.
  destruct (isLineTerminator c); [|reflexivity].
  rewrite orb_true_r in H. discriminate.
Qed.

Lemma nl_host_facts l :
  ns_line_ok l ->
  nl_host l <> [] /\ no_space (nl_host l) /\ ~ In (ch ":") (nl_host l) /\
  String_replace (nl_host l) trailingDot [] = nl_name l.
Proof.
  intros (_ & Hne & Hns & Hc & Hdot & _).
  unfold nl_host. destruct (nl_dot l).
  - split; [destruct (nl_name l); discriminate|].
    split; [apply Forall_app; split; [exact Hns | repeat constructor]|].
    split; [|apply strip_final_dot].
    intros Hin. apply in_app_or in Hin. destruct Hin as [Hin|[E|[]]];
      [auto | discriminate].
  - rewrite app_nil_r. repeat split; auto. apply strip_no_dot. auto.
Qed.

Lemma dots_atom ic w :
  single_line w -> Forall (fun c => atom_matches ic Dot c = true) w.
Proof. apply Forall_impl. intros c H. simpl. rewrite H. reflexivity. Qed.

Lemma head_no_space_fails ic host t :
  host <> [] -> no_space host -> head_fails ic space (host ++ t).
Proof.
  intros Hne Hh. destruct host as [|h host]; [congruence|].
  inversion Hh; subst. simpl. rewrite orb_false_r. assumption.
Qed.

Lemma firstn_exact {A} (a b : list A) n :
  n = length a -> firstn n (a ++ b) = a.
Proof.
  intros ->. rewrite firstn_app, firstn_all, Nat.sub_diag. simpl.
  apply app_nil_r.
Qed.

(** The pattern of the colon form matches a well-formed line from its
    label to its end. *)
Lemma colon_line_match f label l pos rest :
  spelled true f label -> ns_line_ok l ->
  exists m,
    match_at (nsColonRegex f) pos (colon_line label l ++ LF :: rest)
    = Some m /\
    matched m = colon_line label l.
Proof.
  intros Hlab Hok.
  destruct (nl_host_facts l Hok) as (Hhne & Hhns & _ & _).
  destruct Hok as (Hgap & _ & _ & _ & _ & _ & Htl & _).
  assert (Hrun : exists st',
    rmatch true (source (nsColonRegex f)) Some
      (MState pos
         (label ++ [] ++ ch ":" :: nl_gap l ++ (nl_host l ++ nl_tail l)
                ++ LF :: rest) [])
    = Some st' /\
    m_pos st' = (pos + length (colon_line label l))%nat).
  { eexists. split.
    - unfold nsColonRegex, source, seq, fold_right.
      apply run_seq, run_lit; [exact Hlab|].
      apply run_seq, run_quant;
        [constructor | simpl; lia | intros ? [=] | right; reflexivity|].
      apply run_seq, run_atom; [reflexivity|].
      apply run_seq, run_quant;
        [apply spaces_atom, Hgap | lia | intros ? [=]
        | right; rewrite <- app_assoc;
          apply head_no_space_fails; assumption|].
      apply run_seq, run_group_quant;
        [apply dots_atom, Forall_app; split;
           [apply no_space_single_line, Hhns | exact Htl]
        | rewrite length_app; destruct (nl_host l); [congruence | simpl; lia]
        | intros ? [=] | right; reflexivity|].
      apply run_empty. reflexivity.
    - unfold colon_line. cbn [m_pos]. repeat rewrite length_app. simpl.
      repeat rewrite length_app. lia. }
  destruct Hrun as (st' & Hrun & Hpos).
  assert (Ein : colon_line label l ++ LF :: rest
                = label ++ [] ++ ch ":" :: nl_gap l ++ (nl_host l ++ nl_tail l)
                        ++ LF :: rest).
  { unfold colon_line. repeat rewrite <- app_assoc. simpl.
    repeat rewrite <- app_assoc. reflexivity. }
  unfold match_at.
  change (ignoreCase (nsColonRegex f)) with true.
  rewrite Ein, Hrun, <- Ein. eexists. split; [reflexivity|].
  simpl. apply firstn_exact. lia.
Qed.

Lemma spelled_no_colon w p :
  ~ In (ch ":") p -> spelled true p w -> ~ In (ch ":") w.
Proof.
  intros Hp H. induction H as [|pc c p w Hc H IH]; [intros []|].
  intros [E|Hin].
  - subst c. apply Hp. left.
    unfold atom_matches, canonicalize, toAsciiUpper, isLowerAZ in Hc.
    revert Hc. unfold ch. simpl. cmp_cases.
  - apply IH; [|exact Hin]. intros Hq. apply Hp. right. exact Hq.
Qed.

(** The labels of the colon form: on one line, without a colon. *)
Lemma colonPatterns_labels f :
  In f colonPatterns ->
  on_one_line f /\ ~ In (ch ":") f /\
  exists f0 f', f = f0 :: f' /\ atom_matches true (Chr f0) LF = false.
Proof.
  intros H. unfold colonPatterns in H.
  repeat (destruct H as [<-|H];
          [split; [repeat constructor|];
           split; [vm_compute; intuition discriminate|];
           eexists _, _; split; reflexivity|]).
  destruct H.
Qed.

Lemma colon_line_entry f label l :
  ~ In (ch ":") f -> spelled true f label -> ns_line_ok l ->
  (value <- method (after_colon (colon_line label l)) trim ;;
   Normal (String_replace (first_word value) trailingDot []))
  = Normal (nl_name l).
Proof.
  intros Hf Hlab Hok.
  destruct (nl_host_facts l Hok) as (Hhne & Hhns & Hhc & Hstrip).
  destruct Hok as (Hgap & _ & _ & _ & _ & Htail & _ & Htc).
  pose proof (spelled_no_colon _ _ Hf Hlab) as Hl.
  assert (Hv : ~ In (ch ":") (nl_gap l ++ nl_host l ++ nl_tail l)).
  { intros Hin. apply in_app_or in Hin. destruct Hin as [Hin|Hin].
    - pose proof Hgap as Hg. unfold spaces in Hg.
      rewrite Forall_forall in Hg. specialize (Hg _ Hin). discriminate.
    - apply in_app_or in Hin. tauto. }
  unfold colon_line. rewrite (after_colon_once _ _ Hl Hv). simpl.
  rewrite (first_word_trim _ _ _ Hgap Hhne Hhns Htail), Hstrip. reflexivity.
Qed.

Lemma colon_lines_found f label lines pre post :
  In f colonPatterns ->
  spelled true f label -> Forall ns_line_ok lines ->
  lines <> [] ->
  whole_lines pre -> mentions f pre = false ->
  mentions f post = false ->
  String_match_g (pre ++ lines_text (map (colon_line label) lines) ++ post)
    (nsColonRegex f)
  = Some (map (colon_line label) lines).
Proof.
  intros Hf Hlab Hok Hne Hpre Hmpre Hmpost.
  destruct (colonPatterns_labels f Hf) as (Hone & _ & f0 & f' & Ef & Hf0).
  unfold String_match_g.
  assert (E : collect (nsColonRegex f) 0
                (pre ++ lines_text (map (colon_line label) lines) ++ post) 0
              = map (colon_line label) lines).
  { unfold nsColonRegex.
    rewrite collect_past.
    2:{ intros sk c t E. eapply no_match_in_lines_before; eauto.
        rewrite Ef. discriminate. }
    rewrite collect_lines.
    2:{ intros body Hb. apply in_map_iff in Hb. destruct Hb as (l & <- & Hl).
        rewrite Forall_forall in Hok. specialize (Hok _ Hl).
        split.
        - unfold colon_line. destruct label; discriminate.
        - intros pos rest. split.
          + apply (colon_line_match f); assumption.
          + rewrite Ef. apply match_at_label_head. exact Hf0. }
    rewrite collect_nothing.
    2:{ intros sk rest' E. eapply no_match_without_label; eauto. }
    apply app_nil_r. }
  rewrite E. destruct lines; [congruence | reflexivity].
Qed.

Lemma first_return_skip {A} (s : completion (option A)) t d :
  s = Normal None -> first_return (s :: t) d = first_return t d.
Proof. intros ->. reflexivity. Qed.

Lemma first_return_take {A} (s : completion (option A)) t d a :
  s = Normal (Some a) -> first_return (s :: t) d = Normal a.
Proof. intros ->. reflexivity. Qed.

Lemma mapM_map_all {A B C} (f : B -> completion C) (h : A -> B) (g : A -> C) l :
  (forall a, In a l -> f (h a) = Normal (g a)) ->
  mapM f (map h l) = Normal (map g l).
Proof.
  induction l as [|a t IH]; intros H; simpl; [reflexivity|].
  rewrite (H a (or_introl eq_refl)), IH; [reflexivity|].
  intros; apply H; right; assumption.
Qed.

Ltac no_match_by H label :=
  match goal with
  | |- context [String_match ?text ?P] =>
      replace (String_match text P) with (@None match_result)
        by (symmetry; exact (String_match_needs_label label _ text H))
  end.

Lemma first_return_app_none {A} (l1 X : list (completion (option A))) d :
  Forall (fun s => s = Normal None) l1 ->
  first_return (l1 ++ X) d = first_return X d.
Proof. induction 1 as [|s t -> _ IH]; simpl; [reflexivity | exact IH]. Qed.

Lemma String_match_g_needs_label label r text :
  mentions label text = false ->
  String_match_g text (mkRegExp (RSeq (lit label) r) true) = None.
Proof.
  intros H.
  destruct (String_match_g text _) as [l|] eqn:E; [|reflexivity].
  exfalso. apply (not_mentioned _ _ H).
  destruct l as [|x l]; [destruct (String_match_g_nonempty _ _ _ E eq_refl)|].
  destruct (String_match_g_sound _ _ _ x E (or_introl eq_refl))
    as (sk & post & st' & -> & M).
  cbn [source ignoreCase] in M.
  inversion M as [| | |? ? ? w1 ? w2 ? M1 M2| | | | | |]; subst.
  apply Matches_lit in M1. exists sk, w1, (w2 ++ post).
  split; [|exact M1]. rewrite <- app_assoc. reflexivity.
Qed.

Lemma parseNameservers_colon_lines
  (f : jsstring) (earlier later : list jsstring)
  (label : jsstring) (lines : list ns_line) (pre post text : jsstring) :
  colonPatterns = earlier ++ f :: later ->
  Forall (fun g : jsstring => mentions g text = false) earlier ->
  spelled true f label ->
  lines <> [] -> Forall ns_line_ok lines ->
  whole_lines pre ->
  mentions f pre = false ->
  mentions f post = false ->
  text = pre ++ lines_text (map (colon_line label) lines) ++ post ->
  mentions (js "Name servers:") text = false ->
  mentions (js "Nameservers") text = false ->
  parseNameservers text = Normal (Some (map nl_name lines)).
Proof.
  intros Esplit Hearlier Hlab Hne Hok Hpre Hmpre Hmpost Etext HA HB.
  assert (Hf : In f colonPatterns).
  { rewrite Esplit. apply in_or_app. right. left. reflexivity. }
  destruct (colonPatterns_labels f Hf) as (_ & Hfc & _).
  unfold parseNameservers, multilinePatterns. cbn [map app].
  rewrite first_return_skip by (no_match_by HA (js "Name servers:"); reflexivity).
  rewrite first_return_skip by (no_match_by HB (js "Nameservers"); reflexivity).
  rewrite Esplit, map_app, <- app_assoc.
  rewrite first_return_app_none.
  - cbn [map app]. apply first_return_take.
    rewrite Etext,
      (colon_lines_found f label lines pre post Hf Hlab Hok Hne Hpre Hmpre
         Hmpost).
    replace (0 <? length (map (colon_line label) lines))%nat with true
      by (destruct lines; [congruence | reflexivity]).
    rewrite (mapM_map_all _ _ nl_name); [reflexivity|].
    intros l Hl. rewrite Forall_forall in Hok.
    apply (colon_line_entry f); auto.
  - clear - Hearlier. induction Hearlier as [|g gs Hg _ IH]; [constructor|].
    cbn [map]. constructor; [|exact IH].
    unfold nsColonRegex. rewrite (String_match_g_needs_label _ _ _ Hg).
    reflexivity.
Qed.

(** X5.  A run of name server lines in the colon form is read back
    exactly.  Let [f] be one of the labels of the colon form ([nserver],
    [Name Server], [Host Name] and so on) and let the labels listed before
    it not occur in the text.  Let the text be whole lines without [f],
    then one or more lines made of [f] in any letter case, a colon, blanks,
    a host name without white space or colon, and possibly a blank and
    more text without a colon (the addresses that follow the name in some
    formats), then a rest without [f]; and let the text hold neither
    [Name servers:] nor [Nameservers].  Then [nameservers] is the list of
    the host names in their order, each without its one final dot. *)
Theorem colon_lines_read_back
  (f : jsstring) (earlier later : list jsstring)
  (label : jsstring) (lines : list ns_line) (pre post text : jsstring)
  (now : Z) (fallback : option jsstring) :
  colonPatterns = earlier ++ f :: later ->
  Forall (fun g : jsstring => mentions g text = false) earlier ->
  spelled true f label ->
  lines <> [] -> Forall ns_line_ok lines ->
  whole_lines pre ->
  mentions f pre = false ->
  mentions f post = false ->
  text = pre ++ lines_text (map (colon_line label) lines) ++ post ->
  mentions (js "Name servers:") text = false ->
  mentions (js "Nameservers") text = false ->
  exists r,
    parseWhoisData text now fallback = Normal r /\
    nameservers r = Some (map nl_name lines).
Proof.
  intros Esplit Hearlier Hlab Hne Hok Hpre Hmpre Hmpost Etext HA HB.
  destruct (parseWhoisData_normal text now fallback) as [r Hr].
  exists r. split; [exact Hr|].
  apply parseWhoisData_inv in Hr.
  destruct Hr as (pd & _ & _ & _ & _ & _ & Hns & _).
  rewrite (parseNameservers_colon_lines f earlier later label lines pre post
             text Esplit Hearlier Hlab Hne Hok Hpre Hmpre Hmpost Etext HA HB)
    in Hns.
  injection Hns as <-. reflexivity.
Qed.

Lemma no_final_dot_by_last (s : jsstring) c :
  last s c <> ch "." -> forall h, s <> h ++ [ch "."].
Proof. intros H h E. apply H. rewrite E. apply last_last. Qed.

Lemma colon_lines_read_back_witness :
  exists r,
    parseWhoisData
      (js "Domain Name: EXAMPLE.CC" ++ LF ::
       js "NAME SERVER:  ns1.example.org. 192.0.2.1" ++ LF ::
       js "NAME SERVER:  ns2.example.org" ++ LF ::
       js "source: TEST" ++ [LF]) 2025%Z None = Normal r /\
    nameservers r = Some [js "ns1.example.org"; js "ns2.example.org"].
Proof.
  apply (colon_lines_read_back (js "Name Server")
           [js "nserver"; js "Nserver"]
           [js "nameservers"; js "nameserver"; js "Host Name"]
           (js "NAME SERVER")
           [NsLine (js "  ") (js "ns1.example.org") true (js " 192.0.2.1");
            NsLine (js "  ") (js "ns2.example.org") false []]
           (js "Domain Name: EXAMPLE.CC" ++ [LF])
           (js "source: TEST" ++ [LF])).
  - reflexivity.
  - repeat constructor.
  - repeat constructor.
  - discriminate.
  - constructor; [|constructor; [|constructor]].
    + split; [repeat constructor|].
      split; [discriminate|]. split; [repeat constructor|].
      split; [vm_compute; intuition discriminate|].
      split; [discriminate|].
      split; [right; eexists _, _; split; reflexivity|].
      split; [repeat constructor|].
      vm_compute; intuition discriminate.
    + split; [repeat constructor|].
      split; [discriminate|]. split; [repeat constructor|].
      split; [vm_compute; intuition discriminate|].
      split; [intros _; apply (no_final_dot_by_last _ 0); discriminate|].
      split; [left; reflexivity|].
      split; [constructor|].
      intros [].
  - right. eexists. reflexivity.
  - reflexivity.
  - reflexivity.
  - reflexivity.
  - reflexivity.
  - reflexivity.
Defined.

(** ** Name server lines in the bracket form *)

Lemma mentions_occurs p s : mentions p s = true -> occurs p s.
Proof.
  unfold mentions. destruct (String_match s _) as [m|] eqn:E; [|discriminate].
  intros _. apply String_match_parts in E.
  destruct E as (pre & post & st' & -> & M & _).
  simpl in M. apply Matches_lit in M. exists pre, (matched m), post. auto.
Qed.

Lemma spelled_In p w c :
  spelled true p w -> isLetter c = false -> In c p -> In c w.
Proof.
  intros H Hc. induction H as [|pc x p w Hx H IH]; [intros []|].
  intros [->|Hin].
  - left. apply (chr_exact true c x Hc Hx).
  - right. auto.
Qed.

Lemma not_mentioned_without p s c :
  isLetter c = false -> In c p -> ~ In c s -> mentions p s = false.
Proof.
  intros Hc Hp Hs. destruct (mentions p s) eqn:E; [|reflexivity].
  exfalso. apply mentions_occurs in E. destruct E as (a & w & b & -> & Hw).
  apply Hs. apply in_or_app. right. apply in_or_app. left.
  apply (spelled_In p w c Hw Hc Hp).
Qed.

(** The colon form finds nothing in a text without a colon. *)
Lemma String_match_g_no_colon text field :
  ~ In (ch ":") text -> String_match_g text (nsColonRegex field) = None.
Proof.
  intros H. destruct (String_match_g text _) as [l|] eqn:E; [|reflexivity].
  exfalso. destruct l as [|x l];
    [exact (String_match_g_nonempty _ _ _ E eq_refl)|].
  destruct (String_match_g_sound _ _ _ x E (or_introl eq_refl))
    as (sk & post & st' & -> & M).
  apply H. apply in_or_app. right. apply in_or_app. left.
  clear - M. unfold nsColonRegex, source, ignoreCase in M.
  remember (MState (length sk) (x ++ post) []) as st0 eqn:E0. clear E0.
  inversion M as [| | |? ? ? w1 ? w2 ? M1 M2 E1 E2 E3| | | | | |]. subst.
  clear M M1. apply in_or_app. right. invM.
  match goal with
  | Hc : atom_matches true (Chr _) ?c = true |- _ =>
      apply chr_exact in Hc; [subst c | reflexivity]
  end.
  apply in_or_app. right. left. reflexivity.
Qed.

Lemma search_label_first label rest :
  spelled true (js "[Name Server]") label ->
  exists m, String_match (label ++ rest) nsLabel = Some m /\
            index m = 0%nat /\ matched m = label.
Proof.
  intros Hlab. eexists. split.
  - unfold String_match. apply search_here. unfold match_at.
    change (ignoreCase nsLabel) with true.
    change (source nsLabel) with (lit (js "[Name Server]")).
    rewrite (run_lit true Some (MState (0 + length label) rest [])
               (js "[Name Server]") label 0 rest [] Hlab eq_refl).
    reflexivity.
  - split; [reflexivity|]. simpl. apply firstn_exact. lia.
Qed.

Lemma bracket_line_entry label l :
  spelled true (js "[Name Server]") label -> ns_line_ok l ->
  first_word (trim (String_replace (bracket_line label l) nsLabel []))
  = nl_host l.
Proof.
  intros Hlab Hok.
  destruct (nl_host_facts l Hok) as (Hhne & Hhns & _ & _).
  destruct Hok as (Hgap & _ & _ & _ & _ & Htail & _).
  unfold bracket_line, String_replace.
  destruct (search_label_first label (nl_gap l ++ nl_host l ++ nl_tail l) Hlab)
    as (m & -> & -> & ->).
  simpl. rewrite skipn_app, skipn_all, Nat.sub_diag. simpl.
  apply first_word_trim; assumption.
Qed.

Lemma bracket_line_match label l pos rest :
  spelled true (js "[Name Server]") label -> ns_line_ok l ->
  nl_gap l <> [] ->
  exists m,
    match_at nsBracketRegex pos (bracket_line label l ++ LF :: rest) = Some m /\
    matched m = bracket_line label l.
Proof.
  intros Hlab Hok Hg.
  destruct (nl_host_facts l Hok) as (Hhne & Hhns & _ & _).
  destruct Hok as (Hgap & _ & _ & _ & _ & _ & Htl & _).
  assert (Hrun : exists st',
    rmatch true (source nsBracketRegex) Some
      (MState pos
         (label ++ nl_gap l ++ (nl_host l ++ nl_tail l) ++ LF :: rest) [])
    = Some st' /\
    m_pos st' = (pos + length (bracket_line label l))%nat).
  { eexists. split.
    - unfold nsBracketRegex, source, seq, fold_right.
      apply run_seq, run_lit; [exact Hlab|].
      apply run_seq, run_quant;
        [apply spaces_atom, Hgap
        | destruct (nl_gap l); [congruence | simpl; lia]
        | intros ? [=]
        | right; rewrite <- app_assoc;
          apply head_no_space_fails; assumption|].
      apply run_seq, run_group_quant;
        [apply dots_atom, Forall_app; split;
           [apply no_space_single_line, Hhns | exact Htl]
        | rewrite length_app; destruct (nl_host l); [congruence | simpl; lia]
        | intros ? [=] | right; reflexivity|].
      apply run_empty. reflexivity.
    - unfold bracket_line. cbn [m_pos]. repeat rewrite length_app. lia. }
  destruct Hrun as (st' & Hrun & Hpos).
  assert (Ein : bracket_line label l ++ LF :: rest
                = label ++ nl_gap l ++ (nl_host l ++ nl_tail l) ++ LF :: rest).
  { unfold bracket_line. repeat rewrite <- app_assoc. reflexivity. }
  unfold match_at. change (ignoreCase nsBracketRegex) with true.
  rewrite Ein, Hrun, <- Ein. eexists. split; [reflexivity|].
  simpl. apply firstn_exact. lia.
Qed.

Lemma bracket_lines_found label lines pre post :
  spelled true (js "[Name Server]") label -> Forall ns_line_ok lines ->
  Forall (fun l => nl_gap l <> []) lines ->
  lines <> [] ->
  whole_lines pre -> mentions (js "[Name Server]") pre = false ->
  mentions (js "[Name Server]") post = false ->
  String_match_g (pre ++ lines_text (map (bracket_line label) lines) ++ post)
    nsBracketRegex
  = Some (map (bracket_line label) lines).
Proof.
  intros Hlab Hok Hgaps Hne Hpre Hmpre Hmpost.
  unfold String_match_g.
  assert (E : collect nsBracketRegex 0
                (pre ++ lines_text (map (bracket_line label) lines) ++ post) 0
              = map (bracket_line label) lines).
  { change nsBracketRegex
      with (mkRegExp (RSeq (lit (js "[Name Server]"))
                        (seq [plus space; RGroup 1 (plus Dot)])) true).
    rewrite collect_past.
    2:{ intros sk c t E. eapply no_match_in_lines_before; eauto.
        - repeat constructor.
        - discriminate. }
    rewrite collect_lines.
    2:{ intros body Hb. apply in_map_iff in Hb. destruct Hb as (l & <- & Hl).
        rewrite Forall_forall in Hok, Hgaps.
        specialize (Hok _ Hl). specialize (Hgaps _ Hl).
        split.
        - unfold bracket_line. inversion Hlab; subst. discriminate.
        - intros pos rest. split.
          + apply (bracket_line_match label l pos rest); assumption.
          + apply match_at_label_head; reflexivity. }
    rewrite collect_nothing.
    2:{ intros sk rest' E. eapply no_match_without_label; eauto. }
    apply app_nil_r. }
  rewrite E. destruct lines; [congruence | reflexivity].
Qed.

Lemma parseNameservers_bracket_lines label lines pre post text :
  spelled true (js "[Name Server]") label ->
  lines <> [] -> Forall ns_line_ok lines ->
  Forall (fun l => nl_gap l <> []) lines ->
  whole_lines pre ->
  mentions (js "[Name Server]") pre = false ->
  mentions (js "[Name Server]") post = false ->
  text = pre ++ lines_text (map (bracket_line label) lines) ++ post ->
  ~ In (ch ":") text ->
  mentions (js "Nameservers") text = false ->
  parseNameservers text = Normal (Some (map nl_host lines)).
Proof.
  intros Hlab Hne Hok Hgaps Hpre Hmpre Hmpost Etext Hcolon HB.
  assert (HA : mentions (js "Name servers:") text = false).
  { apply (not_mentioned_without _ _ (ch ":")); [reflexivity | in_list | exact Hcolon]. }
  unfold parseNameservers, multilinePatterns, colonPatterns. cbn [map app].
  rewrite first_return_skip by (no_match_by HA (js "Name servers:"); reflexivity).
  rewrite first_return_skip by (no_match_by HB (js "Nameservers"); reflexivity).
  do 6 (rewrite first_return_skip
          by (rewrite (String_match_g_no_colon _ _ Hcolon); reflexivity)).
  apply first_return_take.
  rewrite Etext,
    (bracket_lines_found label lines pre post Hlab Hok Hgaps Hne Hpre Hmpre Hmpost).
  replace (0 <? length (map (bracket_line label) lines))%nat with true
    by (destruct lines; [congruence | reflexivity]).
  rewrite map_map. do 3 f_equal. apply map_ext_in.
  intros l Hl. rewrite Forall_forall in Hok.
  apply bracket_line_entry; auto.
Qed.

(** X6.  A run of [[Name Server]] lines is read back exactly, final dots
    included.  Let the text hold no colon and not the word [Nameservers],
    and let it be whole lines without the label, then one or more lines
    made of the label [[Name Server]] in any letter case, one or more
    blanks, a host name without white space, and possibly a blank and more
    text, then a rest without the label.  Then [nameservers] is the list of
    the host names in their order, and a name that ends in a dot keeps
    it. *)
Theorem bracket_lines_read_back label lines pre post text now fallback :
  spelled true (js "[Name Server]") label ->
  lines <> [] -> Forall ns_line_ok lines ->
  Forall (fun l => nl_gap l <> []) lines ->
  whole_lines pre ->
  mentions (js "[Name Server]") pre = false ->
  mentions (js "[Name Server]") post = false ->
  text = pre ++ lines_text (map (bracket_line label) lines) ++ post ->
  ~ In (ch ":") text ->
  mentions (js "Nameservers") text = false ->
  exists r,
    parseWhoisData text now fallback = Normal r /\
    nameservers r = Some (map nl_host lines).
Proof.
  intros Hlab Hne Hok Hgaps Hpre Hmpre Hmpost Etext Hcolon HB.
  destruct (parseWhoisData_normal text now fallback) as [r Hr].
  exists r. split; [exact Hr|].
  apply parseWhoisData_inv in Hr.
  destruct Hr as (pd & _ & _ & _ & _ & _ & Hns & _).
  rewrite (parseNameservers_bracket_lines label lines pre post text
             Hlab Hne Hok Hgaps Hpre Hmpre Hmpost Etext Hcolon HB) in Hns.
  injection Hns as <-. reflexivity.
Qed.

Lemma bracket_lines_read_back_witness :
  exists r,
    parseWhoisData
      (js "[Domain Name]  EXAMPLE.JP" ++ LF ::
       js "[Name Server]   ns1.example.jp." ++ LF ::
       js "[Name Server]   ns2.example.jp" ++ LF ::
       js "[State]  Active" ++ [LF]) 2025%Z None = Normal r /\
    nameservers r = Some [js "ns1.example.jp."; js "ns2.example.jp"].
Proof.
  apply (bracket_lines_read_back (js "[Name Server]")
           [NsLine (js "   ") (js "ns1.example.jp") true [];
            NsLine (js "   ") (js "ns2.example.jp") false []]
           (js "[Domain Name]  EXAMPLE.JP" ++ [LF])
           (js "[State]  Active" ++ [LF])).
  - repeat constructor.
  - discriminate.
  - constructor; [|constructor; [|constructor]].
    + split; [repeat constructor|].
      split; [discriminate|]. split; [repeat constructor|].
      split; [vm_compute; intuition discriminate|].
      split; [discriminate|].
      split; [left; reflexivity|].
      split; [constructor|].
      intros [].
    + split; [repeat constructor|].
      split; [discriminate|]. split; [repeat constructor|].
      split; [vm_compute; intuition discriminate|].
      split; [intros _; apply (no_final_dot_by_last _ 0); discriminate|].
      split; [left; reflexivity|].
      split; [constructor|].
      intros [].
  - repeat constructor; discriminate.
  - right. eexists. reflexivity.
  - reflexivity.
  - reflexivity.
  - reflexivity.
  - vm_compute. intuition discriminate.
  - reflexivity.
Defined.

(** ** Fields whose labels are absent *)

Lemma spelled_same_ci p q w :
  same_ci p q -> spelled true p w -> spelled true q w.
Proof.
  unfold same_ci. intros E H. revert q E.
  induction H as [|pc c p w Hc H IH]; intros q E.
  - destruct q; [constructor | discriminate].
  - destruct q as [|qc q]; [discriminate|]. simpl in E.
    injection E as Ec E. constructor; [|apply IH; exact E].
    unfold atom_matches, canonicalize in *. rewrite <- Ec. exact Hc.
Qed.

Lemma spelled_app_inv ic p1 p2 w :
  spelled ic (p1 ++ p2) w ->
  exists w1 w2, w = w1 ++ w2 /\ spelled ic p1 w1 /\ spelled ic p2 w2.
Proof.
  intros H. apply Forall2_app_inv_l in H.
  destruct H as (w1 & w2 & H1 & H2 & ->). eauto.
Qed.

(** A text that spells a label spells every part of the label. *)
Lemma occurs_part p q a b s :
  same_ci q (a ++ p ++ b) -> occurs q s -> occurs p s.
Proof.
  intros E (x & w & y & -> & Hw).
  apply (spelled_same_ci _ _ _ E) in Hw.
  apply spelled_app_inv in Hw. destruct Hw as (wa & w' & -> & _ & Hw).
  apply spelled_app_inv in Hw. destruct Hw as (wp & wb & -> & Hw & _).
  exists (x ++ wa), wp, (wb ++ y). split; [|exact Hw].
  repeat rewrite <- app_assoc. reflexivity.
Qed.

Lemma Matches_requires ic p r :
  requires p r ->
  forall st w st', Matches ic r st w st' ->
  exists a w' b, w = a ++ w' ++ b /\ spelled ic p w'.
Proof.
  induction 1 as [|c ->|r1 r2 _ IH|r1 r2 _ IH|n r _ IH]; intros st w st' M.
  - apply Matches_lit in M. exists [], w, []. rewrite app_nil_r. auto.
  - inversion M; subst. exists [], [c0], []. split; [reflexivity|].
    constructor; [assumption | constructor].
  - inversion M as [| | |? ? ? w1 ? w2 ? M1 M2| | | | | |]; subst.
    destruct (IH _ _ _ M1) as (a & w' & b & -> & Hw).
    exists a, w', (b ++ w2). repeat rewrite <- app_assoc. auto.
  - inversion M as [| | |? ? ? w1 ? w2 ? M1 M2| | | | | |]; subst.
    destruct (IH _ _ _ M2) as (a & w' & b & -> & Hw).
    exists (w1 ++ a), w', b. repeat rewrite <- app_assoc. auto.
  - inversion M; subst. eauto.
Qed.

Lemma String_match_requires text re m q :
  String_match text re = Some m -> requires q (source re) -> occurs q text.
Proof.
  intros E Hq. apply String_match_parts in E.
  destruct E as (pre & post & st' & -> & M & _).
  destruct (Matches_requires _ _ _ Hq _ _ _ M) as (a & w' & b & -> & Hw).
  exists (pre ++ a), w', (b ++ post).
  split; [|apply (spelled_any_case _ _ _ Hw)].
  repeat rewrite <- app_assoc. reflexivity.
Qed.

(** A pattern that requires a label finds nothing in a text without a part
    of that label. *)
Lemma String_match_absent p q a b text re :
  mentions p text = false -> same_ci q (a ++ p ++ b) ->
  requires q (source re) ->
  String_match text re = None.
Proof.
  intros Hp E Hq. destruct (String_match text re) as [m|] eqn:Em; [|reflexivity].
  exfalso. apply (not_mentioned _ _ Hp).
  apply (occurs_part p q a b _ E).
  apply (String_match_requires _ _ _ _ Em Hq).
Qed.

Lemma String_match_g_absent p q a b text re :
  mentions p text = false -> same_ci q (a ++ p ++ b) ->
  requires q (source re) ->
  String_match_g text re = None.
Proof.
  intros Hp E Hq. destruct (String_match_g text re) as [l|] eqn:El; [|reflexivity].
  exfalso. apply (not_mentioned _ _ Hp).
  apply (occurs_part p q a b _ E).
  destruct l as [|x l]; [destruct (String_match_g_nonempty _ _ _ El eq_refl)|].
  destruct (String_match_g_sound _ _ _ x El (or_introl eq_refl))
    as (sk & post & st' & -> & M).
  destruct (Matches_requires _ _ _ Hq _ _ _ M) as (a' & w' & b' & -> & Hw).
  exists (sk ++ a'), w', (b' ++ post).
  split; [|apply (spelled_any_case _ _ _ Hw)].
  repeat rewrite <- app_assoc. reflexivity.
Qed.

Lemma first_return_all_none {A} (steps : list (completion (option A))) d :
  Forall (fun s => s = Normal None) steps -> first_return steps d = Normal d.
Proof.
  induction 1 as [|s t -> _ IH]; simpl; [reflexivity | exact IH].
Qed.

(** [parseField] gives [null] when each of its labels has a part that the
    text does not hold. *)
Lemma parseField_absent text field alts :
  Forall (fun f => exists p a b, mentions p text = false /\
                                 same_ci f (a ++ p ++ b)) (field :: alts) ->
  parseField text field alts = Normal None.
Proof.
  intros H. unfold parseField. apply first_return_all_none.
  induction H as [|f fs (p & a & b & Hp & E) _ IH]; [constructor|].
  cbn [flat_map app].
  constructor; [|constructor; [|exact IH]].
  - rewrite (String_match_absent p f a b text (colonFieldRegex f) Hp E);
      [reflexivity|]. apply req_seq_l, req_lit.
  - rewrite (String_match_absent p f a b text (bracketFieldRegex f) Hp E);
      [reflexivity|]. apply req_seq_r, req_seq_l, req_lit.
Qed.

Ltac part_of p a b :=
  exists p, a, b; split; [assumption | reflexivity].

Lemma parseNameservers_absent text :
  mentions (js "server") text = false ->
  mentions (js "host name") text = false ->
  parseNameservers text = Normal None.
Proof.
  intros Hs Hh. unfold parseNameservers. apply first_return_all_none.
  unfold multilinePatterns, colonPatterns. cbn [map app].
  repeat constructor.
  - rewrite (String_match_absent _ (js "Name servers:") (js "Name ") (js "s:")
               _ _ Hs eq_refl); [reflexivity | apply req_seq_l, req_lit].
  - rewrite (String_match_absent _ (js "Nameservers") (js "Name") (js "s")
               _ _ Hs eq_refl); [reflexivity | apply req_seq_l, req_lit].
  - rewrite (String_match_g_absent _ (js "nserver") (js "n") []
               _ _ Hs eq_refl); [reflexivity | apply req_seq_l, req_lit].
  - rewrite (String_match_g_absent _ (js "Nserver") (js "N") []
               _ _ Hs eq_refl); [reflexivity | apply req_seq_l, req_lit].
  - rewrite (String_match_g_absent _ (js "Name Server") (js "Name ") []
               _ _ Hs eq_refl); [reflexivity | apply req_seq_l, req_lit].
  - rewrite (String_match_g_absent _ (js "nameservers") (js "name") (js "s")
               _ _ Hs eq_refl); [reflexivity | apply req_seq_l, req_lit].
  - rewrite (String_match_g_absent _ (js "nameserver") (js "name") []
               _ _ Hs eq_refl); [reflexivity | apply req_seq_l, req_lit].
  - rewrite (String_match_g_absent _ (js "Host Name") [] []
               _ _ Hh eq_refl); [reflexivity | apply req_seq_l, req_lit].
  - rewrite (String_match_g_absent _ (js "[Name Server]") (js "[Name ") (js "]")
               _ _ Hs eq_refl); [reflexivity | apply req_seq_l, req_lit].
Qed.

(** X7.  Fields whose labels are absent are null.  Whatever the text: if it
    does not hold the word [domain], in whatever case, the record's
    domainName is the caller's fallback; without [registrar] the registrar
    is null; without [registrant] and [org] the registrant is null;
    without [dnssec] and [signed] dnssec is null; without [last modified],
    [last update] and [changed] lastModified is null; and without [server]
    and [host name] nameservers is null. *)
Theorem absent_labels_give_null_fields (whoisText : jsstring) (now : Z)
  (fallback : option jsstring) :
  exists r,
    parseWhoisData whoisText now fallback = Normal r /\
    (mentions (js "domain") whoisText = false -> domainName r = fallback) /\
    (mentions (js "registrar") whoisText = false -> registrar r = None) /\
    (mentions (js "registrant") whoisText = false ->
     mentions (js "org") whoisText = false -> registrant r = None) /\
    (mentions (js "dnssec") whoisText = false ->
     mentions (js "signed") whoisText = false -> dnssec r = None) /\
    (mentions (js "last modified") whoisText = false ->
     mentions (js "last update") whoisText = false ->
     mentions (js "changed") whoisText = false -> lastModified r = None) /\
    (mentions (js "server") whoisText = false ->
     mentions (js "host name") whoisText = false -> nameservers r = None).
Proof.
  destruct (parseWhoisData_normal whoisText now fallback) as [r Hr].
  exists r. split; [exact Hr|].
  apply parseWhoisData_inv in Hr.
  destruct Hr as (pd & Hpd & Hdom & Hreg & _ & _ & Hns & Hrt & _ & Hds & Hlm).
  split; [|split; [|split; [|split; [|split]]]].
  - intros H. rewrite parseField_absent in Hpd.
    + injection Hpd as <-. exact Hdom.
    + repeat constructor;
        [part_of (js "domain") (@nil char) (@nil char)
        |part_of (js "domain") (@nil char) (js " Name")
        |part_of (js "domain") (@nil char) (js " name")
        |part_of (js "domain") (@nil char) (@nil char)].
  - intros H. rewrite parseField_absent in Hreg.
    + injection Hreg as <-. reflexivity.
    + repeat constructor; part_of (js "registrar") (@nil char) (@nil char).
  - intros H1 H2. rewrite parseField_absent in Hrt.
    + injection Hrt as <-. reflexivity.
    + repeat constructor;
        [part_of (js "registrant") (@nil char) (@nil char)
        |part_of (js "registrant") (@nil char) (js " name")
        |part_of (js "org") (@nil char) (@nil char)
        |part_of (js "org") (@nil char) (js "anization")].
  - intros H1 H2. rewrite parseField_absent in Hds.
    + injection Hds as <-. reflexivity.
    + repeat constructor;
        [part_of (js "dnssec") (@nil char) (@nil char)
        |part_of (js "signed") (@nil char) (@nil char)
        |part_of (js "dnssec") (@nil char) (@nil char)].
  - intros H1 H2 H3. rewrite parseField_absent in Hlm.
    + injection Hlm as <-. reflexivity.
    + repeat constructor;
        [part_of (js "last modified") (@nil char) (@nil char)
        |part_of (js "last modified") (@nil char) (@nil char)
        |part_of (js "last update") (@nil char) (@nil char)
        |part_of (js "changed") (@nil char) (@nil char)
        |part_of (js "changed") (@nil char) (@nil char)].
  - intros H1 H2. rewrite (parseNameservers_absent _ H1 H2) in Hns.
    injection Hns as <-. reflexivity.
Qed.

Lemma absent_labels_give_null_fields_witness :
  exists r,
    parseWhoisData (js "No match for example.ax") 2025%Z (Some (js "example.ax"))
    = Normal r /\
    domainName r = Some (js "example.ax") /\ registrar r = None /\
    nameservers r = None.
Proof.
  destruct (absent_labels_give_null_fields
              (js "No match for example.ax") 2025%Z (Some (js "example.ax")))
    as (r & Hr & Hdom & Hreg & _ & _ & _ & Hns).
  exists r. split; [exact Hr|].
  split; [apply Hdom; reflexivity|].
  split; [apply Hreg; reflexivity|].
  apply Hns; reflexivity.
Defined.

Lemma parseDate_absent text now patterns :
  Forall (fun p => String_match text p = None) patterns ->
  parseDate text now patterns = Normal None.
Proof.
  intros H. unfold parseDate. apply first_return_all_none.
  induction H as [|p ps Hp _ IH]; simpl; constructor; [|exact IH].
  rewrite Hp. reflexivity.
Qed.

Ltac absent_by H q a b :=
  apply (String_match_absent _ q a b _ _ H eq_refl);
  cbv [source rest_of_line seq fold_right];
  first [ apply req_seq_l, req_lit
        | apply req_seq_l, req_seq_l, req_lit
        | apply req_seq_l, req_seq_r, req_seq_l, req_lit ].

(** X8.  Dates whose labels are absent are null.  Whatever the text and
    the year of the call: without [registered], [created] and
    [creation date], in whatever case, and without the Japanese label of
    the registration date, creationDate is null; without [registry fee],
    [paid-till], [expir] and [renewal date] and without the Japanese label
    of the expiry date, expirationDate is null. *)
Theorem absent_labels_give_null_dates (whoisText : jsstring) (now : Z)
  (fallback : option jsstring) :
  exists r,
    parseWhoisData whoisText now fallback = Normal r /\
    (mentions (js "registered") whoisText = false ->
     mentions (js "created") whoisText = false ->
     mentions (js "creation date") whoisText = false ->
     mentions label_registered whoisText = false ->
     creationDate r = None) /\
    (mentions (js "registry fee") whoisText = false ->
     mentions (js "paid-till") whoisText = false ->
     mentions (js "expir") whoisText = false ->
     mentions (js "renewal date") whoisText = false ->
     mentions label_expires whoisText = false ->
     expirationDate r = None).
Proof.
  destruct (parseWhoisData_normal whoisText now fallback) as [r Hr].
  exists r. split; [exact Hr|].
  apply parseWhoisData_inv in Hr.
  destruct Hr as (pd & _ & _ & _ & Hcd & Hed & _).
  unfold parseCreationDate in Hcd. unfold parseExpiryDate in Hed.
  split.
  - intros H1 H2 H3 H4. rewrite parseDate_absent in Hcd.
    + injection Hcd as <-. reflexivity.
    + unfold creationPatterns. repeat constructor.
      * absent_by H1 (js "Registered on ") (@nil char) (js " on ").
      * absent_by H2 (js "created:") (@nil char) (js ":").
      * absent_by H2 (js "Created:") (@nil char) (js ":").
      * absent_by H3 (js "Creation Date:") (@nil char) (js ":").
      * absent_by H2 (js "Created On:") (@nil char) (js " On:").
      * absent_by H1 (js "Registered Date") (@nil char) (js " Date").
      * absent_by H4 label_registered (@nil char) (@nil char).
  - intros H1 H2 H3 H4 H5. rewrite parseDate_absent in Hed.
    + injection Hed as <-. reflexivity.
    + unfold expiryPatterns. repeat constructor.
      * absent_by H1 (js "Registry fee due on ") (@nil char) (js " due on ").
      * absent_by H2 (js "paid-till:") (@nil char) (js ":").
      * absent_by H3 (js "Expire Date:") (@nil char) (js "e Date:").
      * absent_by H3 (js "Registry Expiry Date:") (js "Registry ") (js "y Date:").
      * absent_by H3 (js "Expiration Date") (@nil char) (js "ation Date").
      * absent_by H4 (js "renewal date:") (@nil char) (js ":").
      * absent_by H3 (js "Expires On:") (@nil char) (js "es On:").
      * absent_by H5 label_expires (@nil char) (@nil char).
Qed.

Lemma absent_labels_give_null_dates_witness :
  exists r,
    parseWhoisData (js "Domain: example.ax") 2025%Z None = Normal r /\
    creationDate r = None /\ expirationDate r = None.
Proof.
  destruct (absent_labels_give_null_dates (js "Domain: example.ax") 2025%Z None)
    as (r & Hr & Hcd & Hed).
  exists r. split; [exact Hr|].
  split; [apply Hcd; reflexivity | apply Hed; reflexivity].
Defined.

(** ** Labels that differ in letter case only *)

Lemma rmatch_lit_same_ci p q :
  same_ci p q -> forall k st, rmatch true (lit p) k st = rmatch true (lit q) k st.
Proof.
  unfold same_ci. revert q.
  induction p as [|c p IH]; intros [|d q] E k st; try discriminate;
    [reflexivity|].
  simpl in E. injection E as Ec E.
  rewrite !lit_cons. cbn [rmatch].
  destruct (m_rest st) as [|x t]; [reflexivity|].
  unfold atom_matches, canonicalize. rewrite Ec.
  destruct (toAsciiUpper d =? toAsciiUpper x); [|reflexivity].
  apply IH. exact E.
Qed.

Lemma search_ext re1 re2 :
  (forall pos rest, match_at re1 pos rest = match_at re2 pos rest) ->
  forall rest pos, search re1 pos rest = search re2 pos rest.
Proof.
  intros H. induction rest as [|c t IH]; intros pos; simpl; rewrite H;
    [reflexivity|].
  destruct (match_at re2 pos (c :: t)); [reflexivity | apply IH].
Qed.

Lemma collect_ext re1 re2 :
  (forall pos rest, match_at re1 pos rest = match_at re2 pos rest) ->
  forall rest pos skip, collect re1 pos rest skip = collect re2 pos rest skip.
Proof.
  intros H. induction rest as [|c t IH]; intros pos [|skip]; simpl;
    try rewrite H; try reflexivity.
  - destruct (match_at re2 pos (c :: t)); [f_equal|]; apply IH.
  - apply IH.
Qed.

Lemma match_at_same_ci p q r pos rest :
  same_ci p q ->
  match_at (mkRegExp (RSeq (lit p) r) true) pos rest
  = match_at (mkRegExp (RSeq (lit q) r) true) pos rest.
Proof.
  intros E. unfold match_at. cbn [source ignoreCase rmatch].
  rewrite (rmatch_lit_same_ci p q E). reflexivity.
Qed.

Lemma colonFieldRegex_same_ci text f g :
  same_ci f g ->
  String_match text (colonFieldRegex f) = String_match text (colonFieldRegex g).
Proof.
  intros E. apply search_ext. intros pos rest. apply match_at_same_ci, E.
Qed.

Lemma bracketFieldRegex_same_ci text f g :
  same_ci f g ->
  String_match text (bracketFieldRegex f)
  = String_match text (bracketFieldRegex g).
Proof.
  intros E. apply search_ext. intros pos rest.
  unfold match_at, bracketFieldRegex. cbn [source ignoreCase].
  unfold chr. cbn [rmatch]. cbn [m_rest].
  destruct rest as [|x t]; [reflexivity|].
  destruct (atom_matches true (Chr (ch "[")) x); [|reflexivity].
  rewrite (rmatch_lit_same_ci f g E). reflexivity.
Qed.

(** Either every step of [l1] passes, or [l1] decides whatever follows. *)
Lemma first_return_app_cases {A} (l1 : list (completion (option A))) d :
  Forall (fun s => s = Normal None) l1 \/
  exists res, forall X, first_return (l1 ++ X) d = res.
Proof.
  induction l1 as [|s t IH]; [left; constructor|].
  destruct s as [[a|]|e].
  - right. exists (Normal a). reflexivity.
  - destruct IH as [IH|[res IH]].
    + left. constructor; [reflexivity | exact IH].
    + right. exists res. intros X. simpl. apply IH.
  - right. exists (Throw e). reflexivity.
Qed.

(** A step that was tried before changes nothing when it is tried again. *)
Lemma first_return_repeated {A} (l1 l l2 : list (completion (option A))) d :
  incl l l1 ->
  first_return (l1 ++ l ++ l2) d = first_return (l1 ++ l2) d.
Proof.
  intros Hin. destruct (first_return_app_cases l1 d) as [Hnone|[res Hres]].
  - rewrite !(first_return_app_none l1 _ d Hnone).
    apply first_return_app_none. rewrite Forall_forall in *. auto.
  - rewrite !Hres. reflexivity.
Qed.

Lemma parseField_repeated_label text field alts1 g alts2 f' :
  In f' (field :: alts1) -> same_ci f' g ->
  parseField text field (alts1 ++ g :: alts2)
  = parseField text field (alts1 ++ alts2).
Proof.
  intros Hin E. unfold parseField.
  change (field :: alts1 ++ g :: alts2) with ((field :: alts1) ++ g :: alts2).
  change (field :: alts1 ++ alts2) with ((field :: alts1) ++ alts2).
  match goal with
  | |- first_return (flat_map ?F _) _ = _ => set (steps := F)
  end.
  rewrite !flat_map_app.
  change (flat_map steps (g :: alts2)) with (steps g ++ flat_map steps alts2).
  apply first_return_repeated.
  intros s Hs. apply in_flat_map. exists f'. split; [exact Hin|].
  unfold steps in *.
  rewrite (colonFieldRegex_same_ci text f' g E),
    (bracketFieldRegex_same_ci text f' g E).
  exact Hs.
Qed.

(** X9.  Alternative labels that repeat an earlier label in another letter
    case never change a field: all patterns ignore case.  The registrar is
    found with [Registrar] alone as it is with [REGISTRAR] and [registrar]
    added, and [domain name], [domain], [dnssec], [last modified] and
    [changed] are as redundant in their lists. *)
Theorem case_variants_of_labels_are_redundant (whoisText : jsstring) :
  parseField whoisText (js "Domain") [js "Domain Name"; js "domain name"; js "domain"]
  = parseField whoisText (js "Domain") [js "Domain Name"] /\
  parseField whoisText (js "Registrar") [js "REGISTRAR"; js "registrar"]
  = parseField whoisText (js "Registrar") [] /\
  parseField whoisText (js "DNSSEC") [js "Signed"; js "dnssec"]
  = parseField whoisText (js "DNSSEC") [js "Signed"] /\
  parseField whoisText (js "Last Modified")
    [js "last modified"; js "Last Update"; js "Changed"; js "changed"]
  = parseField whoisText (js "Last Modified") [js "Last Update"; js "Changed"].
Proof.
  split; [|split; [|split]].
  - transitivity (parseField whoisText (js "Domain")
                    [js "Domain Name"; js "domain name"]).
    + exact (parseField_repeated_label whoisText (js "Domain")
               [js "Domain Name"; js "domain name"] (js "domain") []
               (js "Domain") ltac:(in_list) eq_refl).
    + exact (parseField_repeated_label whoisText (js "Domain")
               [js "Domain Name"] (js "domain name") [] (js "Domain Name")
               ltac:(in_list) eq_refl).
  - transitivity (parseField whoisText (js "Registrar") [js "REGISTRAR"]).
    + exact (parseField_repeated_label whoisText (js "Registrar")
               [js "REGISTRAR"] (js "registrar") [] (js "Registrar")
               ltac:(in_list) eq_refl).
    + exact (parseField_repeated_label whoisText (js "Registrar")
               [] (js "REGISTRAR") [] (js "Registrar") ltac:(in_list) eq_refl).
  - exact (parseField_repeated_label whoisText (js "DNSSEC")
             [js "Signed"] (js "dnssec") [] (js "DNSSEC") ltac:(in_list) eq_refl).
  - transitivity (parseField whoisText (js "Last Modified")
                    [js "last modified"; js "Last Update"; js "Changed"]).
    + exact (parseField_repeated_label whoisText (js "Last Modified")
               [js "last modified"; js "Last Update"; js "Changed"]
               (js "changed") [] (js "Changed") ltac:(in_list) eq_refl).
    + exact (parseField_repeated_label whoisText (js "Last Modified")
               [] (js "last modified") [js "Last Update"; js "Changed"]
               (js "Last Modified") ltac:(in_list) eq_refl).
Qed.

Lemma String_match_g_same_ci text f g :
  same_ci f g ->
  String_match_g text (nsColonRegex f) = String_match_g text (nsColonRegex g).
Proof.
  intros E. unfold String_match_g.
  rewrite (collect_ext (nsColonRegex f) (nsColonRegex g)); [reflexivity|].
  intros pos rest. apply match_at_same_ci, E.
Qed.

Lemma parseDate_repeated_pattern text now l1 p l2 p' :
  In p' l1 -> String_match text p = String_match text p' ->
  parseDate text now (l1 ++ p :: l2) = parseDate text now (l1 ++ l2).
Proof.
  intros Hin E. unfold parseDate.
  match goal with
  | |- first_return (map ?F _) _ = _ => set (step := F)
  end.
  rewrite !map_app.
  change (map step (p :: l2)) with ([step p] ++ map step l2).
  apply first_return_repeated.
  intros s [<-|[]]. apply in_map_iff. exists p'. split; [|exact Hin].
  unfold step. rewrite E. reflexivity.
Qed.

(** X10.  Two patterns of the lists repeat their neighbour in another
    letter case and so never decide: the creation date is the same with
    the pattern [Created:] taken out of the list, [created:] being tried
    before it; and the name server pattern for [Nserver] finds in every
    text exactly what the one for [nserver], tried before it, finds. *)
Theorem case_variants_of_patterns_are_redundant (whoisText : jsstring) (now : Z) :
  parseCreationDate whoisText now
  = parseDate whoisText now
      (firstn 2 creationPatterns ++ skipn 3 creationPatterns) /\
  String_match_g whoisText (nsColonRegex (js "Nserver"))
  = String_match_g whoisText (nsColonRegex (js "nserver")).
Proof.
  split.
  - apply (parseDate_repeated_pattern whoisText now
             (firstn 2 creationPatterns) (nth 2 creationPatterns nsLabel)
             (skipn 3 creationPatterns) (nth 1 creationPatterns nsLabel)).
    + right. left. reflexivity.
    + apply search_ext. intros pos rest.
      apply (match_at_same_ci (js "Created:") (js "created:")). reflexivity.
  - apply String_match_g_same_ci. reflexivity.
Qed.

(** ** The first line that carries a label *)

Lemma search_past re rest : forall pre pos,
  (forall sk c t, pre = sk ++ c :: t ->
                  match_at re (pos + length sk) ((c :: t) ++ rest) = None) ->
  search re pos (pre ++ rest) = search re (pos + length pre) rest.
Proof.
  induction pre as [|c pre IH]; intros pos H.
  - simpl. rewrite Nat.add_0_r. reflexivity.
  - pose proof (H [] c pre eq_refl) as H0. simpl in H0.
    rewrite Nat.add_0_r in H0. simpl. rewrite H0.
    rewrite IH.
    + f_equal. lia.
    + intros sk c' t E. specialize (H (c :: sk) c' t).
      simpl in H. rewrite E in H. specialize (H eq_refl).
      replace (S pos + length sk)%nat with (pos + S (length sk))%nat by lia.
      exact H.
Qed.

(** A pattern that opens with a label is first tried with success where
    the label first stands, in a text of whole lines before it. *)
Lemma String_match_first_label label r pre rest m ic :
  label <> [] -> on_one_line label ->
  whole_lines pre -> mentions label pre = false ->
  match_at (mkRegExp (RSeq (lit label) r) ic) (length pre) rest = Some m ->
  String_match (pre ++ rest) (mkRegExp (RSeq (lit label) r) ic) = Some m.
Proof.
  intros Hne Hone Hpre Hmen Hm. unfold String_match.
  rewrite search_past.
  - apply search_here. exact Hm.
  - intros sk c t E. eapply no_match_in_lines_before; eauto.
Qed.

Lemma line_ends_fails ic rest : line_ends rest -> head_fails ic Dot rest.
Proof.
  intros [->|(c & t & -> & Hc)]; simpl; [exact I|].
  rewrite Hc. reflexivity.
Qed.

Lemma dots_or_spaces_atom ic w :
  dots_or_spaces w ->
  Forall (fun c => atom_matches ic dot_or_space c = true) w.
Proof.
  apply Forall_impl. intros c [->|H].
  - destruct ic; reflexivity.
  - simpl. rewrite H. apply orb_true_r.
Qed.

Lemma ink_fails ic value t : starts_with_ink value -> head_fails ic space (value ++ t).
Proof.
  intros (c & v & -> & Hc). simpl. rewrite Hc. reflexivity.
Qed.

Lemma ink_nonempty value : starts_with_ink value -> (1 <= length value)%nat.
Proof. intros (c & v & -> & _). simpl. lia. Qed.

Lemma colon_field_match field label fill gap value rest pos :
  spelled true field label -> dots_or_spaces fill -> spaces gap ->
  single_line value -> starts_with_ink value -> line_ends rest ->
  exists m,
    match_at (colonFieldRegex field) pos
      (label ++ fill ++ ch ":" :: gap ++ value ++ rest) = Some m /\
    group m 1 = Some value.
Proof.
  intros Hlab Hfill Hgap Hval Hink Hrest.
  assert (Hrun : exists st',
    rmatch true (source (colonFieldRegex field)) Some
      (MState pos (label ++ fill ++ ch ":" :: gap ++ value ++ rest) [])
    = Some st' /\ m_caps st' = [(1%nat, value)]).
  { eexists. split.
    - unfold colonFieldRegex, source, seq, fold_right.
      apply run_seq, run_lit; [exact Hlab|].
      apply run_seq, run_quant;
        [apply dots_or_spaces_atom, Hfill | lia | intros ? [=]
        | right; reflexivity|].
      apply run_seq, run_atom; [reflexivity|].
      apply run_seq, run_quant;
        [apply spaces_atom, Hgap | lia | intros ? [=]
        | right; apply ink_fails, Hink|].
      apply run_seq, run_group_quant;
        [apply dots_atom, Hval | apply ink_nonempty, Hink | intros ? [=]
        | right; apply line_ends_fails, Hrest|].
      apply run_empty. reflexivity.
    - reflexivity. }
  destruct Hrun as (st' & Hrun & Hcaps).
  unfold match_at. change (ignoreCase (colonFieldRegex field)) with true.
  rewrite Hrun. eexists. split; [reflexivity|].
  unfold group. cbn [groups]. rewrite Hcaps. reflexivity.
Qed.

Lemma colon_atom c : atom_matches true (Chr (ch ":")) c = true -> c = ch ":".
Proof.
  unfold atom_matches, canonicalize, toAsciiUpper, isLowerAZ. intros H.
  apply N.eqb_eq in H. cbn in H.
  destruct (N.leb_spec 97 c), (N.leb_spec c 122); cbn [andb] in H;
    cbn; lia.
Qed.

(** The colon pattern of a label needs the label before a colon. *)
Lemma colonFieldRegex_needs_colon g text :
  before_colon g text = false -> String_match text (colonFieldRegex g) = None.
Proof.
  intros H.
  destruct (String_match text (colonFieldRegex g)) as [m|] eqn:E;
    [|reflexivity].
  exfalso. apply String_match_parts in E.
  destruct E as (pre & post & st' & Etext & M & _).
  unfold colonFieldRegex in M. cbn [source ignoreCase] in M.
  unfold seq, fold_right, star, chr in M.
  inversion M as [| | |? ? ? w1 st1 w2 ? M1 M2| | | | | |]; subst.
  inversion M2 as [| | |? ? ? w3 st3 w4 ? M3 M4| | | | | |]; subst.
  inversion M4 as [| | |? ? ? w5 st5 w6 ? M5 M6| | | | | |]; subst.
  clear M M2 M4 M6.
  pose proof (Matches_lit _ _ _ _ _ M1) as Hw.
  destruct (Matches_consumes _ _ _ _ _ M1) as [E1 P1]. cbn [m_rest m_pos] in E1, P1.
  inversion M3 as [| |? ? ? ? w t pos caps Hall _ _| | | | | | |]; subst.
  inversion M5 as [|? c t5 ? ? Hc| | | | | | | |]; subst.
  apply colon_atom in Hc. subst c. clear M1 M3 M5.
  cbn [m_rest] in E1. rewrite <- H3, E1 in H. clear H3 E1 P1.
  set (re := mkRegExp (RSeq (lit g) (seq [star dot_or_space; chr ":"])) true).
  assert (Hrun : exists st,
    rmatch true (source re) Some
      (MState (0 + length pre) (w1 ++ w3 ++ ch ":" :: t5) []) = Some st).
  { eexists. unfold re, source, seq, fold_right.
    apply run_seq, run_lit; [exact Hw|].
    apply run_seq, run_quant;
      [exact Hall | lia | intros ? [=] | right; reflexivity|].
    apply run_seq, run_atom; [reflexivity|].
    apply run_empty. reflexivity. }
  destruct Hrun as [st Hrun].
  assert (Hm : exists m0,
    match_at re (0 + length pre) (w1 ++ w3 ++ ch ":" :: t5) = Some m0).
  { unfold match_at. change (ignoreCase re) with true. rewrite Hrun.
    eexists. reflexivity. }
  destruct Hm as [m0 Hm].
  destruct (search_finds re pre 0 _ m0 Hm) as [m' Hs].
  unfold before_colon, String_match in H. fold re in H. rewrite Hs in H.
  discriminate.
Qed.

Lemma date_line_match lbl label gap value rest pos :
  spelled true lbl label -> spaces gap ->
  single_line value -> starts_with_ink value -> line_ends rest ->
  exists m,
    match_at (mkRegExp (rest_of_line (lit lbl) (star space)) true) pos
      (label ++ gap ++ value ++ rest) = Some m /\
    group m 1 = Some value.
Proof.
  intros Hlab Hgap Hval Hink Hrest.
  assert (Hrun : exists st',
    rmatch true (rest_of_line (lit lbl) (star space)) Some
      (MState pos (label ++ gap ++ value ++ rest) [])
    = Some st' /\ m_caps st' = [(1%nat, value)]).
  { eexists. split.
    - unfold rest_of_line.
      apply run_seq, run_lit; [exact Hlab|].
      apply run_seq, run_quant;
        [apply spaces_atom, Hgap | lia | intros ? [=]
        | right; apply ink_fails, Hink|].
      apply run_group_quant;
        [apply dots_atom, Hval | apply ink_nonempty, Hink | intros ? [=]
        | right; apply line_ends_fails, Hrest|].
      reflexivity.
    - reflexivity. }
  destruct Hrun as (st' & Hrun & Hcaps).
  unfold match_at. cbn [source ignoreCase].
  rewrite Hrun. eexists. split; [reflexivity|].
  unfold group. cbn [groups]. rewrite Hcaps. reflexivity.
Qed.

Lemma parseCreationDate_line text now pre label gap value rest :
  mentions (js "registered on ") text = false ->
  mentions (js "created:") text = false ->
  whole_lines pre -> mentions (js "Creation Date:") pre = false ->
  spelled true (js "Creation Date:") label -> spaces gap ->
  single_line value -> starts_with_ink value -> line_ends rest ->
  text = pre ++ label ++ gap ++ value ++ rest ->
  parseCreationDate text now = normalizeDateString now (trim value).
Proof.
  intros H1 H2 Hpre Hmen Hlab Hgap Hval Hink Hrest Etext.
  unfold parseCreationDate, parseDate, creationPatterns. cbn [map].
  rewrite first_return_skip
    by (rewrite (String_match_absent _ (js "Registered on ") [] []
                   _ _ H1 eq_refl);
        [reflexivity | apply req_seq_l, req_lit]).
  rewrite first_return_skip
    by (rewrite (String_match_absent _ (js "created:") [] []
                   _ _ H2 eq_refl);
        [reflexivity | apply req_seq_l, req_lit]).
  rewrite first_return_skip
    by (rewrite (String_match_absent _ (js "Created:") [] []
                   _ _ H2 eq_refl);
        [reflexivity | apply req_seq_l, req_lit]).
  destruct (date_line_match (js "Creation Date:") label gap value rest
              (length pre) Hlab Hgap Hval Hink Hrest) as (m & Hm & Hg).
  unfold rest_of_line in *.
  rewrite Etext,
    (String_match_first_label (js "Creation Date:") _ pre _ m);
    [|discriminate | repeat constructor | exact Hpre | exact Hmen | exact Hm].
  rewrite Hg. cbn [first_return method bind].
  destruct (normalizeDateString now (trim value)) as [d|e]; reflexivity.
Qed.

(** X12.  The creation date is read from the first [Creation Date:] line.
    Let the text hold neither [registered on ] nor [created:], in whatever
    case, and let it be whole lines without the label, then the label
    [Creation Date:] in any letter case, blanks, and a value that starts
    with a character other than white space and runs to the end of its
    line.  Then creationDate is what the date normalizer answers for the
    value trimmed at its end. *)
Theorem creation_date_line_read_back
  text now fallback pre label gap value rest :
  mentions (js "registered on ") text = false ->
  mentions (js "created:") text = false ->
  whole_lines pre -> mentions (js "Creation Date:") pre = false ->
  spelled true (js "Creation Date:") label -> spaces gap ->
  single_line value -> starts_with_ink value -> line_ends rest ->
  text = pre ++ label ++ gap ++ value ++ rest ->
  exists r,
    parseWhoisData text now fallback = Normal r /\
    normalizeDateString now (trim value) = Normal (creationDate r).
Proof.
  intros H1 H2 Hpre Hmen Hlab Hgap Hval Hink Hrest Etext.
  destruct (parseWhoisData_normal text now fallback) as [r Hr].
  exists r. split; [exact Hr|].
  apply parseWhoisData_inv in Hr.
  destruct Hr as (pd & _ & _ & _ & Hcd & _).
  rewrite <- Hcd. symmetry.
  apply (parseCreationDate_line text now pre label gap value rest); assumption.
Qed.

Lemma creation_date_line_read_back_witness :
  exists r,
    parseWhoisData
      (js "Domain Name: example.kr" ++ LF ::
       js "creation date:   2007. 03. 02. " ++ LF ::
       js "Registrar: Example") 2025%Z None = Normal r /\
    normalizeDateString 2025%Z (trim (js "2007. 03. 02. "))
    = Normal (creationDate r).
Proof.
  apply (creation_date_line_read_back _ 2025%Z None
           (js "Domain Name: example.kr" ++ [LF])
           (js "creation date:") (js "   ") (js "2007. 03. 02. ")
           (LF :: js "Registrar: Example")).
  - reflexivity.
  - reflexivity.
  - right. eexists. reflexivity.
  - reflexivity.
  - repeat constructor.
  - repeat constructor.
  - repeat constructor.
  - eexists _, _. split; reflexivity.
  - right. eexists _, _. split; reflexivity.
  - reflexivity.
Defined.

Lemma parseExpiryDate_line text now pre label gap value rest :
  mentions (js "registry fee due on ") text = false ->
  mentions (js "paid-till:") text = false ->
  mentions (js "expire date:") text = false ->
  whole_lines pre -> mentions (js "Registry Expiry Date:") pre = false ->
  spelled true (js "Registry Expiry Date:") label -> spaces gap ->
  single_line value -> starts_with_ink value -> line_ends rest ->
  text = pre ++ label ++ gap ++ value ++ rest ->
  parseExpiryDate text now = normalizeDateString now (trim value).
Proof.
  intros H1 H2 H3 Hpre Hmen Hlab Hgap Hval Hink Hrest Etext.
  unfold parseExpiryDate, parseDate, expiryPatterns. cbn [map].
  rewrite first_return_skip
    by (rewrite (String_match_absent _ (js "Registry fee due on ") [] []
                   _ _ H1 eq_refl);
        [reflexivity | apply req_seq_l, req_lit]).
  rewrite first_return_skip
    by (rewrite (String_match_absent _ (js "paid-till:") [] []
                   _ _ H2 eq_refl);
        [reflexivity | apply req_seq_l, req_lit]).
  rewrite first_return_skip
    by (rewrite (String_match_absent _ (js "Expire Date:") [] []
                   _ _ H3 eq_refl);
        [reflexivity | apply req_seq_l, req_lit]).
  destruct (date_line_match (js "Registry Expiry Date:") label gap value rest
              (length pre) Hlab Hgap Hval Hink Hrest) as (m & Hm & Hg).
  unfold rest_of_line in *.
  rewrite Etext,
    (String_match_first_label (js "Registry Expiry Date:") _ pre _ m);
    [|discriminate | repeat constructor | exact Hpre | exact Hmen | exact Hm].
  rewrite Hg. cbn [first_return method bind].
  destruct (normalizeDateString now (trim value)) as [d|e]; reflexivity.
Qed.

(** X23.  The expiry date is read from the first [Registry Expiry Date:]
    line.  Let the text hold none of [registry fee due on ], [paid-till:]
    and [expire date:], in whatever case, and let it be whole lines without
    the label, then the label [Registry Expiry Date:] in any letter case,
    blanks, and a value that starts with a character other than white
    space and runs to the end of its line.  Then expirationDate is what
    the date normalizer answers for the value trimmed at its end. *)
Theorem expiry_date_line_read_back
  text now fallback pre label gap value rest :
  mentions (js "registry fee due on ") text = false ->
  mentions (js "paid-till:") text = false ->
  mentions (js "expire date:") text = false ->
  whole_lines pre -> mentions (js "Registry Expiry Date:") pre = false ->
  spelled true (js "Registry Expiry Date:") label -> spaces gap ->
  single_line value -> starts_with_ink value -> line_ends rest ->
  text = pre ++ label ++ gap ++ value ++ rest ->
  exists r,
    parseWhoisData text now fallback = Normal r /\
    normalizeDateString now (trim value) = Normal (expirationDate r).
Proof.
  intros H1 H2 H3 Hpre Hmen Hlab Hgap Hval Hink Hrest Etext.
  destruct (parseWhoisData_normal text now fallback) as [r Hr].
  exists r. split; [exact Hr|].
  apply parseWhoisData_inv in Hr.
  destruct Hr as (pd & _ & _ & _ & _ & Hed & _).
  rewrite <- Hed. symmetry.
  apply (parseExpiryDate_line text now pre label gap value rest); assumption.
Qed.

Lemma expiry_date_line_read_back_witness :
  exists r,
    parseWhoisData
      (js "Domain Name: EXAMPLE.CC" ++ LF ::
       js "Registry Expiry Date: 2026-05-30T04:00:00Z " ++ [LF])
      2025%Z None = Normal r /\
    normalizeDateString 2025%Z (trim (js "2026-05-30T04:00:00Z "))
    = Normal (expirationDate r).
Proof.
  apply (expiry_date_line_read_back _ 2025%Z None
           (js "Domain Name: EXAMPLE.CC" ++ [LF])
           (js "Registry Expiry Date:") (js " ") (js "2026-05-30T04:00:00Z ")
           [LF]).
  - reflexivity.
  - reflexivity.
  - reflexivity.
  - right. eexists. reflexivity.
  - reflexivity.
  - repeat constructor.
  - repeat constructor.
  - repeat constructor.
  - eexists _, _. split; reflexivity.
  - right. eexists _, _. split; reflexivity.
  - reflexivity.
Defined.

(** ** Blocks that end at a blank line *)

Lemma lazy_loop_first ic a k res : forall w pos t caps,
  Forall (fun c => atom_matches ic a c = true) w ->
  (forall w1 c w2, w = w1 ++ c :: w2 ->
     k (MState (pos + length w1) (c :: w2 ++ t) caps) = None) ->
  k (MState (pos + length w) t caps) = Some res ->
  lazy_loop ic a 0 None k pos (w ++ t) caps = Some res.
Proof.
  induction w as [|c w IH]; intros pos t caps Hall Hno Hk.
  - simpl in Hk. rewrite Nat.add_0_r in Hk.
    destruct t; simpl; rewrite Hk; reflexivity.
  - inversion Hall as [|? ? Hc Hall']; subst.
    pose proof (Hno [] c w eq_refl) as H0. simpl in H0.
    rewrite Nat.add_0_r in H0.
    simpl. rewrite H0, Hc. apply IH.
    + exact Hall'.
    + intros w1 c' w2 E. specialize (Hno (c :: w1) c' w2).
      simpl in Hno. rewrite E in Hno. specialize (Hno eq_refl).
      replace (S pos + length w1)%nat with (pos + S (length w1))%nat by lia.
      exact Hno.
    + replace (S pos + length w)%nat with (pos + length (c :: w))%nat
        by (simpl; lia).
      exact Hk.
Qed.

Lemma run_group_lazy ic n a k pos w t caps res :
  Forall (fun c => atom_matches ic a c = true) w ->
  (forall w1 c w2 caps', w = w1 ++ c :: w2 ->
     k (MState (pos + length w1) (c :: w2 ++ t) caps') = None) ->
  k (MState (pos + length w) t ((n, w) :: caps)) = Some res ->
  rmatch ic (RGroup n (RQuant a 0 None false)) k (MState pos (w ++ t) caps)
  = Some res.
Proof.
  intros Hall Hno Hk. cbn [rmatch m_pos m_rest m_caps].
  apply lazy_loop_first.
  - exact Hall.
  - intros w1 c w2 E. cbn [m_pos m_rest m_caps]. apply Hno. exact E.
  - cbn [m_pos m_rest m_caps]. rewrite firstn_consumed. exact Hk.
Qed.

Lemma anything_atom ic w : Forall (fun c => atom_matches ic anything c = true) w.
Proof.
  apply Forall_forall. intros c _. simpl.
  destruct (isSpace c); reflexivity.
Qed.

(** Where the lookahead of a block pattern fails: the rest neither opens
    with a blank line nor spells the closing word. *)
Lemma block_end_fails other p s caps :
  (forall t, s <> LF :: LF :: t) ->
  (forall w t, s = w ++ t -> ~ spelled true other w) ->
  rmatch true (RSeq (RLookahead (RAlt (lit [LF; LF]) (lit other))) REmpty)
    Some (MState p s caps) = None.
Proof.
  intros Hlf Hother.
  destruct (rmatch true _ Some (MState p s caps)) as [res|] eqn:E;
    [|reflexivity].
  exfalso. apply rmatch_sound in E. destruct E as (w & st' & M & _).
  inversion M as [| | |? ? ? w1 ? w2 ? M1 M2| | | | | |]; subst.
  inversion M1 as [| | | | | | |? ? w0 st0 M0| |]; subst.
  destruct (Matches_consumes _ _ _ _ _ M0) as [E0 _]. cbn [m_rest] in E0.
  inversion M0 as [| | | |? ? ? ? ? ML|? ? ? ? ? MR| | | |]; subst.
  - apply Matches_lit in ML.
    inversion ML as [|? x ? w' Hx ML']; subst.
    inversion ML' as [|? y ? w'' Hy ML'']; subst.
    inversion ML''; subst.
    apply chr_exact in Hx; [|reflexivity].
    apply chr_exact in Hy; [|reflexivity]. subst.
    apply (Hlf (m_rest st0)). reflexivity.
  - apply Matches_lit in MR. apply (Hother _ _ eq_refl MR).
Qed.

Lemma block_end_holds other p post caps :
  rmatch true (RSeq (RLookahead (RAlt (lit [LF; LF]) (lit other))) REmpty)
    Some (MState p (LF :: LF :: post) caps)
  = Some (MState p (LF :: LF :: post) caps).
Proof. reflexivity. Qed.

(** A block pattern, [label\s*([\s\S]*?)(?=\n\n|other)], on a label,
    blanks, a body and a blank line, where the body gives the lookahead no
    earlier chance. *)
Lemma block_match lbl other label gap body post pos :
  spelled true lbl label -> spaces gap -> starts_with_ink body ->
  (forall b1 c b2, body = b1 ++ c :: b2 ->
     (forall t, c :: b2 ++ LF :: LF :: post <> LF :: LF :: t) /\
     (forall w t, c :: b2 ++ LF :: LF :: post = w ++ t ->
                  ~ spelled true other w)) ->
  exists m,
    match_at
      (mkRegExp (seq [lit lbl; star space; RGroup 1 (lazy_star anything);
                      RLookahead (RAlt (lit [LF; LF]) (lit other))]) true)
      pos (label ++ gap ++ body ++ LF :: LF :: post) = Some m /\
    group m 1 = Some body.
Proof.
  intros Hlab Hgap Hink Hno.
  assert (Hrun : exists st',
    rmatch true
      (seq [lit lbl; star space; RGroup 1 (lazy_star anything);
            RLookahead (RAlt (lit [LF; LF]) (lit other))]) Some
      (MState pos (label ++ gap ++ body ++ LF :: LF :: post) [])
    = Some st' /\ m_caps st' = [(1%nat, body)]).
  { eexists. split.
    - unfold seq, fold_right.
      apply run_seq, run_lit; [exact Hlab|].
      apply run_seq, run_quant;
        [apply spaces_atom, Hgap | lia | intros ? [=]
        | right; apply ink_fails, Hink|].
      apply run_seq. unfold lazy_star. apply run_group_lazy.
      + apply anything_atom.
      + intros b1 c b2 caps' E. destruct (Hno b1 c b2 E) as [H1 H2].
        apply block_end_fails; assumption.
      + apply block_end_holds.
    - reflexivity. }
  destruct Hrun as (st' & Hrun & Hcaps).
  unfold match_at. cbn [source ignoreCase].
  rewrite Hrun. eexists. split; [reflexivity|].
  unfold group. cbn [groups]. rewrite Hcaps. reflexivity.
Qed.

Lemma split_join_lines lines :
  lines <> [] -> Forall (fun l => ~ In LF l) lines ->
  split_chr LF (join_lines lines) = lines.
Proof.
  intros Hne H. induction H as [|l ls Hl H IH]; [congruence|].
  destruct ls as [|l2 ls].
  - simpl. apply split_chr_none. exact Hl.
  - change (join_lines (l :: l2 :: ls)) with (l ++ LF :: join_lines (l2 :: ls)).
    rewrite (split_chr_first _ _ _ Hl). f_equal. apply IH. discriminate.
Qed.

Lemma join_lines_head l ls c t :
  l = c :: t -> exists t', join_lines (l :: ls) = c :: t'.
Proof.
  intros ->. destruct ls; simpl; eauto.
Qed.

(** Between lines that are not empty there is no blank line, and no line
    feed closes the last of them. *)
Lemma join_lines_no_blank lines :
  Forall (fun l => l <> [] /\ ~ In LF l) lines ->
  forall b1 b2, join_lines lines = b1 ++ LF :: b2 ->
  exists c b2', b2 = c :: b2' /\ c <> LF.
Proof.
  induction 1 as [|l ls [Hne Hl] H IH]; intros b1 b2 E.
  - destruct b1; discriminate.
  - destruct ls as [|l2 ls].
    + simpl in E. exfalso. apply Hl. rewrite E.
      apply in_or_app. right. left. reflexivity.
    + change (join_lines (l :: l2 :: ls))
        with (l ++ LF :: join_lines (l2 :: ls)) in E.
      assert (Hhead : exists c t', join_lines (l2 :: ls) = c :: t' /\ c <> LF).
      { inversion H as [|? ? [Hne2 Hl2] _]; subst.
        destruct l2 as [|c t]; [congruence|].
        destruct (join_lines_head (c :: t) ls c t eq_refl) as [t' Et].
        exists c, t'. split; [exact Et|].
        intros ->. apply Hl2. left. reflexivity. }
      apply app_eq_app in E. destruct E as [x [[E1 E2]|[E1 E2]]].
      * destruct x as [|c' x].
        -- cbn [app] in E2. injection E2 as ->. exact Hhead.
        -- cbn [app] in E2. injection E2 as <- _. exfalso. apply Hl.
           rewrite E1. apply in_or_app. right. left. reflexivity.
      * destruct x as [|c' x].
        -- cbn [app] in E2. injection E2 as <-. exact Hhead.
        -- cbn [app] in E2. injection E2 as <- E2. apply (IH x b2 E2).
Qed.

Lemma prefix_before_line_feed (w t x y : jsstring) :
  w ++ t = x ++ LF :: y -> ~ In LF w -> exists z, x = w ++ z.
Proof.
  intros E Hw. apply app_eq_app in E. destruct E as [l [[E1 E2]|[E1 E2]]].
  - destruct l as [|c l].
    + exists []. rewrite E1, !app_nil_r. reflexivity.
    + simpl in E2. injection E2 as <- _. exfalso. apply Hw.
      rewrite E1. apply in_or_app. right. left. reflexivity.
  - exists l. exact E1.
Qed.

(** The body of a block of lines gives the lookahead no early chance. *)
Lemma lines_hold_no_block_end other lines post :
  on_one_line other -> other <> [] ->
  Forall (fun l => l <> [] /\ ~ In LF l) lines ->
  mentions other (join_lines lines) = false ->
  forall b1 c b2, join_lines lines = b1 ++ c :: b2 ->
    (forall t, c :: b2 ++ LF :: LF :: post <> LF :: LF :: t) /\
    (forall w t, c :: b2 ++ LF :: LF :: post = w ++ t ->
                 ~ spelled true other w).
Proof.
  intros Hone Hne Hlines Hmen b1 c b2 E. split.
  - intros t Et. injection Et as -> Et.
    destruct (join_lines_no_blank lines Hlines b1 b2 E) as (c & b2' & -> & Hc).
    simpl in Et. injection Et as ->. congruence.
  - intros w t Ew Hw.
    pose proof (spelled_no_line_feed _ _ Hone Hw) as Hnolf.
    change (c :: b2 ++ LF :: LF :: post)
      with ((c :: b2) ++ LF :: LF :: post) in Ew.
    symmetry in Ew.
    destruct (prefix_before_line_feed w t (c :: b2) (LF :: post) Ew Hnolf)
      as [z Ez].
    apply (not_mentioned _ _ Hmen). exists b1, w, z.
    split; [|exact Hw]. rewrite E, Ez. reflexivity.
Qed.

Lemma trimmed_lines_kept lines :
  Forall (fun l => trim l <> []) lines ->
  filter (fun line => negb (is_empty line)) (map trim lines) = map trim lines.
Proof.
  induction 1 as [|l ls Hl _ IH]; simpl; [reflexivity|].
  destruct (trim l); [congruence|]. simpl. rewrite IH. reflexivity.
Qed.

Lemma trim_nil_inv l : trim l <> [] -> l <> [].
Proof. intros H ->. apply H. reflexivity. Qed.

Lemma parseStatus_block text pre label gap first others post :
  whole_lines pre -> mentions (js "Domain Status:") pre = false ->
  spelled true (js "Domain Status:") label -> spaces gap ->
  starts_with_ink first ->
  Forall (fun l => ~ In LF l /\ trim l <> []) (first :: others) ->
  mentions (js "Registrant:") (join_lines (first :: others)) = false ->
  text = pre ++ label ++ gap ++ join_lines (first :: others)
             ++ LF :: LF :: post ->
  parseStatus text = Normal (Some (map trim (first :: others))).
Proof.
  intros Hpre Hmen Hlab Hgap Hink Hlines Hreg Etext.
  assert (Hbody : starts_with_ink (join_lines (first :: others))).
  { destruct Hink as (c & t & E & Hc).
    destruct (join_lines_head first others c t E) as [t' Et].
    exists c, t'. auto. }
  assert (Hl1 : Forall (fun l => l <> [] /\ ~ In LF l) (first :: others)).
  { revert Hlines. apply Forall_impl. intros l [H1 H2].
    split; [apply trim_nil_inv, H2 | exact H1]. }
  destruct (block_match (js "Domain Status:") (js "Registrant:") label gap
              (join_lines (first :: others)) post (length pre)
              Hlab Hgap Hbody) as (m & Hm & Hg).
  { apply lines_hold_no_block_end;
      [repeat constructor | discriminate | exact Hl1 | exact Hreg]. }
  unfold parseStatus. apply first_return_take.
  unfold statusSectionRegex. unfold seq at 1. cbn [fold_right].
  unfold seq at 1 in Hm. cbn [fold_right] in Hm.
  rewrite Etext,
    (String_match_first_label (js "Domain Status:") _ pre _ m);
    [|discriminate | repeat constructor | exact Hpre | exact Hmen | exact Hm].
  rewrite Hg. cbn [method bind].
  rewrite split_join_lines;
    [|discriminate | revert Hlines; apply Forall_impl; tauto].
  rewrite trimmed_lines_kept; [reflexivity|].
  revert Hlines. apply Forall_impl. tauto.
Qed.

(** X13.  After [Domain Status:] the status is every line up to the next
    blank line, whatever the lines hold.  Let the text be whole lines
    without the label, then the label [Domain Status:] in any letter case,
    blanks, one or more lines that are not blank, the first starting with
    a character other than white space, none holding [Registrant:], and
    then a blank line.  Then status is the list of these lines, each
    trimmed: the lines of other fields that follow the status line before
    the blank line are entries of it too. *)
Theorem status_block_read_back
  text now fallback pre label gap first others post :
  whole_lines pre -> mentions (js "Domain Status:") pre = false ->
  spelled true (js "Domain Status:") label -> spaces gap ->
  starts_with_ink first ->
  Forall (fun l => ~ In LF l /\ trim l <> []) (first :: others) ->
  mentions (js "Registrant:") (join_lines (first :: others)) = false ->
  text = pre ++ label ++ gap ++ join_lines (first :: others)
             ++ LF :: LF :: post ->
  exists r,
    parseWhoisData text now fallback = Normal r /\
    status r = Some (map trim (first :: others)).
Proof.
  intros Hpre Hmen Hlab Hgap Hink Hlines Hreg Etext.
  destruct (parseWhoisData_normal text now fallback) as [r Hr].
  exists r. split; [exact Hr|].
  apply parseWhoisData_inv in Hr.
  destruct Hr as (pd & _ & _ & _ & _ & _ & _ & _ & Hst & _).
  rewrite (parseStatus_block text pre label gap first others post
             Hpre Hmen Hlab Hgap Hink Hlines Hreg Etext) in Hst.
  injection Hst as <-. reflexivity.
Qed.

Lemma status_block_read_back_witness :
  exists r,
    parseWhoisData
      (js "Domain: example.gg" ++ LF ::
       js "Domain Status: Active" ++ LF ::
       js "  Name Server: ns1.example.gg " ++ LF :: LF ::
       js "Registrant: Example") 2025%Z None = Normal r /\
    status r = Some [js "Active"; js "Name Server: ns1.example.gg"].
Proof.
  apply (status_block_read_back _ 2025%Z None
           (js "Domain: example.gg" ++ [LF])
           (js "Domain Status:") (js " ") (js "Active")
           [js "  Name Server: ns1.example.gg "]
           (js "Registrant: Example")).
  - right. eexists. reflexivity.
  - reflexivity.
  - repeat constructor.
  - repeat constructor.
  - eexists _, _. split; reflexivity.
  - repeat constructor; try discriminate; vm_compute; intuition discriminate.
  - reflexivity.
  - reflexivity.
Defined.

Lemma server_lines_kept lines :
  Forall (fun l => trim l <> [] /\ startsWith (js "WHOIS") (trim l) = false)
    lines ->
  filter (fun line => negb (is_empty line) &&
                      negb (startsWith (js "WHOIS") line)) (map trim lines)
  = map trim lines.
Proof.
  induction 1 as [|l ls [Hl Hw] _ IH]; [reflexivity|].
  cbn [map filter]. rewrite Hw, IH.
  destruct (trim l); [congruence | reflexivity].
Qed.

Lemma parseNameservers_block text pre label gap first others post :
  whole_lines pre -> mentions (js "Name servers:") pre = false ->
  spelled true (js "Name servers:") label -> spaces gap ->
  starts_with_ink first ->
  Forall (fun l => ~ In LF l /\ trim l <> [] /\
                   startsWith (js "WHOIS") (trim l) = false)
    (first :: others) ->
  mentions (js "WHOIS lookup") (join_lines (first :: others)) = false ->
  text = pre ++ label ++ gap ++ join_lines (first :: others)
             ++ LF :: LF :: post ->
  parseNameservers text
  = Normal (Some (map (fun l => first_word (trim l)) (first :: others))).
Proof.
  intros Hpre Hmen Hlab Hgap Hink Hlines Hwho Etext.
  assert (Hbody : starts_with_ink (join_lines (first :: others))).
  { destruct Hink as (c & t & E & Hc).
    destruct (join_lines_head first others c t E) as [t' Et].
    exists c, t'. auto. }
  assert (Hl1 : Forall (fun l => l <> [] /\ ~ In LF l) (first :: others)).
  { revert Hlines. apply Forall_impl. intros l (H1 & H2 & _).
    split; [apply trim_nil_inv, H2 | exact H1]. }
  destruct (block_match (js "Name servers:") (js "WHOIS lookup") label gap
              (join_lines (first :: others)) post (length pre)
              Hlab Hgap Hbody) as (m & Hm & Hg).
  { apply lines_hold_no_block_end;
      [repeat constructor | discriminate | exact Hl1 | exact Hwho]. }
  unfold parseNameservers, multilinePatterns. cbn [map app].
  apply first_return_take.
  unfold seq at 1. cbn [fold_right].
  unfold seq at 1 in Hm. cbn [fold_right] in Hm.
  rewrite Etext,
    (String_match_first_label (js "Name servers:") _ pre _ m);
    [|discriminate | repeat constructor | exact Hpre | exact Hmen | exact Hm].
  rewrite Hg. cbn [method bind].
  rewrite split_join_lines;
    [|discriminate | revert Hlines; apply Forall_impl; tauto].
  rewrite server_lines_kept;
    [|revert Hlines; apply Forall_impl; tauto].
  rewrite map_map. reflexivity.
Qed.

(** X14.  After [Name servers:] the name servers are the first words of
    the lines up to the next blank line.  Let the text be whole lines
    without the label, then the label [Name servers:] in any letter case,
    blanks (the end of the label's line among them), one or more lines
    that are not blank and do not start with [WHOIS] once trimmed, the
    first starting with a character other than white space, none holding
    [WHOIS lookup], and then a blank line.  Then nameservers is the list of
    the first word of each of these lines, final dots kept, whatever the
    other strategies would find in the text. *)
Theorem name_servers_block_read_back
  text now fallback pre label gap first others post :
  whole_lines pre -> mentions (js "Name servers:") pre = false ->
  spelled true (js "Name servers:") label -> spaces gap ->
  starts_with_ink first ->
  Forall (fun l => ~ In LF l /\ trim l <> [] /\
                   startsWith (js "WHOIS") (trim l) = false)
    (first :: others) ->
  mentions (js "WHOIS lookup") (join_lines (first :: others)) = false ->
  text = pre ++ label ++ gap ++ join_lines (first :: others)
             ++ LF :: LF :: post ->
  exists r,
    parseWhoisData text now fallback = Normal r /\
    nameservers r
    = Some (map (fun l => first_word (trim l)) (first :: others)).
Proof.
  intros Hpre Hmen Hlab Hgap Hink Hlines Hwho Etext.
  destruct (parseWhoisData_normal text now fallback) as [r Hr].
  exists r. split; [exact Hr|].
  apply parseWhoisData_inv in Hr.
  destruct Hr as (pd & _ & _ & _ & _ & _ & Hns & _).
  rewrite (parseNameservers_block text pre label gap first others post
             Hpre Hmen Hlab Hgap Hink Hlines Hwho Etext) in Hns.
  injection Hns as <-. reflexivity.
Qed.

Lemma name_servers_block_read_back_witness :
  exists r,
    parseWhoisData
      (js "Domain: example.gg" ++ LF ::
       js "Name servers:" ++ LF ::
       js "    ns1.example.gg. 192.0.2.1" ++ LF ::
       js "    ns2.example.gg" ++ LF :: LF ::
       js "WHOIS lookup made on Mon") 2025%Z None = Normal r /\
    nameservers r = Some [js "ns1.example.gg."; js "ns2.example.gg"].
Proof.
  apply (name_servers_block_read_back _ 2025%Z None
           (js "Domain: example.gg" ++ [LF])
           (js "Name servers:") (LF :: js "    ")
           (js "ns1.example.gg. 192.0.2.1")
           [js "    ns2.example.gg"]
           (js "WHOIS lookup made on Mon")).
  - right. eexists. reflexivity.
  - reflexivity.
  - repeat constructor.
  - repeat constructor.
  - eexists _, _. split; reflexivity.
  - repeat constructor; try discriminate; vm_compute; intuition discriminate.
  - reflexivity.
  - reflexivity.
Defined.

(** ** The query over the network *)

(** While nothing closes the exchange, the chunks pile up and the promise
    and the timeout listener stay as they are. *)
Lemma open_events_collect domain server timeout quiet : forall q,
  forallb is_open quiet = true ->
  data (fold_left (handle domain server timeout) quiet q)
  = data q ++ received quiet /\
  promise (fold_left (handle domain server timeout) quiet q) = promise q /\
  timeout_listener (fold_left (handle domain server timeout) quiet q)
  = timeout_listener q.
Proof.
  induction quiet as [|e quiet IH]; intros q H; simpl.
  - rewrite app_nil_r. auto.
  - simpl in H. apply andb_true_iff in H. destruct H as [He H].
    destruct (IH (handle domain server timeout q e) H) as (Hd & Hp & Ht).
    rewrite Hd, Hp, Ht.
    destruct e; try discriminate; simpl; rewrite <- ?app_assoc; auto.
Qed.

Lemma settle_settled p outcome : p <> Pending -> settle p outcome = p.
Proof. destruct p; [congruence | reflexivity | reflexivity]. Qed.

Lemma handle_settled domain server timeout q e :
  promise q <> Pending ->
  promise (handle domain server timeout q e) = promise q.
Proof.
  intros H. destruct e; simpl; try reflexivity.
  - unfold on_end. destruct (_ || _); simpl; apply settle_settled, H.
  - apply settle_settled, H.
  - unfold on_timeout. destruct timeout; try reflexivity.
    destruct (timeout_listener q); simpl;
      [apply settle_settled, H | reflexivity].
Qed.

(** A settled promise stays as it is, whatever the socket emits. *)
Lemma settled_stays domain server timeout later : forall q,
  promise q <> Pending ->
  promise (fold_left (handle domain server timeout) later q) = promise q.
Proof.
  induction later as [|e later IH]; intros q H; simpl; [reflexivity|].
  rewrite IH; [apply handle_settled, H|].
  rewrite (handle_settled domain server timeout q e H). exact H.
Qed.

(** A refused timeout rejects the promise before any event. *)
Lemma refused_timeout_rejects domain server message events :
  promise (whoisQuery domain server (TimeoutRefused message) events)
  = Rejected message.
Proof.
  unfold whoisQuery. rewrite settled_stays; [reflexivity | discriminate].
Qed.

Lemma accepted_starts_pending server timeout :
  accepted timeout = true -> promise (start server timeout) = Pending.
Proof. destruct timeout; [discriminate | reflexivity | reflexivity]. Qed.

Lemma blank_test s :
  is_empty s || Nat.eqb (length (trim s)) 0 = is_empty (trim s).
Proof.
  destruct s as [|c s]; [reflexivity|]. cbn [is_empty orb].
  destruct (trim (c :: s)); reflexivity.
Qed.

(** The promise after the first [end] or [error], for a timeout that
    [setTimeout] accepts. *)
Lemma end_or_error_decides domain server timeout quiet e later :
  accepted timeout = true ->
  forallb is_open quiet = true -> e = End \/ (exists m, e = SocketError m) ->
  promise (whoisQuery domain server timeout (quiet ++ e :: later))
  = match e with
    | SocketError message =>
        Rejected (js "WHOIS server " ++ server ++ js " error: " ++ message)
    | _ =>
        if is_empty (trim (received quiet))
        then Rejected (js "WHOIS server " ++ server ++ js " returned no data")
        else Resolved (received quiet)
    end.
Proof.
  intros Ha Hq He. unfold whoisQuery.
  rewrite fold_left_app. cbn [fold_left].
  destruct (open_events_collect domain server timeout quiet
              (start server timeout) Hq) as (Hd & Hp & _).
  rewrite (accepted_starts_pending server timeout Ha) in Hp.
  assert (Hd0 : data (start server timeout) = [])
    by (destruct timeout; reflexivity).
  rewrite Hd0 in Hd. cbn [app] in Hd.
  set (q := fold_left (handle domain server timeout) quiet
              (start server timeout)) in *.
  clearbody q.
  destruct He as [->|[m ->]].
  - rewrite settled_stays.
    + cbn [handle]. unfold on_end. rewrite Hd, Hp, blank_test.
      destruct (is_empty (trim (received quiet))); reflexivity.
    + cbn [handle]. unfold on_end. rewrite Hd, Hp, blank_test.
      destruct (is_empty (trim (received quiet))); discriminate.
  - rewrite settled_stays; cbn [handle on_error promise];
      rewrite Hp; [reflexivity | discriminate].
Qed.

(** The promise after the first [timeout], when the timer is armed. *)
Lemma timeout_decides domain server seconds quiet later :
  forallb is_open quiet = true ->
  promise (whoisQuery domain server (TimeoutAfter seconds)
             (quiet ++ Timeout :: later))
  = Rejected (js "WHOIS server " ++ server ++ js " timed out after " ++
              seconds ++ js " seconds").
Proof.
  intros Hq. unfold whoisQuery.
  rewrite fold_left_app. cbn [fold_left].
  destruct (open_events_collect domain server (TimeoutAfter seconds) quiet
              (start server (TimeoutAfter seconds)) Hq) as (_ & Hp & Ht).
  set (q := fold_left (handle domain server (TimeoutAfter seconds)) quiet
              (start server (TimeoutAfter seconds))) in *.
  clearbody q. cbn [start promise timeout_listener] in Hp, Ht.
  rewrite settled_stays; cbn [handle]; unfold on_timeout;
    rewrite Ht; cbn [promise]; rewrite Hp; [reflexivity | discriminate].
Qed.

(** The events up to the first that closes the exchange. *)
Lemma first_closing_event events :
  forallb is_open events = true \/
  exists quiet e later,
    events = quiet ++ e :: later /\
    forallb is_open quiet = true /\ is_open e = false.
Proof.
  induction events as [|e events IH]; [left; reflexivity|].
  destruct (is_open e) eqn:He.
  - destruct IH as [IH|(quiet & e' & later & -> & Hq & He')].
    + left. simpl. rewrite He, IH. reflexivity.
    + right. exists (e :: quiet), e', later. simpl. rewrite He, Hq. auto.
  - right. exists [], e, events. auto.
Qed.

(** X15.  The first event that closes the exchange decides the promise,
    and nothing that follows changes it.  For a timeout that [setTimeout]
    accepts, after any number of [connect] and [data] events: the promise
    is pending; an [end] fulfils it with the text of all chunks received so
    far, in order, if that text is more than white space, and rejects it
    otherwise; an [error] rejects it with the socket's message.  For a
    timeout other than 0 among these, a [timeout] event rejects it,
    whatever was received.  For a timeout that [setTimeout] refuses, the
    promise is rejected with the error of that call, whatever the socket
    emits. *)
Theorem whoisQuery_first_closing_event_decides
  (domain server : jsstring) (timeout : timeout_arg)
  (quiet later : list socket_event) :
  forallb is_open quiet = true ->
  (accepted timeout = true ->
   promise (whoisQuery domain server timeout quiet) = Pending /\
   (trim (received quiet) <> [] ->
    promise (whoisQuery domain server timeout (quiet ++ End :: later))
    = Resolved (received quiet)) /\
   (trim (received quiet) = [] ->
    promise (whoisQuery domain server timeout (quiet ++ End :: later))
    = Rejected (js "WHOIS server " ++ server ++ js " returned no data")) /\
   (forall message,
    promise (whoisQuery domain server timeout
               (quiet ++ SocketError message :: later))
    = Rejected (js "WHOIS server " ++ server ++ js " error: " ++ message))) /\
  (forall seconds,
   promise (whoisQuery domain server (TimeoutAfter seconds)
              (quiet ++ Timeout :: later))
   = Rejected (js "WHOIS server " ++ server ++ js " timed out after " ++
               seconds ++ js " seconds")) /\
  (forall message events,
   promise (whoisQuery domain server (TimeoutRefused message) events)
   = Rejected message).
Proof.
  intros Hq. split; [|split].
  - intros Ha. split; [|split; [|split]].
    + destruct (open_events_collect domain server timeout quiet
                  (start server timeout) Hq) as (_ & Hp & _).
      unfold whoisQuery. rewrite Hp.
      apply accepted_starts_pending, Ha.
    + intros H.
      rewrite (end_or_error_decides domain server timeout quiet End later
                 Ha Hq (or_introl eq_refl)).
      destruct (trim (received quiet)); [congruence | reflexivity].
    + intros H.
      rewrite (end_or_error_decides domain server timeout quiet End later
                 Ha Hq (or_introl eq_refl)).
      rewrite H. reflexivity.
    + intros message.
      apply (end_or_error_decides domain server timeout quiet
               (SocketError message) later Ha Hq).
      right. exists message. reflexivity.
  - intros seconds. apply timeout_decides, Hq.
  - intros message events. apply refused_timeout_rejects.
Qed.

Lemma whoisQuery_first_closing_event_decides_witness :
  promise (whoisQuery (js "example.ax") (js "whois.ax") (TimeoutAfter (js "30"))
             ([Connect; Data (js "domain: "); Data (js "example.ax")] ++
              End :: [Timeout; Data (js "late")]))
  = Resolved (js "domain: example.ax") /\
  promise (whoisQuery (js "example.ax") (js "whois.ax") (TimeoutAfter (js "30"))
             ([Connect; Data (js "domain: "); Data (js "example.ax")] ++
              Timeout :: [End; Data (js "late")]))
  = Rejected (js "WHOIS server whois.ax timed out after 30 seconds") /\
  promise (whoisQuery (js "example.ax") (js "whois.ax")
             (TimeoutRefused (js "out of range"))
             [Connect; Data (js "domain: example.ax"); End])
  = Rejected (js "out of range").
Proof.
  destruct (whoisQuery_first_closing_event_decides
              (js "example.ax") (js "whois.ax") (TimeoutAfter (js "30"))
              [Connect; Data (js "domain: "); Data (js "example.ax")]
              [Timeout; Data (js "late")] eq_refl) as (Ha & _ & Hr).
  destruct (whoisQuery_first_closing_event_decides
              (js "example.ax") (js "whois.ax") (TimeoutAfter (js "30"))
              [Connect; Data (js "domain: "); Data (js "example.ax")]
              [End; Data (js "late")] eq_refl) as (_ & Ht & _).
  split; [|split].
  - apply (proj1 (proj2 (Ha eq_refl))). discriminate.
  - apply Ht.
  - apply Hr.
Defined.

(** X16.  A fulfilled promise carries the whole answer.  Whatever the
    timeout and whatever the socket emits (no [timeout] event where the
    timeout is 0, which switches the idle timer off), if the promise is
    fulfilled with a text, then that text is more than white space, and it
    is the text of all the chunks that came before the first [end], in
    order; and neither an [error] nor a [timeout] came before that
    [end]. *)
Theorem whoisQuery_resolves_with_the_whole_answer
  (domain server : jsstring) (timeout : timeout_arg)
  (events : list socket_event) (value : jsstring) :
  (timeout = TimeoutOff -> ~ In Timeout events) ->
  promise (whoisQuery domain server timeout events) = Resolved value ->
  trim value <> [] /\
  exists quiet later,
    events = quiet ++ End :: later /\
    forallb is_open quiet = true /\
    value = received quiet.
Proof.
  intros Hoff H.
  destruct (accepted timeout) eqn:Ha.
  2:{ destruct timeout; try discriminate.
      rewrite refused_timeout_rejects in H. discriminate. }
  destruct (first_closing_event events)
    as [Hopen|(quiet & e & later & -> & Hq & He)].
  - destruct (open_events_collect domain server timeout events
                (start server timeout) Hopen) as (_ & Hp & _).
    unfold whoisQuery in H. rewrite Hp in H.
    rewrite (accepted_starts_pending server timeout Ha) in H.
    discriminate.
  - destruct e; try discriminate.
    + rewrite (end_or_error_decides domain server timeout quiet End later
                 Ha Hq (or_introl eq_refl)) in H.
      destruct (trim (received quiet)) eqn:Et; [discriminate|].
      injection H as <-. split; [rewrite Et; discriminate|].
      exists quiet, later. auto.
    + rewrite (end_or_error_decides domain server timeout quiet
                 (SocketError message) later Ha Hq
                 (or_intror (ex_intro _ message eq_refl))) in H.
      discriminate.
    + destruct timeout as [m| |seconds]; [discriminate| |].
      * exfalso. apply (Hoff eq_refl). apply in_or_app. right. left.
        reflexivity.
      * rewrite (timeout_decides domain server seconds quiet later Hq) in H.
        discriminate.
Qed.

Lemma whoisQuery_resolves_with_the_whole_answer_witness :
  trim (js "domain: example.ax") <> [] /\
  exists quiet later,
    [Connect; Data (js "domain: "); Data (js "example.ax"); End; Timeout]
    = quiet ++ End :: later /\
    forallb is_open quiet = true /\
    js "domain: example.ax" = received quiet.
Proof.
  apply (whoisQuery_resolves_with_the_whole_answer
           (js "example.ax") (js "whois.ax") (TimeoutAfter (js "30"))).
  - discriminate.
  - reflexivity.
Defined.

Lemma writes_app l1 l2 : writes (l1 ++ l2) = writes l1 ++ writes l2.
Proof. unfold writes. apply flat_map_app. Qed.

Lemma handle_actions domain server timeout events : forall q,
  writes (actions (fold_left (handle domain server timeout) events q))
  = writes (actions q) ++ repeat (domain ++ CRLF) (connects events) /\
  (In Destroy (actions (fold_left (handle domain server timeout) events q)) ->
   In Destroy (actions q) \/ In Timeout events).
Proof.
  induction events as [|e events IH]; intros q.
  - simpl. rewrite app_nil_r. auto.
  - cbn [fold_left].
    destruct (IH (handle domain server timeout q e)) as [Hw Hd]. split.
    + rewrite Hw. destruct e; cbn [handle]; unfold connects; cbn [filter length].
      * unfold on_connect. cbn [actions]. rewrite writes_app.
        rewrite <- app_assoc. reflexivity.
      * reflexivity.
      * unfold on_end. destruct (_ || _); reflexivity.
      * unfold on_error. cbn [actions]. rewrite writes_app.
        cbn. rewrite app_nil_r. reflexivity.
      * unfold on_timeout. destruct timeout; try reflexivity.
        destruct (timeout_listener q); [|reflexivity].
        cbn [actions]. rewrite writes_app. cbn. rewrite app_nil_r. reflexivity.
    + intros Hin. destruct (Hd Hin) as [Hq|Hev]; [|right; right; exact Hev].
      destruct e; cbn [handle] in Hq.
      * unfold on_connect in Hq. cbn [actions] in Hq.
        apply in_app_or in Hq. destruct Hq as [Hq|[Hq|[Hq|[]]]];
          [left; exact Hq | discriminate | discriminate].
      * left. exact Hq.
      * unfold on_end in Hq. destruct (_ || _); left; exact Hq.
      * unfold on_error in Hq. cbn [actions] in Hq.
        apply in_app_or in Hq. destruct Hq as [Hq|[Hq|[]]];
          [left; exact Hq | discriminate].
      * right. left. reflexivity.
Qed.

(** X17.  What the function sends and when it hangs up.  Whatever the
    timeout and whatever the socket emits, the texts written to it are the
    domain followed by CR LF, once for each [connect] event and nothing
    else; and the socket is destroyed only if a [timeout] came: after an
    [end] or an [error] the function leaves the socket as it is. *)
Theorem whoisQuery_writes_only_the_query
  (domain server : jsstring) (timeout : timeout_arg)
  (events : list socket_event) :
  writes (actions (whoisQuery domain server timeout events))
  = repeat (domain ++ CRLF) (connects events) /\
  (In Destroy (actions (whoisQuery domain server timeout events)) ->
   In Timeout events).
Proof.
  destruct (handle_actions domain server timeout events (start server timeout))
    as [Hw Hd].
  assert (Ha : actions (start server timeout)
               = [CreateConnection 43 server; SetTimeout])
    by (destruct timeout; reflexivity).
  rewrite Ha in Hw, Hd.
  split; [exact Hw|].
  intros Hin. destruct (Hd Hin) as [[H|[H|[]]]|H];
    [discriminate | discriminate | exact H].
Qed.

(** ** Dates the normalizer leaves alone *)

Lemma ordinal_like_intro a b c d q : forall p,
  isDigit a = true -> isLetter b = true -> isLetter c = true ->
  isSpace d = true ->
  ordinal_like (p ++ a :: b :: c :: d :: q) = true.
Proof.
  intros p Ha Hb Hc Hd. induction p as [|x p IH].
  - cbn [app ordinal_like]. rewrite Ha, Hb, Hc, Hd. reflexivity.
  - cbn [app ordinal_like]. rewrite IH. apply orb_true_r.
Qed.

Lemma ordinal_two_letters st w st' :
  Matches true ordinal st w st' ->
  exists a b, w = [a; b] /\ isLetter a = true /\ isLetter b = true.
Proof.
  unfold ordinal. intros H. invM; simpl;
    match goal with
    | |- exists a b, [?x; ?y] = [a; b] /\ _ =>
        exists x, y; split; [reflexivity|]; split;
        match goal with
        | H : atom_matches true (Chr ?p) ?z = true |- isLetter ?z = true =>
            apply (chr_letter p); [reflexivity | exact H]
        end
    end.
Qed.

Lemma day_ordinal_space X st w st' :
  Matches true
    (RSeq (RGroup 1 (plus digit)) (RSeq ordinal (RSeq (plus space) X)))
    st w st' ->
  exists p a b c d q,
    w = p ++ a :: b :: c :: d :: q /\
    isDigit a = true /\ isLetter b = true /\ isLetter c = true /\
    isSpace d = true.
Proof.
  intros M.
  inversion M as [| | |? ? ? w1 st1 w2 ? M1 M2| | | | | |]; subst.
  inversion M2 as [| | |? ? ? wo st2 w3 ? Mo M3| | | | | |]; subst.
  inversion M3 as [| | |? ? ? ws st3 wx ? Ms Mx| | | | | |]; subst.
  clear M M2 M3 Mx.
  apply ordinal_two_letters in Mo. destruct Mo as (b & c & -> & Hb & Hc).
  unfold plus in M1, Ms. invM.
  match goal with
  | Hdg : Forall (fun x => atom_matches true digit x = true) ?dg,
    Hsp : Forall (fun x => atom_matches true space x = true) ?sp |- _ =>
      assert (Ldg : (1 <= length dg)%nat) by assumption;
      assert (Lsp : (1 <= length sp)%nat) by assumption;
      destruct (exists_last (l := dg)) as (p & a & Edg);
        [intros E; rewrite E in Ldg; simpl in Ldg; lia|];
      destruct sp as [|d sp']; [simpl in Lsp; lia|];
      rewrite Edg in Hdg |- *;
      apply Forall_app in Hdg; destruct Hdg as [_ Hdg];
      inversion Hdg as [|? ? Ha _]; subst;
      inversion Hsp as [|? ? Hd _]; subst;
      rewrite atom_digit in Ha; rewrite atom_space in Hd;
      exists p, a, b, c, d, (sp' ++ wx)
  end.
  split; [|auto]. repeat rewrite <- app_assoc. reflexivity.
Qed.

Lemma ordinal_like_inside pre w post p a b c d q :
  w = p ++ a :: b :: c :: d :: q ->
  isDigit a = true -> isLetter b = true -> isLetter c = true ->
  isSpace d = true ->
  ordinal_like (pre ++ w ++ post) = true.
Proof.
  intros -> Ha Hb Hc Hd.
  replace (pre ++ (p ++ a :: b :: c :: d :: q) ++ post)
    with ((pre ++ p) ++ a :: b :: c :: d :: (q ++ post))
    by (repeat rewrite <- app_assoc; reflexivity).
  apply ordinal_like_intro; assumption.
Qed.

(** Both month patterns need an ordinal followed by a blank. *)
Lemma gg_needs_ordinal s :
  ordinal_like s = false -> String_match s ggRegex = None.
Proof.
  intros H. destruct (String_match s ggRegex) as [m|] eqn:E; [|reflexivity].
  apply String_match_parts in E.
  destruct E as (pre & post & st' & -> & M & _).
  unfold ggRegex, source, ignoreCase, seq, fold_right in M.
  apply day_ordinal_space in M.
  destruct M as (p & a & b & c & d & q & Ew & Ha & Hb & Hc & Hd).
  rewrite (ordinal_like_inside pre _ post p a b c d q Ew Ha Hb Hc Hd) in H.
  discriminate.
Qed.

Lemma recurring_needs_ordinal s :
  ordinal_like s = false -> String_match s recurringRegex = None.
Proof.
  intros H. destruct (String_match s recurringRegex) as [m|] eqn:E;
    [|reflexivity].
  apply String_match_parts in E.
  destruct E as (pre & post & st' & -> & M & _).
  unfold recurringRegex, source, ignoreCase, seq, fold_right in M.
  apply day_ordinal_space in M.
  destruct M as (p & a & b & c & d & q & Ew & Ha & Hb & Hc & Hd).
  rewrite (ordinal_like_inside pre _ post p a b c d q Ew Ha Hb Hc Hd) in H.
  discriminate.
Qed.

(** The two digit patterns need a slash, or a full stop, in fifth place. *)
Lemma jp_needs_fifth s :
  nth_error s 4 <> Some (ch "/") -> String_match s jpRegex = None.
Proof.
  intros H. destruct (String_match s jpRegex) as [m|] eqn:E; [|reflexivity].
  exfalso. apply H. apply jp_match_shape in E.
  destruct E as (y & mo & d & -> & Ly & _).
  destruct y as [|y1 [|y2 [|y3 [|y4 [|y5 y]]]]]; try discriminate.
  reflexivity.
Qed.

Lemma kr_needs_fifth s :
  nth_error s 4 <> Some (ch ".") -> String_match s krRegex = None.
Proof.
  intros H. destruct (String_match s krRegex) as [m|] eqn:E; [|reflexivity].
  exfalso. apply H. apply kr_match_shape in E.
  destruct E as (y & ws1 & mo & ws2 & d & dot & -> & Ly & _).
  destruct y as [|y1 [|y2 [|y3 [|y4 [|y5 y]]]]]; try discriminate.
  reflexivity.
Qed.

Lemma normalize_plain now s :
  s <> [] -> ordinal_like s = false ->
  nth_error s 4 <> Some (ch "/") -> nth_error s 4 <> Some (ch ".") ->
  normalizeDateString now s = Normal (Some s).
Proof.
  intros Hs Ho Hjp Hkr. apply normalize_identity; [exact Hs|].
  unfold no_rule_applies.
  rewrite (gg_needs_ordinal _ Ho), (recurring_needs_ordinal _ Ho),
    (jp_needs_fifth _ Hjp), (kr_needs_fifth _ Hkr).
  repeat split; intros; discriminate.
Qed.

(** X18.  Dates in other shapes pass through untouched.  A date text that
    is not empty, that nowhere holds a digit, two letters and white space
    in a row (as [1st ] or [22nd ] do), and whose fifth character is
    neither a slash nor a full stop, is returned as it is, in every year:
    ISO timestamps, with or without a fraction of a second, among them. *)
Theorem normalizeDateString_leaves_other_shapes (now : Z) (dateStr : jsstring) :
  dateStr <> [] -> ordinal_like dateStr = false ->
  nth_error dateStr 4 <> Some (ch "/") ->
  nth_error dateStr 4 <> Some (ch ".") ->
  normalizeDateString now dateStr = Normal (Some dateStr).
Proof. apply normalize_plain. Qed.

Lemma normalizeDateString_leaves_other_shapes_witness :
  normalizeDateString 2025 (js "2024-01-15T10:30:00.000Z")
  = Normal (Some (js "2024-01-15T10:30:00.000Z")).
Proof.
  apply (normalizeDateString_leaves_other_shapes 2025%Z
           (js "2024-01-15T10:30:00.000Z"));
    [discriminate | reflexivity | discriminate | discriminate].
Defined.

(** ** Normalizing twice *)

Lemma ordinal_like_no_space s : no_space s -> ordinal_like s = false.
Proof.
  induction 1 as [|a t Ha Ht IH]; [reflexivity|].
  cbn [ordinal_like]. rewrite IH, orb_false_r.
  destruct t as [|b [|c [|d t']]]; try reflexivity.
  inversion Ht as [|? ? _ Ht1]; subst.
  inversion Ht1 as [|? ? _ Ht2]; subst.
  inversion Ht2 as [|? ? Hd _]; subst.
  rewrite Hd. apply andb_false_r.
Qed.

(** A tail without white space adds no ordinal. *)
Lemma ordinal_like_app_no_space b : no_space b ->
  forall a, ordinal_like (a ++ b) = ordinal_like a.
Proof.
  intros Hb. induction a as [|x a IH].
  - simpl. apply (ordinal_like_no_space _ Hb).
  - cbn [app ordinal_like]. rewrite IH. f_equal.
    destruct a as [|p [|q [|r a']]]; cbn [app]; try reflexivity.
    + destruct b as [|b1 [|b2 [|b3 b']]]; try reflexivity.
      inversion Hb as [|? ? _ H1]; subst.
      inversion H1 as [|? ? _ H2]; subst.
      inversion H2 as [|? ? H3 _]; subst.
      rewrite H3. apply andb_false_r.
    + destruct b as [|b1 [|b2 b']]; try reflexivity.
      inversion Hb as [|? ? _ H1]; subst.
      inversion H1 as [|? ? H2 _]; subst.
      rewrite H2. apply andb_false_r.
    + destruct b as [|b1 b']; try reflexivity.
      inversion Hb as [|? ? H1 _]; subst.
      rewrite H1. apply andb_false_r.
Qed.

(** A head without letters, before a character that is no letter, adds
    none either. *)
Lemma ordinal_like_skip c rest : isLetter c = false ->
  forall y, Forall (fun x => isLetter x = false) y ->
  ordinal_like (y ++ c :: rest) = ordinal_like (c :: rest).
Proof.
  intros Hc. induction 1 as [|x y Hx Hy IH]; [reflexivity|].
  cbn [app]. change (ordinal_like (x :: y ++ c :: rest))
    with (match y ++ c :: rest with
          | b :: c0 :: d :: _ =>
              isDigit x && isLetter b && isLetter c0 && isSpace d
          | _ => false
          end || ordinal_like (y ++ c :: rest)).
  rewrite IH.
  replace (match y ++ c :: rest with
           | b :: c0 :: d :: _ =>
               isDigit x && isLetter b && isLetter c0 && isSpace d
           | _ => false
           end) with false; [reflexivity|].
  destruct y as [|b y'].
  - cbn [app]. destruct rest as [|r1 [|r2 r']]; try reflexivity.
    rewrite Hc, andb_false_r. reflexivity.
  - inversion Hy as [|? ? Hb _]; subst. cbn [app].
    destruct (y' ++ c :: rest) as [|r1 [|r2 r']]; try reflexivity.
    rewrite Hb, andb_false_r. reflexivity.
Qed.

Lemma no_slash_no_stop_app a b :
  no_slash_no_stop (a ++ b) = no_slash_no_stop a && no_slash_no_stop b.
Proof. apply forallb_app. Qed.

Lemma no_slash_no_stop_digits d : digits d -> no_slash_no_stop d = true.
Proof.
  intros H. apply forallb_forall. intros c Hc.
  unfold digits in H. rewrite Forall_forall in H. specialize (H _ Hc).
  unfold isDigit in H. unfold ch. simpl. cmp_cases.
Qed.

Lemma no_slash_no_stop_fifth s :
  no_slash_no_stop s = true ->
  nth_error s 4 <> Some (ch "/") /\ nth_error s 4 <> Some (ch ".").
Proof.
  intros H. unfold no_slash_no_stop in H. rewrite forallb_forall in H.
  split; intros E; apply nth_error_In in E; specialize (H _ E); discriminate.
Qed.

Lemma digits_no_space d : digits d -> no_space d.
Proof. apply Forall_impl. intros c. apply digit_not_space. Qed.

Lemma middle_ok_digits d : digits d -> middle_ok d = true.
Proof.
  intros H. unfold middle_ok.
  rewrite (no_slash_no_stop_digits _ H), ordinal_like_no_space; [reflexivity|].
  constructor; [reflexivity | apply digits_no_space, H].
Qed.

Lemma month_texts_ok : forallb middle_ok month_texts = true.
Proof. vm_compute. reflexivity. Qed.

Lemma assoc_In {V} key (l : list (jsstring * V)) v :
  assoc key l = Some v -> In v (map snd l).
Proof.
  induction l as [|[k x] l IH]; simpl; [discriminate|].
  destruct (jsstring_eqb k key); [intros [= ->]; auto | auto].
Qed.

(** The text that a truthy month lookup contributes. *)
Lemma month_text_ok key :
  ToBoolean (get_property monthMap key) = true ->
  middle_ok (ToString (get_property monthMap key)) = true.
Proof.
  intros H.
  assert (Hin : In (ToString (get_property monthMap key)) month_texts).
  { unfold month_texts, get_property in *. apply in_or_app.
    destruct (assoc key monthMap) as [s|] eqn:E1.
    - left. apply (assoc_In _ _ _ E1).
    - right. destruct (assoc key Object_prototype) as [v|] eqn:E2;
        [|discriminate].
      apply assoc_In in E2. apply in_map_iff in E2.
      destruct E2 as (p & <- & Hp). apply in_map_iff. exists p. auto. }
  pose proof month_texts_ok as Hall. rewrite forallb_forall in Hall.
  apply Hall. exact Hin.
Qed.

(** A result of the normalizer's rules is a text the rules leave alone. *)
Lemma result_is_plain now year x dd :
  Forall (fun c => isLetter c = false /\ isSpace c = false) year ->
  no_slash_no_stop year = true ->
  middle_ok x = true -> digits dd ->
  normalizeDateString now (year ++ dash ++ x ++ dash ++ dd ++ T00)
  = Normal (Some (year ++ dash ++ x ++ dash ++ dd ++ T00)).
Proof.
  intros Hyear Hy2 Hx Hdd.
  unfold middle_ok in Hx. apply andb_true_iff in Hx. destruct Hx as [Hx1 Hx2].
  apply negb_true_iff in Hx1.
  assert (Htail : no_space (dash ++ dd ++ T00)).
  { apply Forall_app. split; [repeat constructor|].
    apply Forall_app. split; [apply digits_no_space, Hdd | repeat constructor]. }
  assert (Hns : no_slash_no_stop (year ++ dash ++ x ++ dash ++ dd ++ T00) = true).
  { repeat rewrite no_slash_no_stop_app.
    rewrite Hy2, Hx2, (no_slash_no_stop_digits _ Hdd). reflexivity. }
  destruct (no_slash_no_stop_fifth _ Hns) as [H5 H5'].
  apply normalize_plain; try assumption.
  - destruct year; discriminate.
  - change (dash ++ x ++ dash ++ dd ++ T00)
      with (ch "-" :: x ++ dash ++ dd ++ T00).
    rewrite ordinal_like_skip;
      [|reflexivity | revert Hyear; apply Forall_impl; tauto].
    change (ch "-" :: x ++ dash ++ dd ++ T00)
      with ((ch "-" :: x) ++ dash ++ dd ++ T00).
    rewrite (ordinal_like_app_no_space _ Htail). exact Hx1.
Qed.

Lemma digits_plain_year y :
  digits y ->
  Forall (fun c => isLetter c = false /\ isSpace c = false) y /\
  no_slash_no_stop y = true.
Proof.
  intros H. split; [|apply no_slash_no_stop_digits, H].
  revert H. apply Forall_impl. intros c Hc.
  split; [apply digit_not_letter | apply digit_not_space]; exact Hc.
Qed.

Lemma uint_text_plain d :
  Forall (fun c => (isLetter c = false /\ isSpace c = false) /\
                   (c =? ch "/") = false /\ (c =? ch ".") = false)
    (js (NilEmpty.string_of_uint d)).
Proof.
  induction d; simpl; try constructor; try exact IHd;
    repeat split; reflexivity.
Qed.

Lemma number_to_string_plain z :
  Forall (fun c => isLetter c = false /\ isSpace c = false)
    (number_to_string z) /\
  no_slash_no_stop (number_to_string z) = true.
Proof.
  assert (H : Forall (fun c => (isLetter c = false /\ isSpace c = false) /\
                               (c =? ch "/") = false /\ (c =? ch ".") = false)
                (number_to_string z)).
  { unfold number_to_string.
    destruct (Z.to_int z) as [d|d]; unfold NilZero.string_of_int.
    - destruct d; try apply uint_text_plain.
      repeat constructor.
    - change (js (String "-" (NilZero.string_of_uint d)))
        with (ch "-" :: js (NilZero.string_of_uint d)).
      constructor; [repeat split; reflexivity|].
      destruct d; try apply uint_text_plain.
      repeat constructor. }
  split.
  - revert H. apply Forall_impl. tauto.
  - apply forallb_forall. intros c Hc. rewrite Forall_forall in H.
    destruct (H _ Hc) as (_ & H1 & H2). rewrite H1, H2. reflexivity.
Qed.

Lemma padStart_digits day : digits day -> digits (padStart 2 (ch "0") day).
Proof.
  intros H. unfold padStart. apply Forall_app. split; [|exact H].
  apply Forall_forall. intros c Hc. apply repeat_spec in Hc. subst.
  reflexivity.
Qed.

(** The result of a month rule is a text the rules leave alone. *)
Lemma month_rule_result_plain now year m r :
  Forall (fun c => isLetter c = false /\ isSpace c = false) year ->
  no_slash_no_stop year = true ->
  (forall day, group m 1 = Some day -> digits day) ->
  month_rule year m = Normal (Some (Some r)) ->
  normalizeDateString now r = Normal (Some r).
Proof.
  intros Hy1 Hy2 Hday. unfold month_rule.
  destruct (group m 2) as [mo|]; [|discriminate]. cbn [method bind].
  destruct (ToBoolean (get_property monthMap (toLowerCase mo))) eqn:Hb;
    [|discriminate].
  destruct (group m 1) as [day|]; [|discriminate]. cbn [method bind].
  intros [= <-].
  apply result_is_plain; try assumption.
  - apply month_text_ok, Hb.
  - apply padStart_digits, Hday. reflexivity.
Qed.

(** X19.  Normalizing twice is normalizing once.  Whatever the date text
    and the year, a text that the normalizer returns is returned unchanged
    when it is normalized again: so too the odd results that a month word
    such as [constructor] produces. *)
Theorem normalizeDateString_idempotent (now : Z) (dateStr result : jsstring) :
  normalizeDateString now dateStr = Normal (Some result) ->
  normalizeDateString now result = Normal (Some result).
Proof.
  intros H0. pose proof H0 as H. unfold normalizeDateString in H.
  destruct dateStr as [|r0 raw]; [discriminate|]. cbn [is_empty] in H.
  apply first_return_inv in H. destruct H as [[= ->]|Hin]; [exact H0|].
  clear H0. simpl in Hin. destruct Hin as [H|[H|[H|[H|[]]]]].
  - destruct (String_match _ ggRegex) as [m|] eqn:E; [|discriminate].
    apply gg_match_shape in E.
    destruct E as (pre & dd & c & o & ws & mo & ws' & y & post & _ & _ & Hdd & _ &
                   _ & _ & Ly & Hy & H1 & _ & H3).
    rewrite H3 in H. cbn [tpl] in H.
    destruct (digits_plain_year y Hy) as [Hy1 Hy2].
    apply (month_rule_result_plain now y m result Hy1 Hy2); [|exact H].
    intros day Hd. rewrite H1 in Hd. injection Hd as <-. exact Hdd.
  - destruct (String_match _ recurringRegex) as [m|] eqn:E; [|discriminate].
    apply recurring_match_shape in E.
    destruct E as (pre & dd & c & o & ws & mo & rest & _ & _ & Hdd & _ &
                   _ & _ & H1 & _).
    destruct (number_to_string_plain (now + 1)) as [Hy1 Hy2].
    apply (month_rule_result_plain now _ m result Hy1 Hy2); [|exact H].
    intros day Hd. rewrite H1 in Hd. injection Hd as <-. exact Hdd.
  - destruct (String_match _ jpRegex) as [m|] eqn:E; [|discriminate].
    apply jp_match_shape in E.
    destruct E as (y & mo & dd & _ & Ly & Hy & _ & Hmo & _ & Hdd & H1 & H2 & H3).
    rewrite H1, H2, H3 in H. cbn [tpl] in H. injection H as <-.
    destruct (digits_plain_year y Hy) as [Hy1 Hy2].
    apply result_is_plain; try assumption. apply middle_ok_digits, Hmo.
  - destruct (String_match _ krRegex) as [m|] eqn:E; [|discriminate].
    apply kr_match_shape in E.
    destruct E as (y & ws1 & mo & ws2 & dd & dot & _ & Ly & Hy & _ & _ & Hmo & _ &
                   _ & Hdd & _ & H1 & H2 & H3).
    rewrite H1, H2, H3 in H. cbn [tpl] in H. injection H as <-.
    destruct (digits_plain_year y Hy) as [Hy1 Hy2].
    apply result_is_plain; try assumption. apply middle_ok_digits, Hmo.
Qed.

Lemma normalizeDateString_idempotent_witness :
  normalizeDateString 2025
    (js "2003-function Object() { [native code] }-30T00:00:00Z")
  = Normal (Some (js "2003-function Object() { [native code] }-30T00:00:00Z")).
Proof.
  apply (normalizeDateString_idempotent 2025%Z (js "30th constructor 2003")).
  vm_compute. reflexivity.
Defined.

(** ** Status lines *)

(** A block pattern matches only before a blank line or its closing
    word. *)
Lemma block_needs_end lbl other st w st' :
  Matches true
    (seq [lit lbl; star space; RGroup 1 (lazy_star anything);
          RLookahead (RAlt (lit [LF; LF]) (lit other))]) st w st' ->
  infix [LF; LF] (m_rest st') \/ occurs other (m_rest st').
Proof.
  unfold seq, fold_right. intros M.
  inversion M as [| | |? ? ? w1 s1 w2 ? M1 M2| | | | | |]; subst. clear M M1.
  inversion M2 as [| | |? ? ? w3 s2 w4 ? M3 M4| | | | | |]; subst. clear M2 M3.
  inversion M4 as [| | |? ? ? w5 s3 w6 ? M5 M6| | | | | |]; subst. clear M4 M5.
  inversion M6 as [| | |? ? ? w7 s4 w8 ? M7 M8| | | | | |]; subst. clear M6.
  inversion M8; subst. clear M8.
  inversion M7 as [| | | | | | |? ? w0 st0 M0| |]; subst. clear M7.
  cbn [m_rest].
  destruct (Matches_consumes _ _ _ _ _ M0) as [E0 _].
  inversion M0 as [| | | |? ? ? ? ? ML|? ? ? ? ? MR| | | |]; subst.
  - left. apply Matches_lit in ML.
    inversion ML as [|? x ? w' Hx ML']; subst.
    inversion ML' as [|? y ? w'' Hy ML'']; subst.
    inversion ML''; subst.
    apply chr_exact in Hx; [|reflexivity].
    apply chr_exact in Hy; [|reflexivity]. subst.
    exists [], (m_rest st0). exact E0.
  - right. apply Matches_lit in MR.
    exists [], w0, (m_rest st0). auto.
Qed.

Lemma occurs_infix_of p v s : occurs p v -> infix v s -> occurs p s.
Proof.
  intros (a & w & b & -> & Hw) (x & y & ->).
  exists (x ++ a), w, (b ++ y). split; [|exact Hw].
  repeat rewrite <- app_assoc. reflexivity.
Qed.

(** Without a blank line and without the closing word after the first
    label, the block pattern of the status finds nothing. *)
Lemma status_block_absent pre region :
  whole_lines pre -> mentions (js "Domain Status:") pre = false ->
  ~ infix [LF; LF] region ->
  mentions (js "Registrant:") region = false ->
  String_match (pre ++ region) statusSectionRegex = None.
Proof.
  intros Hpre Hmen Hblank Hreg.
  destruct (String_match (pre ++ region) statusSectionRegex) as [m|] eqn:E;
    [|reflexivity].
  exfalso. unfold String_match in E.
  unfold statusSectionRegex in E. unfold seq at 1 in E. cbn [fold_right] in E.
  rewrite search_past in E.
  2:{ intros sk c t Esk. eapply no_match_in_lines_before; eauto.
      - repeat constructor.
      - discriminate. }
  apply search_sound in E. destruct E as (sk & rest' & Er & E).
  apply match_at_sound in E. destruct E as (st' & M & _).
  destruct (Matches_consumes _ _ _ _ _ M) as [Erest _]. cbn [m_rest] in Erest.
  cbn [source ignoreCase] in M.
  assert (Hsuffix : infix (m_rest st') region).
  { exists (sk ++ matched m), []. rewrite Er, Erest, app_nil_r.
    rewrite <- app_assoc. reflexivity. }
  destruct (block_needs_end (js "Domain Status:") (js "Registrant:") _ _ _ M)
    as [H|H].
  - apply Hblank. eapply infix_trans; eassumption.
  - apply (not_mentioned _ _ Hreg). eapply occurs_infix_of; eassumption.
Qed.

Lemma value_line_match field label gap value pos rest :
  spelled true field label -> spaces gap ->
  single_line value -> starts_with_ink value ->
  exists m,
    match_at (multiFieldRegex field) pos
      ((label ++ ch ":" :: gap ++ value) ++ LF :: rest) = Some m /\
    matched m = label ++ ch ":" :: gap ++ value.
Proof.
  intros Hlab Hgap Hval Hink.
  assert (Hrun : exists st',
    rmatch true (source (multiFieldRegex field)) Some
      (MState pos (label ++ ch ":" :: gap ++ value ++ LF :: rest) [])
    = Some st' /\
    m_pos st' = (pos + length (label ++ ch ":" :: gap ++ value))%nat).
  { eexists. split.
    - unfold multiFieldRegex, source, seq, fold_right.
      apply run_seq, run_lit; [exact Hlab|].
      apply run_seq, run_atom; [reflexivity|].
      apply run_seq, run_quant;
        [apply spaces_atom, Hgap | lia | intros ? [=]
        | right; apply ink_fails, Hink|].
      apply run_seq, run_group_quant;
        [apply dots_atom, Hval | apply ink_nonempty, Hink | intros ? [=]
        | right; reflexivity|].
      apply run_empty. reflexivity.
    - cbn [m_pos]. repeat rewrite length_app. simpl.
      repeat rewrite length_app. lia. }
  destruct Hrun as (st' & Hrun & Hpos).
  assert (Ein : (label ++ ch ":" :: gap ++ value) ++ LF :: rest
                = label ++ ch ":" :: gap ++ value ++ LF :: rest).
  { repeat rewrite <- app_assoc. simpl. repeat rewrite <- app_assoc.
    reflexivity. }
  unfold match_at. change (ignoreCase (multiFieldRegex field)) with true.
  rewrite Ein, Hrun, <- Ein. eexists. split; [reflexivity|].
  cbn [matched]. apply firstn_exact. rewrite Hpos. lia.
Qed.

Lemma trim_after_gap gap value : spaces gap -> trim (gap ++ value) = trim value.
Proof. intros H. unfold trim. rewrite (trimStart_spaces _ _ H). reflexivity. Qed.

Lemma spaces_no_colon gap : spaces gap -> ~ In (ch ":") gap.
Proof.
  intros H Hin. unfold spaces in H. rewrite Forall_forall in H.
  specialize (H _ Hin). discriminate.
Qed.

Lemma status_lines_found label lines pre post :
  spelled true (js "Domain Status") label ->
  Forall (fun l => spaces (fst l) /\ starts_with_ink (snd l) /\
                   single_line (snd l) /\ ~ In (ch ":") (snd l)) lines ->
  lines <> [] ->
  whole_lines pre -> mentions (js "Domain Status") pre = false ->
  mentions (js "Domain Status") post = false ->
  String_match_g (pre ++ lines_text (map (value_line label) lines) ++ post)
    (multiFieldRegex (js "Domain Status"))
  = Some (map (value_line label) lines).
Proof.
  intros Hlab Hok Hne Hpre Hmpre Hmpost.
  unfold String_match_g.
  assert (E : collect (multiFieldRegex (js "Domain Status")) 0
                (pre ++ lines_text (map (value_line label) lines) ++ post) 0
              = map (value_line label) lines).
  { unfold multiFieldRegex.
    rewrite collect_past.
    2:{ intros sk c t E. eapply no_match_in_lines_before; eauto.
        - repeat constructor.
        - discriminate. }
    rewrite collect_lines.
    2:{ intros body Hb. apply in_map_iff in Hb.
        destruct Hb as ([gap value] & <- & Hl).
        rewrite Forall_forall in Hok.
        destruct (Hok _ Hl) as (Hgap & Hink & Hval & _). cbn [fst snd] in *.
        unfold value_line. cbn [fst snd]. split.
        - destruct label; discriminate.
        - intros pos rest. split.
          + apply (value_line_match (js "Domain Status")); assumption.
          + apply match_at_label_head; reflexivity. }
    rewrite collect_nothing.
    2:{ intros sk rest' E. eapply no_match_without_label; eauto. }
    apply app_nil_r. }
  rewrite E. destruct lines; [congruence | reflexivity].
Qed.

Lemma parseStatus_lines text pre label lines post :
  spelled true (js "Domain Status") label ->
  lines <> [] ->
  Forall (fun l => spaces (fst l) /\ starts_with_ink (snd l) /\
                   single_line (snd l) /\ ~ In (ch ":") (snd l)) lines ->
  whole_lines pre -> mentions (js "Domain Status") pre = false ->
  mentions (js "Domain Status") post = false ->
  ~ infix [LF; LF] (lines_text (map (value_line label) lines) ++ post) ->
  mentions (js "Registrant:")
    (lines_text (map (value_line label) lines) ++ post) = false ->
  text = pre ++ lines_text (map (value_line label) lines) ++ post ->
  parseStatus text = Normal (Some (map (fun l => trim (snd l)) lines)).
Proof.
  intros Hlab Hne Hok Hpre Hmpre Hmpost Hblank Hreg ->.
  assert (Hmpre' : mentions (js "Domain Status:") pre = false).
  { destruct (mentions (js "Domain Status:") pre) eqn:E; [|reflexivity].
    exfalso. apply (not_mentioned _ _ Hmpre).
    apply (occurs_part (js "Domain Status") (js "Domain Status:") []
             (js ":") _ eq_refl).
    apply mentions_occurs, E. }
  unfold parseStatus.
  rewrite first_return_skip
    by (rewrite (status_block_absent pre _ Hpre Hmpre' Hblank Hreg);
        reflexivity).
  apply first_return_take.
  unfold or_array at 1. unfold parseMultipleFields at 1.
  rewrite (status_lines_found label lines pre post
             Hlab Hok Hne Hpre Hmpre Hmpost).
  rewrite (mapM_map_all _ _ (fun l => trim (snd l))).
  - cbn [bind array_truthy andb]. rewrite length_map.
    destruct lines; [congruence | reflexivity].
  - intros [gap value] Hl. rewrite Forall_forall in Hok.
    destruct (Hok _ Hl) as (Hgap & _ & _ & Hcol). cbn [fst snd] in *.
    unfold value_line. cbn [fst snd].
    rewrite after_colon_once.
    + cbn [method]. rewrite (trim_after_gap _ _ Hgap). reflexivity.
    + apply (spelled_no_colon _ (js "Domain Status"));
        [vm_compute; intuition discriminate | exact Hlab].
    + intros Hin. apply in_app_or in Hin. destruct Hin as [Hin|Hin];
        [exact (spaces_no_colon _ Hgap Hin) | exact (Hcol Hin)].
Qed.

(** X20.  A run of [Domain Status:] lines is read back exactly.  Let the
    text be whole lines without the label, then one or more lines made of
    the label [Domain Status] in any letter case, a colon, blanks and a
    value that starts with a character other than white space and holds
    no colon, then a rest without the label; and let neither a blank line
    nor [Registrant:] come from the first of these lines on.  Then status
    is the list of the values in their order, each trimmed at its end. *)
Theorem status_lines_read_back text now fallback pre label lines post :
  spelled true (js "Domain Status") label ->
  lines <> [] ->
  Forall (fun l => spaces (fst l) /\ starts_with_ink (snd l) /\
                   single_line (snd l) /\ ~ In (ch ":") (snd l)) lines ->
  whole_lines pre -> mentions (js "Domain Status") pre = false ->
  mentions (js "Domain Status") post = false ->
  ~ infix [LF; LF] (lines_text (map (value_line label) lines) ++ post) ->
  mentions (js "Registrant:")
    (lines_text (map (value_line label) lines) ++ post) = false ->
  text = pre ++ lines_text (map (value_line label) lines) ++ post ->
  exists r,
    parseWhoisData text now fallback = Normal r /\
    status r = Some (map (fun l => trim (snd l)) lines).
Proof.
  intros Hlab Hne Hok Hpre Hmpre Hmpost Hblank Hreg Etext.
  destruct (parseWhoisData_normal text now fallback) as [r Hr].
  exists r. split; [exact Hr|].
  apply parseWhoisData_inv in Hr.
  destruct Hr as (pd & _ & _ & _ & _ & _ & _ & _ & Hst & _).
  rewrite (parseStatus_lines text pre label lines post
             Hlab Hne Hok Hpre Hmpre Hmpost Hblank Hreg Etext) in Hst.
  injection Hst as <-. reflexivity.
Qed.

Lemma no_blank_line_by_test (s : jsstring) :
  mentions [LF; LF] s = false -> ~ infix [LF; LF] s.
Proof.
  intros H (a & b & E). apply (not_mentioned _ _ H).
  exists a, [LF; LF], b. split; [exact E | repeat constructor].
Qed.

Lemma status_lines_read_back_witness :
  exists r,
    parseWhoisData
      (js "domain: example.ax" ++ LF ::
       js "domain status: ok " ++ LF ::
       js "domain status:  locked" ++ LF ::
       js "source: AX" ++ [LF]) 2025%Z None = Normal r /\
    status r = Some [js "ok"; js "locked"].
Proof.
  apply (status_lines_read_back _ 2025%Z None
           (js "domain: example.ax" ++ [LF]) (js "domain status")
           [(js " ", js "ok "); (js "  ", js "locked")]
           (js "source: AX" ++ [LF])).
  - repeat constructor.
  - discriminate.
  - constructor; [|constructor; [|constructor]].
    + split; [repeat constructor|].
      split; [eexists _, _; split; reflexivity|].
      split; [repeat constructor|].
      vm_compute; intuition discriminate.
    + split; [repeat constructor|].
      split; [eexists _, _; split; reflexivity|].
      split; [repeat constructor|].
      vm_compute; intuition discriminate.
  - right. eexists. reflexivity.
  - reflexivity.
  - reflexivity.
  - apply no_blank_line_by_test. reflexivity.
  - reflexivity.
  - reflexivity.
Defined.

(** ** Labels in square brackets *)

Lemma rmatch_lit_app ic g k : forall f st,
  rmatch ic (lit (f ++ g)) k st = rmatch ic (lit f) (rmatch ic (lit g) k) st.
Proof.
  induction f as [|c f IH]; intros st; [reflexivity|].
  cbn [app]. rewrite !lit_cons. cbn [rmatch].
  destruct (m_rest st) as [|x t]; [reflexivity|].
  destruct (atom_matches ic (Chr c) x); [apply IH | reflexivity].
Qed.

(** A label between two characters is matched as the one text it makes
    with them. *)
Lemma rmatch_bracketed ic a l b k st :
  rmatch ic (RAtom (Chr a)) (rmatch ic (lit l) (rmatch ic (RAtom (Chr b)) k)) st
  = rmatch ic (lit (a :: l ++ [b])) k st.
Proof.
  rewrite lit_cons. cbn [rmatch].
  destruct (m_rest st) as [|x t]; [reflexivity|].
  destruct (atom_matches ic (Chr a) x); [|reflexivity].
  rewrite rmatch_lit_app. reflexivity.
Qed.

Lemma bracketFieldRegex_as_label text f :
  String_match text (bracketFieldRegex f)
  = String_match text
      (mkRegExp (RSeq (lit (ch "[" :: f ++ [ch "]"]))
                   (seq [plus space; RGroup 1 (plus Dot)])) true).
Proof.
  apply search_ext. intros pos rest. unfold match_at.
  cbn [source ignoreCase bracketFieldRegex].
  change (rmatch true (RSeq (lit (ch "[" :: f ++ [ch "]"]))
                         (seq [plus space; RGroup 1 (plus Dot)])) Some
            (MState pos rest []))
    with (rmatch true (lit (ch "[" :: f ++ [ch "]"]))
            (rmatch true (seq [plus space; RGroup 1 (plus Dot)]) Some)
            (MState pos rest [])).
  rewrite <- rmatch_bracketed. reflexivity.
Qed.

Lemma on_one_line_bracketed f :
  on_one_line f -> on_one_line (ch "[" :: f ++ [ch "]"]).
Proof.
  intros H. constructor; [reflexivity|].
  apply Forall_app. split; [exact H | repeat constructor].
Qed.

Lemma bracket_value_match ic lbl lab gap value rest pos :
  spelled ic lbl lab -> spaces gap -> gap <> [] ->
  single_line value -> starts_with_ink value -> line_ends rest ->
  exists m,
    match_at (mkRegExp (RSeq (lit lbl)
                          (RSeq (plus space) (RGroup 1 (plus Dot)))) ic) pos
      (lab ++ gap ++ value ++ rest) = Some m /\
    group m 1 = Some value.
Proof.
  intros Hlab Hgap Hg Hval Hink Hrest.
  assert (Hrun : exists st',
    rmatch ic (RSeq (lit lbl) (RSeq (plus space) (RGroup 1 (plus Dot)))) Some
      (MState pos (lab ++ gap ++ value ++ rest) [])
    = Some st' /\ m_caps st' = [(1%nat, value)]).
  { eexists. split.
    - apply run_seq, run_lit; [exact Hlab|].
      apply run_seq, run_quant;
        [apply spaces_atom, Hgap
        | destruct gap; [congruence | simpl; lia]
        | intros ? [=]
        | right; apply ink_fails, Hink|].
      apply run_group_quant;
        [apply dots_atom, Hval | apply ink_nonempty, Hink | intros ? [=]
        | right; apply line_ends_fails, Hrest|].
      reflexivity.
    - reflexivity. }
  destruct Hrun as (st' & Hrun & Hcaps).
  unfold match_at. cbn [source ignoreCase].
  rewrite Hrun. eexists. split; [reflexivity|].
  unfold group. cbn [groups]. rewrite Hcaps. reflexivity.
Qed.

Lemma no_colon_not_mentioned text :
  ~ In (ch ":") text -> mentions (js ":") text = false.
Proof.
  intros H. apply (not_mentioned_without _ _ (ch ":"));
    [reflexivity | left; reflexivity | exact H].
Qed.

(** A label that is absent from the text stands neither before a colon
    nor in brackets. *)
Lemma absent_label_heads_nothing g text :
  mentions g text = false ->
  before_colon g text = false /\
  mentions (ch "[" :: g ++ [ch "]"]) text = false.
Proof.
  intros Hg. split.
  - unfold before_colon.
    rewrite (String_match_absent g g [] [] text _ Hg);
      [reflexivity | unfold same_ci; rewrite app_nil_r; reflexivity
      | apply req_seq_l, req_lit].
  - unfold mentions at 1.
    rewrite (String_match_absent g (ch "[" :: g ++ [ch "]"]) [ch "["]
               [ch "]"] text _ Hg);
      [reflexivity | reflexivity | apply req_lit].
Qed.

(** X11.  [parseField] reads the first line that carries a label, once
    the labels before it in its list head no line.  Let [f] and the labels
    listed before it be made of letters and blanks; let no label before
    [f], in whatever case, stand in the text before a colon (dots and
    blanks apart) or in square brackets, as when it is absent, or when it
    is only the start of a longer label; and let the text be whole lines
    without [f], then [f] in any letter case, dots or blanks, a colon,
    blanks, and a value that starts with a character other than white
    space and runs to the end of its line.  Then the result is that value,
    trimmed at its end, whatever the value holds (further colons included)
    and whatever follows.  The blanks may hold line feeds: after a label
    with nothing else on its line, the value is the next line that is not
    blank. *)
Theorem parseField_reads_first_labelled_line
  (text field : jsstring) (alts earlier : list jsstring) (f : jsstring)
  (later : list jsstring) (pre label fill gap value rest : jsstring) :
  field :: alts = earlier ++ f :: later ->
  Forall plain_label earlier -> plain_label f ->
  Forall (fun g : jsstring =>
            before_colon g text = false /\
            mentions (ch "[" :: g ++ [ch "]"]) text = false) earlier ->
  f <> [] ->
  whole_lines pre -> mentions f pre = false ->
  spelled true f label -> dots_or_spaces fill -> spaces gap ->
  single_line value -> starts_with_ink value -> line_ends rest ->
  text = pre ++ label ++ fill ++ ch ":" :: gap ++ value ++ rest ->
  parseField text field alts = Normal (Some (trim value)).
Proof.
  intros Elist _ Hplain Hearlier Hne Hpre Hmen Hlab Hfill Hgap Hval Hink
    Hrest Etext.
  pose proof (plain_label_on_one_line f Hplain) as Hone.
  destruct (colon_field_match f label fill gap value rest (length pre)
              Hlab Hfill Hgap Hval Hink Hrest) as (m & Hm & Hg).
  unfold parseField. rewrite Elist.
  match goal with
  | |- first_return (flat_map ?F _) _ = _ => set (steps := F)
  end.
  rewrite flat_map_app, first_return_app_none.
  - cbn [flat_map app]. apply first_return_take. unfold steps.
    unfold colonFieldRegex in *. rewrite Etext.
    rewrite (String_match_first_label f _ pre _ m _ Hne Hone Hpre Hmen Hm).
    rewrite Hg. reflexivity.
  - clear - Hearlier.
    induction Hearlier as [|g gs [Hc Hb] _ IH]; [constructor|].
    cbn [flat_map app]. constructor; [|constructor; [|exact IH]].
    + unfold steps. rewrite (colonFieldRegex_needs_colon g text Hc).
      reflexivity.
    + unfold steps. rewrite bracketFieldRegex_as_label.
      rewrite (String_match_needs_label _ _ _ Hb). reflexivity.
Qed.

Lemma parseField_reads_first_labelled_line_witness :
  parseField
    (js "% AX whois" ++ LF ::
     js "domain name.........: example.ax: active  " ++ LF ::
     js "registrar: Other")
    (js "Domain") [js "Domain Name"; js "domain name"; js "domain"]
  = Normal (Some (js "example.ax: active")).
Proof.
  apply (parseField_reads_first_labelled_line _
           (js "Domain") [js "Domain Name"; js "domain name"; js "domain"]
           [js "Domain"] (js "Domain Name") [js "domain name"; js "domain"]
           (js "% AX whois" ++ [LF]) (js "domain name") (js ".........")
           (js " ") (js "example.ax: active  ")
           (LF :: js "registrar: Other")).
  - reflexivity.
  - constructor; [plain|constructor].
  - plain.
  - constructor; [split; reflexivity|constructor].
  - discriminate.
  - right. eexists. reflexivity.
  - reflexivity.
  - repeat constructor.
  - repeat constructor.
  - repeat constructor.
  - repeat constructor.
  - eexists _, _. split; reflexivity.
  - right. eexists _, _. split; reflexivity.
  - reflexivity.
Defined.

(** X21.  [parseField] reads the first line that carries a label in
    square brackets, in a text without a colon.  Let [f] and the labels
    listed before it be made of letters and blanks, let the text hold no
    colon, let the labels before [f] not occur in it in brackets, and let
    it be whole lines without [f] in brackets, then [f] in brackets, in any
    letter case, one or more blanks, and a value that starts with a
    character other than white space and runs to the end of its line.  Then
    the result is that value, trimmed at its end. *)
Theorem parseField_reads_first_bracket_line
  (text field : jsstring) (alts earlier : list jsstring) (f : jsstring)
  (later : list jsstring) (pre lab gap value rest : jsstring) :
  field :: alts = earlier ++ f :: later ->
  Forall plain_label earlier -> plain_label f ->
  Forall (fun g : jsstring =>
            mentions (ch "[" :: g ++ [ch "]"]) text = false) earlier ->
  ~ In (ch ":") text ->
  whole_lines pre -> mentions (ch "[" :: f ++ [ch "]"]) pre = false ->
  spelled true (ch "[" :: f ++ [ch "]"]) lab ->
  spaces gap -> gap <> [] ->
  single_line value -> starts_with_ink value -> line_ends rest ->
  text = pre ++ lab ++ gap ++ value ++ rest ->
  parseField text field alts = Normal (Some (trim value)).
Proof.
  intros Elist _ Hplain Hearlier Hcolon Hpre Hmen Hlab Hgap Hg Hval Hink
    Hrest Etext.
  pose proof (plain_label_on_one_line f Hplain) as Hone.
  pose proof (no_colon_not_mentioned _ Hcolon) as Hc.
  assert (Colon : forall g, String_match text (colonFieldRegex g) = None).
  { intros g.
    apply (String_match_absent (js ":") (js ":") [] [] text
             (colonFieldRegex g) Hc eq_refl).
    cbv [source colonFieldRegex seq fold_right].
    apply req_seq_r, req_seq_r, req_seq_l, req_chr. reflexivity. }
  destruct (bracket_value_match true (ch "[" :: f ++ [ch "]"]) lab gap
              value rest (length pre) Hlab Hgap Hg Hval Hink Hrest)
    as (m & Hm & Hgr).
  unfold parseField. rewrite Elist.
  match goal with
  | |- first_return (flat_map ?F _) _ = _ => set (steps := F)
  end.
  rewrite flat_map_app, first_return_app_none.
  - unfold steps. cbn [flat_map app].
    rewrite first_return_skip by (rewrite Colon; reflexivity).
    apply first_return_take.
    rewrite bracketFieldRegex_as_label. unfold seq, fold_right.
    rewrite Etext.
    rewrite (String_match_first_label (ch "[" :: f ++ [ch "]"]) _ pre _ m);
      [|discriminate | apply on_one_line_bracketed, Hone | exact Hpre
       | exact Hmen | exact Hm].
    rewrite Hgr. reflexivity.
  - clear - Hearlier Colon.
    induction Hearlier as [|g gs Hg _ IH]; [constructor|].
    cbn [flat_map app]. constructor; [|constructor; [|exact IH]].
    + unfold steps. rewrite Colon. reflexivity.
    + unfold steps. rewrite bracketFieldRegex_as_label.
      rewrite (String_match_needs_label _ _ _ Hg). reflexivity.
Qed.

Lemma parseField_reads_first_bracket_line_witness :
  parseField
    (js "[ JPRS database ]" ++ LF ::
     js "[domain name]                   EXAMPLE.JP " ++ LF ::
     js "[Name Server]                   ns1.example.jp")
    (js "Domain") [js "Domain Name"; js "domain name"; js "domain"]
  = Normal (Some (js "EXAMPLE.JP")).
Proof.
  apply (parseField_reads_first_bracket_line _
           (js "Domain") [js "Domain Name"; js "domain name"; js "domain"]
           [js "Domain"] (js "Domain Name") [js "domain name"; js "domain"]
           (js "[ JPRS database ]" ++ [LF]) (js "[domain name]")
           (js "                   ") (js "EXAMPLE.JP ")
           (LF :: js "[Name Server]                   ns1.example.jp")).
  - reflexivity.
  - constructor; [plain|constructor].
  - plain.
  - repeat constructor.
  - vm_compute. intuition discriminate.
  - right. eexists. reflexivity.
  - reflexivity.
  - repeat constructor.
  - repeat constructor.
  - discriminate.
  - repeat constructor.
  - eexists _, _. split; reflexivity.
  - right. eexists _, _. split; reflexivity.
  - reflexivity.
Defined.

Lemma jp_date_pattern_as_label text label :
  String_match text
    (mkRegExp (rest_of_line (seq [chr "["; lit label; chr "]"]) (plus space))
       false)
  = String_match text
      (mkRegExp (RSeq (lit (ch "[" :: label ++ [ch "]"]))
                   (RSeq (plus space) (RGroup 1 (plus Dot)))) false).
Proof.
  apply search_ext. intros pos rest. unfold match_at.
  cbn [source ignoreCase].
  change (rmatch false (RSeq (lit (ch "[" :: label ++ [ch "]"]))
                          (RSeq (plus space) (RGroup 1 (plus Dot)))) Some
            (MState pos rest []))
    with (rmatch false (lit (ch "[" :: label ++ [ch "]"]))
            (rmatch false (RSeq (plus space) (RGroup 1 (plus Dot))) Some)
            (MState pos rest [])).
  rewrite <- rmatch_bracketed. reflexivity.
Qed.

Lemma spelled_refl ic p : spelled ic p p.
Proof.
  induction p as [|c p IH]; constructor; [|exact IH].
  unfold atom_matches. apply N.eqb_refl.
Qed.

Lemma parseCreationDate_jp_line text now pre gap value rest :
  ~ In (ch ":") text ->
  mentions (js "registered on ") text = false ->
  whole_lines pre ->
  mentions (ch "[" :: label_registered ++ [ch "]"]) pre = false ->
  spaces gap -> gap <> [] ->
  single_line value -> starts_with_ink value -> line_ends rest ->
  text = pre ++ (ch "[" :: label_registered ++ [ch "]"]) ++ gap ++ value
             ++ rest ->
  parseCreationDate text now = normalizeDateString now (trim value).
Proof.
  intros Hcolon H1 Hpre Hmen Hgap Hg Hval Hink Hrest Etext.
  pose proof (no_colon_not_mentioned _ Hcolon) as Hc.
  unfold parseCreationDate, parseDate, creationPatterns. cbn [map].
  rewrite first_return_skip
    by (rewrite (String_match_absent _ (js "Registered on ") [] []
                   _ _ H1 eq_refl);
        [reflexivity | apply req_seq_l, req_lit]).
  rewrite first_return_skip
    by (rewrite (String_match_absent _ (js "created:") (js "created") []
                   _ _ Hc eq_refl);
        [reflexivity | apply req_seq_l, req_lit]).
  rewrite first_return_skip
    by (rewrite (String_match_absent _ (js "Created:") (js "Created") []
                   _ _ Hc eq_refl);
        [reflexivity | apply req_seq_l, req_lit]).
  rewrite first_return_skip
    by (rewrite (String_match_absent _ (js "Creation Date:")
                   (js "Creation Date") [] _ _ Hc eq_refl);
        [reflexivity | apply req_seq_l, req_lit]).
  rewrite first_return_skip
    by (rewrite (String_match_absent _ (js "Created On:") (js "Created On") []
                   _ _ Hc eq_refl);
        [reflexivity | apply req_seq_l, req_lit]).
  rewrite first_return_skip
    by (rewrite (String_match_absent _ (js ":") [] [] _ _ Hc eq_refl);
        [reflexivity
        | cbv [source rest_of_line seq fold_right];
          apply req_seq_l, req_seq_r, req_seq_r, req_seq_l, req_chr;
          reflexivity]).
  destruct (bracket_value_match false (ch "[" :: label_registered ++ [ch "]"])
              (ch "[" :: label_registered ++ [ch "]"]) gap value rest
              (length pre) (spelled_refl _ _) Hgap Hg Hval Hink Hrest)
    as (m & Hm & Hgr).
  rewrite jp_date_pattern_as_label, Etext.
  rewrite (String_match_first_label (ch "[" :: label_registered ++ [ch "]"])
             _ pre _ m);
    [|discriminate | repeat constructor | exact Hpre | exact Hmen | exact Hm].
  rewrite Hgr. cbn [first_return method bind].
  destruct (normalizeDateString now (trim value)) as [d|e]; reflexivity.
Qed.

(** X22.  The creation date is read from the first line with the Japanese
    label.  Let the text hold no colon and not [registered on ], and let
    it be whole lines without the label, then the label of the
    registration date in square brackets, one or more blanks, and a value
    that starts with a character other than white space and runs to the
    end of its line.  Then creationDate is what the date normalizer
    answers for the value trimmed at its end. *)
Theorem creation_date_jp_line_read_back
  (text : jsstring) (now : Z) (fallback : option jsstring)
  (pre gap value rest : jsstring) :
  ~ In (ch ":") text ->
  mentions (js "registered on ") text = false ->
  whole_lines pre ->
  mentions (ch "[" :: label_registered ++ [ch "]"]) pre = false ->
  spaces gap -> gap <> [] ->
  single_line value -> starts_with_ink value -> line_ends rest ->
  text = pre ++ (ch "[" :: label_registered ++ [ch "]"]) ++ gap ++ value
             ++ rest ->
  exists r,
    parseWhoisData text now fallback = Normal r /\
    normalizeDateString now (trim value) = Normal (creationDate r).
Proof.
  intros Hcolon H1 Hpre Hmen Hgap Hg Hval Hink Hrest Etext.
  destruct (parseWhoisData_normal text now fallback) as [r Hr].
  exists r. split; [exact Hr|].
  apply parseWhoisData_inv in Hr.
  destruct Hr as (pd & _ & _ & _ & Hcd & _).
  rewrite <- Hcd. symmetry.
  apply (parseCreationDate_jp_line text now pre gap value rest); assumption.
Qed.

Lemma creation_date_jp_line_read_back_witness :
  exists r,
    parseWhoisData
      (js "[Domain Name]  EXAMPLE.JP" ++ LF ::
       (ch "[" :: label_registered ++ [ch "]"]) ++
       js "   2005/05/30" ++ [LF]) 2025%Z None = Normal r /\
    normalizeDateString 2025%Z (trim (js "2005/05/30"))
    = Normal (creationDate r).
Proof.
  apply (creation_date_jp_line_read_back _ 2025%Z None
           (js "[Domain Name]  EXAMPLE.JP" ++ [LF])
           (js "   ") (js "2005/05/30") [LF]).
  - vm_compute. intuition discriminate.
  - reflexivity.
  - right. eexists. reflexivity.
  - reflexivity.
  - repeat constructor.
  - discriminate.
  - repeat constructor.
  - eexists _, _. split; reflexivity.
  - right. eexists _, _. split; reflexivity.
  - reflexivity.
Defined.

(** ** The block under [Nameservers] *)

(** A greedy quantifier gives back what the rest of the pattern cannot
    follow: here all of [w2]. *)
Lemma greedy_loop_stop ic a k : forall w2 pos t caps,
  Forall (fun c => atom_matches ic a c = true) w2 ->
  head_fails ic a t ->
  (forall p c q, w2 = p ++ c :: q ->
     k (MState (pos + S (length p)) (q ++ t) caps) = None) ->
  greedy_loop ic a 0 None k pos (w2 ++ t) caps
  = k (MState pos (w2 ++ t) caps).
Proof.
  induction w2 as [|c w2 IH]; intros pos t caps Hall Hend Hno.
  - destruct t as [|x t]; [reflexivity|].
    simpl in Hend. simpl. rewrite Hend. reflexivity.
  - inversion Hall as [|? ? Hc Hall']; subst.
    cbn [app greedy_loop pred option_map]. rewrite Hc, IH.
    + pose proof (Hno [] c w2 eq_refl) as H0. cbn [length app] in H0.
      replace (pos + 1)%nat with (S pos) in H0 by lia.
      rewrite H0. reflexivity.
    + exact Hall'.
    + exact Hend.
    + intros p c' q E. specialize (Hno (c :: p) c' q).
      cbn [app length] in Hno. rewrite E in Hno. specialize (Hno eq_refl).
      replace (S pos + S (length p))%nat with (pos + S (S (length p)))%nat
        by lia.
      exact Hno.
Qed.

Lemma greedy_loop_back ic a k res w2 t caps : forall w1 pos,
  Forall (fun c => atom_matches ic a c = true) w1 ->
  Forall (fun c => atom_matches ic a c = true) w2 ->
  head_fails ic a t ->
  (forall p c q, w2 = p ++ c :: q ->
     k (MState (pos + length w1 + S (length p)) (q ++ t) caps) = None) ->
  k (MState (pos + length w1) (w2 ++ t) caps) = Some res ->
  greedy_loop ic a 0 None k pos (w1 ++ w2 ++ t) caps = Some res.
Proof.
  induction w1 as [|c w1 IH]; intros pos H1 H2 Hend Hno Hk.
  - cbn [app length] in *. rewrite Nat.add_0_r in Hk.
    rewrite greedy_loop_stop; try assumption.
    intros p c q E. specialize (Hno p c q E).
    rewrite Nat.add_0_r in Hno. exact Hno.
  - inversion H1 as [|? ? Hc H1']; subst.
    cbn [app greedy_loop pred option_map]. rewrite Hc.
    rewrite (IH (S pos)); try assumption; [reflexivity| |].
    + intros p c' q E. specialize (Hno p c' q E).
      cbn [length] in Hno.
      replace (S pos + length w1 + S (length p))%nat
        with (pos + S (length w1) + S (length p))%nat by lia.
      exact Hno.
    + cbn [length] in Hk.
      replace (S pos + length w1)%nat with (pos + S (length w1))%nat by lia.
      exact Hk.
Qed.

Lemma line_feed_exact c : atom_matches true (Chr LF) c = true -> c = LF.
Proof. apply chr_exact. reflexivity. Qed.

Lemma not_line_feed c : c <> LF -> atom_matches true (Chr LF) c = false.
Proof.
  intros H. destruct (atom_matches true (Chr LF) c) eqn:E; [|reflexivity].
  apply line_feed_exact in E. congruence.
Qed.

Lemma range_letter c :
  atom_matches true (Cls [IRange (ch "A") (ch "Z")]) c = isLetter c.
Proof.
  unfold atom_matches, existsb, citem_matches, in_range, isLetter, isUpperAZ,
    isLowerAZ, toAsciiUpper, toAsciiLower, isLowerAZ, isUpperAZ, ch.
  simpl N_of_ascii.
  destruct (N.leb_spec 65 c), (N.leb_spec c 90), (N.leb_spec 97 c),
    (N.leb_spec c 122); cbn [andb orb]; try reflexivity; try (exfalso; lia);
    repeat match goal with
           | |- context [N.leb ?a ?b] =>
               destruct (N.leb_spec a b); cbn [andb orb];
               try reflexivity; try (exfalso; lia)
           end.
Qed.

(** The lookahead of the block: a line feed, then another or a letter. *)
Lemma it_block_end_fails p s caps :
  (forall c t, s = LF :: c :: t -> c <> LF /\ isLetter c = false) ->
  rmatch true
    (RSeq (RLookahead
             (RAlt (lit [LF; LF])
                (RSeq (RAtom (Chr LF))
                   (RSeq (RAtom (Cls [IRange (ch "A") (ch "Z")])) REmpty))))
       REmpty)
    Some (MState p s caps) = None.
Proof.
  intros Hs.
  destruct (rmatch true _ Some (MState p s caps)) as [res|] eqn:E;
    [|reflexivity].
  exfalso. apply rmatch_sound in E. destruct E as (w & st' & M & _).
  inversion M as [| | |? ? ? w1 ? w2 ? M1 M2| | | | | |]; subst.
  inversion M1 as [| | | | | | |? ? w0 st0 M0| |]; subst.
  destruct (Matches_consumes _ _ _ _ _ M0) as [E0 _]. cbn [m_rest] in E0.
  inversion M0 as [| | | |? ? ? ? ? ML|? ? ? ? ? MR| | | |]; subst.
  - apply Matches_lit in ML.
    inversion ML as [|? x ? w' Hx ML']; subst.
    inversion ML' as [|? y ? w'' Hy ML'']; subst.
    inversion ML''; subst.
    apply line_feed_exact in Hx. apply line_feed_exact in Hy. subst.
    destruct (Hs LF (m_rest st0) eq_refl) as [H _]. congruence.
  - clear M M1 M0. invM.
    match goal with
    | H1 : atom_matches true (Chr LF) ?x = true,
      H2 : atom_matches true (Cls _) ?y = true |- _ =>
        apply line_feed_exact in H1; rewrite range_letter in H2; subst x;
        destruct (Hs y _ eq_refl) as [_ H]; congruence
    end.
Qed.

Lemma it_block_end_holds p c post caps :
  c = LF \/ isLetter c = true ->
  rmatch true
    (RSeq (RLookahead
             (RAlt (lit [LF; LF])
                (RSeq (RAtom (Chr LF))
                   (RSeq (RAtom (Cls [IRange (ch "A") (ch "Z")])) REmpty))))
       REmpty)
    Some (MState p (LF :: c :: post) caps)
  = Some (MState p (LF :: c :: post) caps).
Proof.
  intros [->|Hc]; [reflexivity|].
  assert (Hl : atom_matches true (Chr LF) c = false).
  { apply not_line_feed. intros ->. discriminate. }
  pose proof (range_letter c) as Hr. rewrite Hc in Hr.
  cbn [rmatch m_pos m_rest m_caps lit seq fold_right map].
  change (atom_matches true (Chr LF) LF) with true. cbn iota.
  rewrite Hl, Hr. reflexivity.
Qed.

Lemma join_lines_next_line (P : char -> Prop) : forall ls l,
  Forall (fun l => l <> [] /\ ~ In LF l) (l :: ls) ->
  Forall (fun l => exists c t, l = c :: t /\ P c) ls ->
  forall b1 b2, join_lines (l :: ls) = b1 ++ LF :: b2 ->
  exists c b2', b2 = c :: b2' /\ P c.
Proof.
  induction ls as [|l2 ls IH]; intros l Hall HP b1 b2 E.
  - inversion Hall as [|? ? [_ Hl] _]; subst. simpl in E.
    exfalso. apply Hl. rewrite E. apply in_or_app. right. left. reflexivity.
  - inversion Hall as [|? ? [_ Hl] Hall']; subst.
    inversion HP as [|? ? (c & t & El2 & Hc) HP']; subst.
    change (join_lines (l :: (c :: t) :: ls))
      with (l ++ LF :: join_lines ((c :: t) :: ls)) in E.
    destruct (join_lines_head (c :: t) ls c t eq_refl) as [t' Et].
    apply app_eq_app in E. destruct E as [x [[E1 E2]|[E1 E2]]].
    + destruct x as [|c' x].
      * cbn [app] in E2.
        assert (Eb : b2 = join_lines ((c :: t) :: ls)) by congruence.
        rewrite Eb, Et. eauto.
      * cbn [app] in E2. injection E2 as <- _. exfalso. apply Hl.
        rewrite E1. apply in_or_app. right. left. reflexivity.
    + destruct x as [|c' x].
      * cbn [app] in E2.
        assert (Eb : b2 = join_lines ((c :: t) :: ls)) by congruence.
        rewrite Eb, Et. eauto.
      * cbn [app] in E2. injection E2 as <- E2.
        apply (IH (c :: t) Hall' HP' x b2 E2).
Qed.

Lemma join_lines_app_head p v ls :
  join_lines ((p ++ v) :: ls) = p ++ join_lines (v :: ls).
Proof. destruct ls; simpl; [reflexivity | rewrite <- app_assoc; reflexivity]. Qed.

(** The blanks that open a line which is not blank, and the rest. *)
Lemma leading_blanks s :
  trim s <> [] ->
  exists p v, s = p ++ v /\ spaces p /\ starts_with_ink v.
Proof.
  intros H. induction s as [|c s IH]; [exfalso; apply H; reflexivity|].
  destruct (isSpace c) eqn:Hc.
  - destruct IH as (p & v & -> & Hp & Hv).
    { unfold trim in *. simpl in H. rewrite Hc in H. exact H. }
    exists (c :: p), v. split; [reflexivity|]. split; [|exact Hv].
    constructor; assumption.
  - exists [], (c :: s). split; [reflexivity|]. split; [constructor|].
    exists c, s. auto.
Qed.

Lemma run_quant_back ic a k pos w1 w2 t caps res :
  Forall (fun c => atom_matches ic a c = true) w1 ->
  Forall (fun c => atom_matches ic a c = true) w2 ->
  head_fails ic a t ->
  (forall p c q, w2 = p ++ c :: q ->
     k (MState (pos + length w1 + S (length p)) (q ++ t) caps) = None) ->
  k (MState (pos + length w1) (w2 ++ t) caps) = Some res ->
  rmatch ic (RQuant a 0 None true) k (MState pos (w1 ++ w2 ++ t) caps)
  = Some res.
Proof. intros. cbn [rmatch m_pos m_rest m_caps]. apply greedy_loop_back; assumption. Qed.

Lemma atom_line_feed_fails r k pos s caps :
  (forall c t, s = c :: t -> c <> LF) ->
  rmatch true (RSeq (RAtom (Chr LF)) r) k (MState pos s caps) = None.
Proof.
  intros H. cbn [rmatch m_rest]. destruct s as [|c t]; [reflexivity|].
  rewrite (not_line_feed c (H c t eq_refl)). reflexivity.
Qed.

(** The second block pattern on the label, blanks, a line feed, lines and
    the end of the block. *)
Lemma it_block_match label ws first others c post pos :
  spelled true (js "Nameservers") label -> spaces ws ->
  Forall (fun l => ~ In LF l /\ trim l <> []) (first :: others) ->
  Forall (fun l => exists x t, l = x :: t /\ (x <> LF /\ isLetter x = false))
    others ->
  c = LF \/ isLetter c = true ->
  exists m,
    match_at
      (mkRegExp
         (seq [lit (js "Nameservers"); star space; RAtom (Chr LF);
               RGroup 1 (lazy_star anything);
               RLookahead
                 (RAlt (lit [LF; LF])
                    (seq [RAtom (Chr LF);
                          RAtom (Cls [IRange (ch "A") (ch "Z")])]))]) true)
      pos
      (label ++ ws ++ LF :: join_lines (first :: others) ++ LF :: c :: post)
    = Some m /\
    group m 1 = Some (join_lines (first :: others)).
Proof.
  intros Hlab Hws Hlines Hothers Hc.
  assert (Hl1 : Forall (fun l => l <> [] /\ ~ In LF l) (first :: others)).
  { revert Hlines. apply Forall_impl. intros l [H1 H2].
    split; [apply trim_nil_inv, H2 | exact H1]. }
  inversion Hlines as [|? ? [Hf1 Hf2] _]; subst.
  destruct (leading_blanks first Hf2) as (p & v & Ef & Hp & Hv).
  assert (Hpl : ~ In LF p).
  { intros Hin. apply Hf1. rewrite Ef. apply in_or_app. left. exact Hin. }
  set (body := join_lines (first :: others)).
  assert (Ebody : body = p ++ join_lines (v :: others)).
  { unfold body. rewrite Ef. apply join_lines_app_head. }
  assert (Hink : starts_with_ink (join_lines (v :: others))).
  { destruct Hv as (x & t & E & Hx).
    destruct (join_lines_head v others x t E) as [t' Et].
    exists x, t'. auto. }
  assert (Hrun : exists st',
    rmatch true
      (seq [lit (js "Nameservers"); star space; RAtom (Chr LF);
            RGroup 1 (lazy_star anything);
            RLookahead
              (RAlt (lit [LF; LF])
                 (seq [RAtom (Chr LF);
                       RAtom (Cls [IRange (ch "A") (ch "Z")])]))]) Some
      (MState pos
         (label ++ ws ++ (LF :: p)
                ++ (join_lines (v :: others) ++ LF :: c :: post)) [])
    = Some st' /\ m_caps st' = [(1%nat, body)]).
  { eexists. split.
    - unfold seq, fold_right, star.
      apply run_seq, run_lit; [exact Hlab|].
      apply run_seq, run_quant_back.
      + apply spaces_atom, Hws.
      + apply spaces_atom. constructor; [reflexivity | exact Hp].
      + apply ink_fails, Hink.
      + intros p' x q E. apply atom_line_feed_fails.
        intros y t Ey.
        assert (Hy : In y p \/ exists t', join_lines (v :: others) = y :: t').
        { destruct q as [|q0 q].
          - right. cbn [app] in Ey.
            destruct Hink as (z & t' & Ez & _). rewrite Ez in Ey.
            cbn [app] in Ey. injection Ey as <- _. eauto.
          - left. cbn [app] in Ey. injection Ey as <- _.
            destruct p' as [|p0 p'].
            + cbn [app] in E. injection E as _ E. rewrite E.
              left. reflexivity.
            + cbn [app] in E. injection E as _ E. rewrite E.
              apply in_or_app. right. right. left. reflexivity. }
        destruct Hy as [Hy|[t' Hy]].
        * intros ->. exact (Hpl Hy).
        * destruct Hink as (z & t'' & Ez & Hz). rewrite Ez in Hy.
          injection Hy as -> _. intros ->. discriminate.
      + cbn [app]. apply run_seq, run_atom; [reflexivity|].
        apply run_seq. unfold lazy_star.
        rewrite app_assoc, <- Ebody.
        apply run_group_lazy.
        * apply anything_atom.
        * intros b1 x b2 caps' E. apply it_block_end_fails.
          intros y t Ey. injection Ey as -> Ey.
          destruct (join_lines_next_line
                      (fun x => x <> LF /\ isLetter x = false)
                      others first Hl1 Hothers b1 b2 E)
            as (z & b2' & -> & Hz).
          cbn [app] in Ey. injection Ey as <- _. exact Hz.
        * apply it_block_end_holds. exact Hc.
    - reflexivity. }
  destruct Hrun as (st' & Hrun & Hcaps).
  assert (Ein : label ++ ws ++ LF :: body ++ LF :: c :: post
                = label ++ ws ++ (LF :: p)
                        ++ (join_lines (v :: others) ++ LF :: c :: post)).
  { rewrite Ebody. cbn [app]. rewrite <- app_assoc. reflexivity. }
  unfold match_at. cbn [source ignoreCase].
  rewrite Ein, Hrun. eexists. split; [reflexivity|].
  unfold group. cbn [groups]. rewrite Hcaps. reflexivity.
Qed.

Lemma parseNameservers_it_block text pre label ws first others c post :
  mentions (js "Name servers:") text = false ->
  whole_lines pre -> mentions (js "Nameservers") pre = false ->
  spelled true (js "Nameservers") label -> spaces ws ->
  Forall (fun l => ~ In LF l /\ trim l <> [] /\
                   startsWith (js "WHOIS") (trim l) = false)
    (first :: others) ->
  Forall (fun l => exists x t, l = x :: t /\ (x <> LF /\ isLetter x = false))
    others ->
  c = LF \/ isLetter c = true ->
  text = pre ++ label ++ ws ++ LF :: join_lines (first :: others)
             ++ LF :: c :: post ->
  parseNameservers text
  = Normal (Some (map (fun l => first_word (trim l)) (first :: others))).
Proof.
  intros HA Hpre Hmen Hlab Hws Hlines Hothers Hc Etext.
  destruct (it_block_match label ws first others c post (length pre)
              Hlab Hws) as (m & Hm & Hg); try assumption.
  { revert Hlines. apply Forall_impl. tauto. }
  unfold parseNameservers, multilinePatterns. cbn [map app].
  rewrite first_return_skip by (no_match_by HA (js "Name servers:"); reflexivity).
  apply first_return_take.
  unfold seq at 1. cbn [fold_right].
  unfold seq at 1 in Hm. cbn [fold_right] in Hm.
  rewrite Etext,
    (String_match_first_label (js "Nameservers") _ pre _ m);
    [|discriminate | repeat constructor | exact Hpre | exact Hmen | exact Hm].
  rewrite Hg. cbn [method bind].
  rewrite split_join_lines;
    [|discriminate | revert Hlines; apply Forall_impl; tauto].
  rewrite server_lines_kept;
    [|revert Hlines; apply Forall_impl; tauto].
  rewrite map_map. reflexivity.
Qed.

(** X24.  Under [Nameservers] the name servers are the first words of the
    lines up to a blank line or a line that starts with a letter.  Let the
    text not hold [Name servers:] and be whole lines without the label,
    then the label [Nameservers] in any letter case, blanks and a line
    feed, then one or more lines that are not blank and do not start with
    [WHOIS] once trimmed, each but the first starting with a character
    that is no letter (as indented lines do), and then a line feed
    followed by another or by a letter.  Then nameservers is the list of
    the first word of each of these lines: a line that starts with a
    letter ends the block. *)
Theorem nameservers_block_read_back
  text now fallback pre label ws first others c post :
  mentions (js "Name servers:") text = false ->
  whole_lines pre -> mentions (js "Nameservers") pre = false ->
  spelled true (js "Nameservers") label -> spaces ws ->
  Forall (fun l => ~ In LF l /\ trim l <> [] /\
                   startsWith (js "WHOIS") (trim l) = false)
    (first :: others) ->
  Forall (fun l => exists x t, l = x :: t /\ (x <> LF /\ isLetter x = false))
    others ->
  c = LF \/ isLetter c = true ->
  text = pre ++ label ++ ws ++ LF :: join_lines (first :: others)
             ++ LF :: c :: post ->
  exists r,
    parseWhoisData text now fallback = Normal r /\
    nameservers r
    = Some (map (fun l => first_word (trim l)) (first :: others)).
Proof.
  intros HA Hpre Hmen Hlab Hws Hlines Hothers Hc Etext.
  destruct (parseWhoisData_normal text now fallback) as [r Hr].
  exists r. split; [exact Hr|].
  apply parseWhoisData_inv in Hr.
  destruct Hr as (pd & _ & _ & _ & _ & _ & Hns & _).
  rewrite (parseNameservers_it_block text pre label ws first others c post
             HA Hpre Hmen Hlab Hws Hlines Hothers Hc Etext) in Hns.
  injection Hns as <-. reflexivity.
Qed.

Lemma nameservers_block_read_back_witness :
  exists r,
    parseWhoisData
      (js "Domain:  example.it" ++ LF ::
       js "Nameservers" ++ LF ::
       js "  dns.nic.it" ++ LF ::
       js "  nameserver.cnr.it" ++ LF ::
       js "Registrar") 2025%Z None = Normal r /\
    nameservers r = Some [js "dns.nic.it"; js "nameserver.cnr.it"].
Proof.
  apply (nameservers_block_read_back _ 2025%Z None
           (js "Domain:  example.it" ++ [LF])
           (js "Nameservers") []
           (js "  dns.nic.it") [js "  nameserver.cnr.it"]
           (ch "R") (js "egistrar")).
  - reflexivity.
  - right. eexists. reflexivity.
  - reflexivity.
  - repeat constructor.
  - constructor.
  - repeat constructor; try discriminate; vm_compute; intuition discriminate.
  - repeat constructor. eexists _, _. split; [reflexivity|].
    split; [discriminate | reflexivity].
  - right. reflexivity.
  - reflexivity.
Defined.
